(** * PokemonWebsite: type effectiveness, quiz scoring, expiring caches and
      neighbour preloading

    A shallow embedding of the logic of three source files

    - [src/app/guesser/page.tsx]              (module [Guesser]),
    - [src/app/pokedex/[pokemonName]/page.tsx] (module [Detail]),
    - [src/contexts/PokedexContext.tsx]        (module [Context]),

    together with the type registry [src/lib/pokemonTypes.ts] (module
    [Registry]).  React state is a record that the handlers transform, the
    module-level cache is a finite map, [fetch] is an oracle of the run and
    a thrown exception is a result next to the state reached so far.
    What the pages display, and the two users of the search index,
    [src/components/Header.tsx] (module [Header]) and
    [src/app/search/page.tsx] (module [SearchPage]), are embedded in the
    part on what the pages show. *)

From Stdlib Require Import Ascii String QArith Qround Qpower ZArith Lia Lqa Sorted.
From stdpp Require Import base option list gmap sets strings pretty.

Local Open Scope string_scope.

(** ** JavaScript values *)

Module Js.

(** A JavaScript number.  Every number the modelled code computes is an
    integer timestamp or a product of factors among 0, 0.5, 1 and 2,
    which IEEE doubles represent exactly as long as the product keeps
    fewer than a thousand doublings or halvings; finite values are
    therefore rationals, and [NaN] is what [undefined * c] yields.  The
    sign of zero is not kept: the modelled code only compares numbers. *)
Inductive number := Num (q : Q) | NaN.

(** *** Rounding to a double

    Where the code multiplies a number that is not a product of the
    factors above, the result is the double nearest to the exact product,
    ties going to the even significand.  [double x] is that double for a
    rational [x], written for finite results (below 2^1024 in absolute
    value), which are all the modelled code reaches. *)

(** The binary exponent of a positive rational: the [e] with
    2^e <= x < 2^(e+1). *)
Definition exponent (x : Q) : Z :=
  let e := (Z.log2 (Qnum x) - Z.log2 (Zpos (Qden x)))%Z in
  if Qle_bool (2 ^ e) x then e else (e - 1)%Z.

(** The integer nearest to [y], the even one of two that are equally
    near. *)
Definition roundHalfEven (y : Q) : Z :=
  let f := Qfloor y in
  match Qcompare (y - inject_Z f) (1 # 2) with
  | Lt => f
  | Gt => (f + 1)%Z
  | Eq => if Z.even f then f else (f + 1)%Z
  end.

(** The double nearest to a positive [x]: 53 significant bits, and
    multiples of 2^-1074 below 2^-1022. *)
Definition roundPositive (x : Q) : Q :=
  let q := (Z.max (exponent x) (-1022) - 52)%Z in
  inject_Z (roundHalfEven (x / 2 ^ q)) * 2 ^ q.

Definition double (x : Q) : Q :=
  match Qcompare x 0 with
  | Eq => 0
  | Gt => roundPositive x
  | Lt => - roundPositive (- x)
  end.

(** The double nearest to an integer, as an integer. *)
Definition nearest (n : Z) : Z := Qfloor (double (inject_Z n)).

(** [a * b] *)
Definition mul (a b : number) : number :=
  match a, b with
  | Num x, Num y => Num (x * y)
  | _, _ => NaN
  end.

(** [a >= b] *)
Definition ge (a b : number) : bool :=
  match a, b with
  | Num x, Num y => Qle_bool y x
  | _, _ => false
  end.

(** [a < b] *)
Definition lt (a b : number) : bool :=
  match a, b with
  | Num x, Num y => negb (Qle_bool y x)
  | _, _ => false
  end.

(** [a !== 0] *)
Definition nonzero (a : number) : bool :=
  match a with
  | Num x => negb (Qeq_bool x 0)
  | NaN => true
  end.

(** Truthiness of a number: [0] and [NaN] are falsy. *)
Definition truthy (a : number) : bool :=
  match a with
  | Num x => negb (Qeq_bool x 0)
  | NaN => false
  end.

(** [a || b] where [a] may be [undefined] *)
Definition or_else (a : option number) (b : number) : number :=
  match a with
  | Some x => if truthy x then x else b
  | None => b
  end.

(** [a ?? b] where [a] may be [undefined] *)
Definition nullish (a : option number) (b : number) : number :=
  match a with
  | Some x => x
  | None => b
  end.

(** [undefined] used as an operand of [*] *)
Definition to_number (a : option number) : number :=
  match a with
  | Some x => x
  | None => NaN
  end.

(** Truthiness of a string that may be [null] or [undefined]. *)
Definition truthy_str (s : option string) : bool :=
  match s with
  | Some s => negb (String.eqb s EmptyString)
  | None => false
  end.

(** [a || b] on such strings *)
Definition or_str (a b : option string) : option string :=
  if truthy_str a then a else b.

Definition lower_ascii (c : Ascii.ascii) : Ascii.ascii :=
  let n := Ascii.nat_of_ascii c in
  if ((65 <=? n)%nat && (n <=? 90)%nat)%bool
  then Ascii.ascii_of_nat (n + 32) else c.

(** [s.toLowerCase()] on text whose capital letters are among A to Z,
    as the names of the types, of the creatures and of the pages are:
    these letters are lowered and every other byte is kept.  Capital
    letters outside ASCII, which JavaScript lowers too, are outside the
    model; the properties that depend on how case is folded are stated
    for ASCII text. *)
Fixpoint toLowerCase (s : string) : string :=
  match s with
  | EmptyString => EmptyString
  | String c r => String (lower_ascii c) (toLowerCase r)
  end.

(** [s.replace('-', ' ')]: the first hyphen only. *)
Fixpoint replace_hyphen (s : string) : string :=
  match s with
  | EmptyString => EmptyString
  | String c r =>
      if Ascii.eqb c "-"%char then String " "%char r
      else String c (replace_hyphen r)
  end.

(** [s] between double quotes, as the messages of the pages show names. *)
Definition quoted (s : string) : string :=
  String (Ascii.ascii_of_nat 34) (s ++ String (Ascii.ascii_of_nat 34) EmptyString).

(** What [await fetch(url)] followed by [res.json()] can come to: the
    request itself rejects, or a response arrives with its [ok] flag and
    status, whose body either cannot be read as the expected record
    ([inl], with the message of the rejection) or is that record. *)
Inductive Fetched (A : Type) :=
| Rejected (message : string)
| Responded (ok : bool) (status : Z) (json : string + A).
Arguments Rejected {A} message.
Arguments Responded {A} ok status json.

End Js.

(** ** JavaScript strings

    A string is the UTF-8 encoding of a well-formed text, so that a
    substring is found at the same places on its bytes as on the code
    units of the source. *)

Module JsText.

(** [s.includes(t)] *)
Fixpoint includes (s t : string) : bool :=
  (String.prefix t s
   || match s with
      | EmptyString => false
      | String _ r => includes r t
      end)%bool.

Fixpoint repeatChar (n : nat) (c : Ascii.ascii) : string :=
  match n with
  | O => EmptyString
  | S n' => String c (repeatChar n' c)
  end.

(** [s.padStart(targetLength, c)] for a filler [c] of one character *)
Definition padStart (targetLength : nat) (c : Ascii.ascii) (s : string) : string :=
  repeatChar (targetLength - String.length s) c ++ s.

(** [a || b] where [a] is a string that may be [undefined] and [b] is a
    string *)
Definition or_default (a : option string) (b : string) : string :=
  match a with
  | Some s => if String.eqb s EmptyString then b else s
  | None => b
  end.

(** The white space of the language ([WhiteSpace] and
    [LineTerminator]), by the bytes that encode it: one byte for TAB, LF,
    VT, FF, CR and SP; two for U+00A0; three for U+1680, U+2000 to
    U+200A, U+2028, U+2029, U+202F, U+205F, U+3000 and U+FEFF. *)
Definition white1 (a : Ascii.ascii) : bool :=
  let x := Ascii.nat_of_ascii a in
  ((x =? 32) || ((9 <=? x) && (x <=? 13)))%nat%bool.

Definition white2 (a b : Ascii.ascii) : bool :=
  ((Ascii.nat_of_ascii a =? 194) && (Ascii.nat_of_ascii b =? 160))%nat%bool.

Definition white3 (a b c : Ascii.ascii) : bool :=
  let x := Ascii.nat_of_ascii a in
  let y := Ascii.nat_of_ascii b in
  let z := Ascii.nat_of_ascii c in
  (((x =? 225) && (y =? 154) && (z =? 128))
   || ((x =? 226) && (y =? 128)
       && (((128 <=? z) && (z <=? 138)) || (z =? 168) || (z =? 169) || (z =? 175)))
   || ((x =? 226) && (y =? 129) && (z =? 159))
   || ((x =? 227) && (y =? 128) && (z =? 128))
   || ((x =? 239) && (y =? 187) && (z =? 191)))%nat%bool.

(** White space taken off the front of [s]; with [backwards] set, [s]
    is a reversed string and the bytes of a character come last byte
    first. *)
Fixpoint strip (backwards : bool) (s : string) : string :=
  match s with
  | String a r =>
      if white1 a then strip backwards r
      else
        match r with
        | String b r2 =>
            if (if backwards then white2 b a else white2 a b) then strip backwards r2
            else
              match r2 with
              | String c r3 =>
                  if (if backwards then white3 c b a else white3 a b c)
                  then strip backwards r3
                  else s
              | EmptyString => s
              end
        | EmptyString => s
        end
  | EmptyString => s
  end.

(** [s.trim()] *)
Definition trim (s : string) : string :=
  String.rev (strip true (String.rev (strip false s))).

(** The characters that [encodeURIComponent] leaves as they are:
    letters, digits and [- _ . ! ~ * ' ( )]. *)
Definition unreserved (c : Ascii.ascii) : bool :=
  let x := Ascii.nat_of_ascii c in
  (((48 <=? x) && (x <=? 57)) || ((65 <=? x) && (x <=? 90))
   || ((97 <=? x) && (x <=? 122))
   || (x =? 45) || (x =? 95) || (x =? 46) || (x =? 33) || (x =? 126)
   || (x =? 42) || (x =? 39) || (x =? 40) || (x =? 41))%nat%bool.

Definition hexDigit (x : nat) : Ascii.ascii :=
  if (x <? 10)%nat then Ascii.ascii_of_nat (48 + x) else Ascii.ascii_of_nat (55 + x).

(** The escape of one byte: a percent sign and two upper-case
    hexadecimal digits. *)
Definition escape (c : Ascii.ascii) : string :=
  let x := Ascii.nat_of_ascii c in
  String "%"%char (String (hexDigit (x / 16)) (String (hexDigit (x mod 16)) EmptyString)).

(** [encodeURIComponent(s)]: every byte of the UTF-8 encoding that is
    not an unreserved character is escaped. *)
Fixpoint encodeURIComponent (s : string) : string :=
  match s with
  | EmptyString => EmptyString
  | String c r =>
      (if unreserved c then String c EmptyString else escape c)
      ++ encodeURIComponent r
  end.

End JsText.

(** ** A state monad with exceptions

    Effects that happened before a [throw] stay: the state is returned next
    to the exception, as the setters already called in a [try] block keep
    their effect when the block is left through [catch]. *)

Module Eff.

Inductive Result (A : Type) :=
| Return (a : A)
| Throw (message : string).
Arguments Return {A} a.
Arguments Throw {A} message.

Definition M (S A : Type) : Type := S -> Result A * S.

Definition ret {S A} (a : A) : M S A := fun s => (Return a, s).

Definition bind {S A B} (m : M S A) (k : A -> M S B) : M S B :=
  fun s =>
    match m s with
    | (Return a, s') => k a s'
    | (Throw e, s') => (Throw e, s')
    end.

Definition throw {S A} (e : string) : M S A := fun s => (Throw e, s).

Definition get {S} : M S S := fun s => (Return s, s).

Definition modify {S} (f : S -> S) : M S unit := fun s => (Return tt, f s).

(** [try { m } catch (err) { h err.message }] *)
Definition try_catch {S A} (m : M S A) (h : string -> M S A) : M S A :=
  fun s =>
    match m s with
    | (Return a, s') => (Return a, s')
    | (Throw e, s') => h e s'
    end.

(** [await Promise.all(xs.map(f))]: the calls are issued in order; the
    join yields all results or rejects.  When several members reject the
    model reports the first in list order. *)
Fixpoint all {S A B} (f : A -> M S B) (xs : list A) : M S (list B) :=
  match xs with
  | [] => ret []
  | x :: xs' =>
      fun s =>
        match f x s with
        | (Return b, s') =>
            match all f xs' s' with
            | (Return bs, s'') => (Return (b :: bs), s'')
            | (Throw e, s'') => (Throw e, s'')
            end
        | (Throw e, s') =>
            match all f xs' s' with
            | (_, s'') => (Throw e, s'')
            end
        end
  end.

Module Notations.
Notation "'do' x <- m ; k" := (bind m (fun x => k))
  (at level 10, x name, m at level 100, k at level 200).
Notation "'exec' m ; k" := (bind m (fun _ => k))
  (at level 10, m at level 100, k at level 200).
End Notations.

End Eff.

(** ** The type registry ([src/lib/pokemonTypes.ts]) *)

Module Registry.

Record TypeData := {
  td_id : string;
  td_name : string;
  td_color : string;
  td_textColor : option string;
}.

Definition POKEMON_TYPES : list TypeData := [
  {| td_id := "type-normal"; td_name := "Normal"; td_color := "#A8A77A"; td_textColor := Some "#000000" |};
  {| td_id := "type-fire"; td_name := "Fire"; td_color := "#EE8130"; td_textColor := Some "#FFFFFF" |};
  {| td_id := "type-water"; td_name := "Water"; td_color := "#6390F0"; td_textColor := Some "#FFFFFF" |};
  {| td_id := "type-electric"; td_name := "Electric"; td_color := "#F7D02C"; td_textColor := Some "#000000" |};
  {| td_id := "type-grass"; td_name := "Grass"; td_color := "#7AC74C"; td_textColor := Some "#000000" |};
  {| td_id := "type-ice"; td_name := "Ice"; td_color := "#96D9D6"; td_textColor := Some "#000000" |};
  {| td_id := "type-fighting"; td_name := "Fighting"; td_color := "#C22E28"; td_textColor := Some "#FFFFFF" |};
  {| td_id := "type-poison"; td_name := "Poison"; td_color := "#A33EA1"; td_textColor := Some "#FFFFFF" |};
  {| td_id := "type-ground"; td_name := "Ground"; td_color := "#E2BF65"; td_textColor := Some "#000000" |};
  {| td_id := "type-flying"; td_name := "Flying"; td_color := "#A98FF3"; td_textColor := Some "#000000" |};
  {| td_id := "type-psychic"; td_name := "Psychic"; td_color := "#F95587"; td_textColor := Some "#FFFFFF" |};
  {| td_id := "type-bug"; td_name := "Bug"; td_color := "#A6B91A"; td_textColor := Some "#000000" |};
  {| td_id := "type-rock"; td_name := "Rock"; td_color := "#B6A136"; td_textColor := Some "#000000" |};
  {| td_id := "type-ghost"; td_name := "Ghost"; td_color := "#735797"; td_textColor := Some "#FFFFFF" |};
  {| td_id := "type-dragon"; td_name := "Dragon"; td_color := "#6F35FC"; td_textColor := Some "#FFFFFF" |};
  {| td_id := "type-steel"; td_name := "Steel"; td_color := "#B7B7CE"; td_textColor := Some "#000000" |};
  {| td_id := "type-dark"; td_name := "Dark"; td_color := "#705746"; td_textColor := Some "#FFFFFF" |};
  {| td_id := "type-fairy"; td_name := "Fairy"; td_color := "#D685AD"; td_textColor := Some "#000000" |}
].

End Registry.

(** ** Records of the remote API used by both pages *)

Module Api.

(** [{ name, url }] *)
Record NamedResource := {
  nr_name : string;
  nr_url : string;
}.

Record DamageRelations := {
  double_damage_from : list NamedResource;
  half_damage_from : list NamedResource;
  no_damage_from : list NamedResource;
}.

(** The body of [GET /type/{name}], as far as the pages read it. *)
Record TypeDetail := {
  damage_relations : DamageRelations;
}.

(** An element of a creature's [types] array. *)
Record TypeSlot := {
  ts_slot : Z;
  ts_type : NamedResource;
}.

End Api.

(** ** The quiz page ([src/app/guesser/page.tsx]) *)

Module Guesser.
Import Js Eff Eff.Notations Registry Api.

(** [sprites]: [front_default] and
    [other?.['official-artwork']?.front_default]; [None] stands for
    [null], [undefined] or a missing intermediate object. *)
Record Sprites := {
  front_default : option string;
  official_artwork : option string;
}.

Record Pokemon := {
  pk_id : Z;
  pk_name : string;
  pk_sprites : Sprites;
  pk_types : list TypeSlot;
}.

Definition MAX_POKEMON_ID : Z := 905.

Inductive TypeCheckResult := NONE | CORRECT | INCORRECT | MISSED.

(** The [useState] cells of [PokemonGuesserPage]. *)
Record State := {
  currentPokemon : option Pokemon;
  isLoading : bool;
  error : option string;
  correctEffectiveness : gmap string number;
  selectedTypes : gset string;
  typeCheckResults : gmap string TypeCheckResult;
  showResults : bool;
  timeTaken : Q;
  startTime : option Z;
  gameWon : bool;
}.

Definition initialState : State := {|
  currentPokemon := None; isLoading := true; error := None;
  correctEffectiveness := ∅; selectedTypes := ∅; typeCheckResults := ∅;
  showResults := false; timeTaken := 0; startTime := None; gameWon := false |}.

Definition setCurrentPokemon (v : option Pokemon) (s : State) : State := {|
  currentPokemon := v; isLoading := isLoading s; error := error s;
  correctEffectiveness := correctEffectiveness s;
  selectedTypes := selectedTypes s; typeCheckResults := typeCheckResults s;
  showResults := showResults s; timeTaken := timeTaken s;
  startTime := startTime s; gameWon := gameWon s |}.

Definition setIsLoading (v : bool) (s : State) : State := {|
  currentPokemon := currentPokemon s; isLoading := v; error := error s;
  correctEffectiveness := correctEffectiveness s;
  selectedTypes := selectedTypes s; typeCheckResults := typeCheckResults s;
  showResults := showResults s; timeTaken := timeTaken s;
  startTime := startTime s; gameWon := gameWon s |}.

Definition setError (v : option string) (s : State) : State := {|
  currentPokemon := currentPokemon s; isLoading := isLoading s; error := v;
  correctEffectiveness := correctEffectiveness s;
  selectedTypes := selectedTypes s; typeCheckResults := typeCheckResults s;
  showResults := showResults s; timeTaken := timeTaken s;
  startTime := startTime s; gameWon := gameWon s |}.

Definition setCorrectEffectiveness (v : gmap string number) (s : State) : State := {|
  currentPokemon := currentPokemon s; isLoading := isLoading s; error := error s;
  correctEffectiveness := v;
  selectedTypes := selectedTypes s; typeCheckResults := typeCheckResults s;
  showResults := showResults s; timeTaken := timeTaken s;
  startTime := startTime s; gameWon := gameWon s |}.

Definition setSelectedTypes (v : gset string) (s : State) : State := {|
  currentPokemon := currentPokemon s; isLoading := isLoading s; error := error s;
  correctEffectiveness := correctEffectiveness s;
  selectedTypes := v; typeCheckResults := typeCheckResults s;
  showResults := showResults s; timeTaken := timeTaken s;
  startTime := startTime s; gameWon := gameWon s |}.

Definition setTypeCheckResults (v : gmap string TypeCheckResult) (s : State) : State := {|
  currentPokemon := currentPokemon s; isLoading := isLoading s; error := error s;
  correctEffectiveness := correctEffectiveness s;
  selectedTypes := selectedTypes s; typeCheckResults := v;
  showResults := showResults s; timeTaken := timeTaken s;
  startTime := startTime s; gameWon := gameWon s |}.

Definition setShowResults (v : bool) (s : State) : State := {|
  currentPokemon := currentPokemon s; isLoading := isLoading s; error := error s;
  correctEffectiveness := correctEffectiveness s;
  selectedTypes := selectedTypes s; typeCheckResults := typeCheckResults s;
  showResults := v; timeTaken := timeTaken s;
  startTime := startTime s; gameWon := gameWon s |}.

Definition setTimeTaken (v : Q) (s : State) : State := {|
  currentPokemon := currentPokemon s; isLoading := isLoading s; error := error s;
  correctEffectiveness := correctEffectiveness s;
  selectedTypes := selectedTypes s; typeCheckResults := typeCheckResults s;
  showResults := showResults s; timeTaken := v;
  startTime := startTime s; gameWon := gameWon s |}.

Definition setStartTime (v : option Z) (s : State) : State := {|
  currentPokemon := currentPokemon s; isLoading := isLoading s; error := error s;
  correctEffectiveness := correctEffectiveness s;
  selectedTypes := selectedTypes s; typeCheckResults := typeCheckResults s;
  showResults := showResults s; timeTaken := timeTaken s;
  startTime := v; gameWon := gameWon s |}.

Definition setGameWon (v : bool) (s : State) : State := {|
  currentPokemon := currentPokemon s; isLoading := isLoading s; error := error s;
  correctEffectiveness := correctEffectiveness s;
  selectedTypes := selectedTypes s; typeCheckResults := typeCheckResults s;
  showResults := showResults s; timeTaken := timeTaken s;
  startTime := startTime s; gameWon := v |}.

(** What one run of [startNewGame] meets, per iteration of its loop
    (numbered by the value of [attempts], which every failed iteration
    raises by one): the value of [Math.random()], which is a double that
    is at least 0 and less than 1, the answer to the creature request
    for the drawn id and the answers to the type requests by URL. *)
Record World := {
  random : nat -> Q;
  fetchPokemon : nat -> Z -> Fetched Pokemon;
  fetchType : nat -> string -> Fetched TypeDetail;
}.

(** [fetchTypeDetails], lines 81-85 *)
Definition fetchTypeDetails (w : World) (attempts : nat) (typeUrl : string)
  : M State TypeDetail :=
  match fetchType w attempts typeUrl with
  | Rejected e => throw e
  | Responded ok _ body =>
      if negb ok then throw ("Failed to fetch type details from " ++ typeUrl)
      else match body with
           | inl e => throw e
           | inr detail => ret detail
           end
  end.

(** [list.some(t => t.name === attackingType.name.toLowerCase())] *)
Definition names (attackingType : TypeData) (l : list NamedResource) : bool :=
  existsb (fun t => String.eqb (nr_name t) (toLowerCase (td_name attackingType))) l.

(** Lines 95-102: the factor of one defending type. *)
Definition currentMultiplier (defendingTypeDetail : TypeDetail)
    (attackingType : TypeData) : number :=
  let r := damage_relations defendingTypeDetail in
  if names attackingType (double_damage_from r) then Num 2
  else if names attackingType (half_damage_from r) then Num (1 # 2)
  else if names attackingType (no_damage_from r) then Num 0
  else Num 1.

(** Lines 93-104: the inner loop over the defending types. *)
Definition finalMultiplier (defendingTypesDetails : list TypeDetail)
    (attackingType : TypeData) : number :=
  foldl (fun acc d => mul acc (currentMultiplier d attackingType))
        (Num 1) defendingTypesDetails.

(** Lines 91-106: the outer loop filling [calculatedEffectivenessMap]. *)
Definition calculatedEffectivenessMap (defendingTypesDetails : list TypeDetail)
  : gmap string number :=
  foldl (fun m attackingType =>
           <[td_name attackingType :=
               finalMultiplier defendingTypesDetails attackingType]> m)
        ∅ POKEMON_TYPES.

(** [calculateEffectiveness], lines 87-108 *)
Definition calculateEffectiveness (w : World) (attempts : nat)
    (pokemon : Pokemon) : M State unit :=
  do defendingTypesDetails <-
    all (fun pt => fetchTypeDetails w attempts (nr_url (ts_type pt)))
        (pk_types pokemon);
  modify (setCorrectEffectiveness
            (calculatedEffectivenessMap defendingTypesDetails)).

(** How an iteration of the loop of [startNewGame] ends: the function
    returns, or [attempts] was raised and the loop goes on. *)
Inductive Iteration := Returns | Retries.

(** Line 122: [Math.floor(Math.random() * MAX_POKEMON_ID) + 1]; the
    product is rounded to a double before [Math.floor] sees it. *)
Definition randomId (w : World) (attempts : nat) : Z :=
  (Qfloor (double (random w attempts * inject_Z MAX_POKEMON_ID)) + 1)%Z.

(** The body of the [while] loop, lines 121-146. *)
Definition attempt (w : World) (attempts : nat) : M State Iteration :=
  try_catch
    (match fetchPokemon w attempts (randomId w attempts) with
     | Rejected e => throw e
     | Responded ok status body =>
         if negb ok then
           if (status =? 404)%Z then ret Retries
           else throw ("Pokémon not found (Status " ++ pretty status ++ ")")
         else
           match body with
           | inl e => throw e
           | inr data =>
               let spriteUrl :=
                 or_str (official_artwork (pk_sprites data))
                        (front_default (pk_sprites data)) in
               if negb (truthy_str spriteUrl) then ret Retries
               else
                 let data' :=
                   {| pk_id := pk_id data; pk_name := pk_name data;
                      pk_sprites :=
                        {| front_default := spriteUrl;
                           official_artwork := official_artwork (pk_sprites data) |};
                      pk_types := pk_types data |} in
                 exec modify (setCurrentPokemon (Some data'));
                 exec calculateEffectiveness w attempts data';
                 exec modify (setIsLoading false);
                 ret Returns
           end
     end)
    (fun _ => ret Retries).

(** The loop [while (attempts < 5)] and the two statements after it,
    lines 119-149.  [fuel] bounds the iterations the model is willing to
    run; the result carries the final value of [attempts]. *)
Fixpoint attemptLoop (fuel : nat) (w : World) (attempts : nat) (st : State)
  : option (nat * State) :=
  if (attempts <? 5)%nat then
    match fuel with
    | O => None
    | S fuel' =>
        match attempt w attempts st with
        | (Return Returns, st') => Some (attempts, st')
        | (_, st') => attemptLoop fuel' w (S attempts) st'
        end
    end
  else
    Some (attempts,
          setIsLoading false
            (setError (Some "Could not load a Pokémon after several attempts. Please try again later.") st)).

(** [startNewGame], lines 110-150; [now] is the value of [Date.now()]. *)
Definition startNewGame (fuel : nat) (w : World) (now : Z) (st : State)
  : option (nat * State) :=
  let st := setIsLoading true st in
  let st := setError None st in
  let st := setSelectedTypes ∅ st in
  let st := setTypeCheckResults ∅ st in
  let st := setShowResults false st in
  let st := setGameWon false st in
  let st := setStartTime (Some now) st in
  attemptLoop fuel w 0 st.

(** [handleTypeClick], lines 156-168 *)
Definition handleTypeClick (typeName : string) (st : State) : State :=
  if showResults st then st
  else
    setSelectedTypes
      (if bool_decide (typeName ∈ selectedTypes st)
       then selectedTypes st ∖ {[typeName]}
       else selectedTypes st ∪ {[typeName]})
      st.

(** The callback of [POKEMON_TYPES.forEach], lines 178-199, on the three
    variables it assigns. *)
Definition checkType (correct : gmap string number) (selected : gset string)
    (acc : gmap string TypeCheckResult * bool * bool) (type : TypeData)
  : gmap string TypeCheckResult * bool * bool :=
  let '(results, allCorrectlySelected, anySuperEffectiveMissed) := acc in
  let effectiveness := or_else (correct !! td_name type) (Num 1) in
  let isSuperEffective := ge effectiveness (Num 2) in
  let isSelected := bool_decide (td_name type ∈ selected) in
  if isSelected then
    if isSuperEffective
    then (<[td_name type := CORRECT]> results,
          allCorrectlySelected, anySuperEffectiveMissed)
    else (<[td_name type := INCORRECT]> results,
          false, anySuperEffectiveMissed)
  else
    if isSuperEffective
    then (<[td_name type := MISSED]> results, false, true)
    else (<[td_name type := NONE]> results,
          allCorrectlySelected, anySuperEffectiveMissed).

(** [correctEffectiveness.forEach(...)], lines 207-210 *)
Definition hasAnySuperEffectiveForCurrentPokemon (correct : gmap string number) : bool :=
  map_fold (fun _ multiplier acc => if ge multiplier (Num 2) then true else acc)
           false correct.

(** [handleCheckAnswers], lines 170-226; [now] is [Date.now()]. *)
Definition handleCheckAnswers (now : Z) (st : State) : State :=
  let st1 :=
    match startTime st with
    | Some t =>
        if (t =? 0)%Z then st
        else setTimeTaken (inject_Z (now - t) / 1000) st
    | None => st
    end in
  let '(results, allCorrectlySelected, anySuperEffectiveMissed) :=
    foldl (checkType (correctEffectiveness st) (selectedTypes st))
          (∅, true, false) POKEMON_TYPES in
  let won :=
    if (allCorrectlySelected && negb anySuperEffectiveMissed)%bool then
      if hasAnySuperEffectiveForCurrentPokemon (correctEffectiveness st)
      then bool_decide (0 < size (selectedTypes st))%nat
      else true
    else false in
  setShowResults true (setTypeCheckResults results (setGameWon won st1)).

End Guesser.

(** ** The detail page ([src/app/pokedex/[pokemonName]/page.tsx]) *)

Module Detail.
Import Js Eff Eff.Notations Registry Api.

Record AbilityInfo := {
  ability : NamedResource;
  is_hidden : bool;
}.

Record StatInfo := {
  base_stat : Z;
  stat_name : string;
  current_width : option string;
  current_color : option string;
}.

Record PokemonData := {
  pd_id : Z;
  pd_name : string;
  pd_types : list TypeSlot;
  pd_abilities : list AbilityInfo;
  pd_stats : list StatInfo;
  pd_species_url : string;
  pd_height : Z;
  pd_weight : Z;
}.

Record PokemonSpeciesData := {
  evolution_chain_url : string;
}.

#[warnings="-register-all"]
Inductive EvolutionChainLink :=
| Link (species : NamedResource) (evolves_to : list EvolutionChainLink).

Record EvolutionChainData := {
  chain : EvolutionChainLink;
}.

Record TypeEffectivenessEntry := {
  te_name : string;
  te_multiplier : number;
}.

Record NavLinkInfo := {
  nav_id : Z;
  nav_name : string;
  nav_displayName : string;
}.

Record CachedPokemonData := {
  data : PokemonData;
  timestamp : Z;
}.

Definition CACHE_EXPIRY_MS : Z := 5 * 60 * 1000.
Definition MAX_POKEMON_ID_FOR_NAV : Z := 1025.

(** *** The effectiveness table, lines 154-173 *)

(** [effectivenessMap[t.name.toLowerCase()] *= c] *)
Definition scale (c : number) (m : gmap string number) (t : NamedResource)
  : gmap string number :=
  let k := toLowerCase (nr_name t) in
  <[k := mul (to_number (m !! k)) c]> m.

(** The callback of [typesData.forEach], lines 157-161. *)
Definition applyTypeDetail (m : gmap string number) (typeDetail : TypeDetail)
  : gmap string number :=
  let r := damage_relations typeDetail in
  let m := foldl (scale (Num 2)) m (double_damage_from r) in
  let m := foldl (scale (Num (1 # 2))) m (half_damage_from r) in
  foldl (scale (Num 0)) m (no_damage_from r).

(** Lines 154-155. *)
Definition initialEffectivenessMap : gmap string number :=
  foldl (fun m pt => <[toLowerCase (td_name pt) := Num 1]> m) ∅ POKEMON_TYPES.

(** Lines 154-161: the map before the ability is looked at. *)
Definition effectivenessMap (typesData : list TypeDetail) : gmap string number :=
  foldl applyTypeDetail initialEffectivenessMap typesData.

(** Line 163. *)
Definition hasLevitate (abilities : list AbilityInfo) : bool :=
  existsb (fun a => String.eqb (toLowerCase (nr_name (ability a))) "levitate")
          abilities.

(** Lines 164-168: the map after the override and the value given to
    [setAbilityEffectOnGround]. *)
Definition overrideGround (abilities : list AbilityInfo) (m : gmap string number)
  : gmap string number * option string :=
  if (hasLevitate abilities && nonzero (to_number (m !! "ground")))%bool
  then (<["ground" := Num 0]> m, Some "Immune to Ground due to Levitate.")
  else (m, None).

(** [Array.prototype.sort] with the comparator
    [(a, b) => b.multiplier - a.multiplier]: a stable sort, under which
    [x] goes behind [y] exactly when the comparator is positive. *)
Fixpoint insertEntry (x : TypeEffectivenessEntry) (l : list TypeEffectivenessEntry)
  : list TypeEffectivenessEntry :=
  match l with
  | [] => [x]
  | y :: l' =>
      if lt (te_multiplier x) (te_multiplier y) then y :: insertEntry x l'
      else x :: l
  end.

Definition sortDescending (l : list TypeEffectivenessEntry)
  : list TypeEffectivenessEntry :=
  foldr insertEntry [] l.

(** Lines 170-173. *)
Definition sortedEffectiveness (m : gmap string number) : list TypeEffectivenessEntry :=
  sortDescending
    ((fun type =>
        {| te_name := td_name type;
           te_multiplier := nullish (m !! toLowerCase (td_name type)) (Num 1) |})
       <$> POKEMON_TYPES).

(** Lines 154-173 in one: the table given to [setTypeEffectiveness] and
    the annotation given to [setAbilityEffectOnGround] ([None] when the
    cell is left at the [null] of line 164). *)
Definition computeEffectiveness (abilities : list AbilityInfo)
    (typesData : list TypeDetail)
  : list TypeEffectivenessEntry * option string :=
  let '(m, note) := overrideGround abilities (effectivenessMap typesData) in
  (sortedEffectiveness m, note).

(** Lines 138-146: does the walk down the first branches meet a link
    with more than one continuation? *)
Fixpoint branches (link : EvolutionChainLink) : bool :=
  match link with
  | Link _ next =>
      match next with
      | [] => false
      | [first] => branches first
      | _ :: _ :: _ => true
      end
  end.

(** *** The cache, lines 36-42 and 72-108 *)

(** How the synchronous head of [fetchPokemonDataByNameOrId] (lines
    73-82) ends: with the cached record, with [null] because a preload
    found an expired entry, or by going on to the request. *)
Inductive Lookup :=
| Fresh (d : PokemonData)
| Skipped
| Absent.

Definition lookupCache (cache : gmap string CachedPokemonData) (now : Z)
    (identifier : string) (isPreload : bool) : Lookup :=
  let cacheKey := toLowerCase identifier in
  match cache !! cacheKey with
  | Some cachedEntry =>
      if (now - timestamp cachedEntry <? CACHE_EXPIRY_MS)%Z
      then Fresh (data cachedEntry)
      else if isPreload then Skipped else Absent
  | None => Absent
  end.

(** The part of [fetchPokemonDataByNameOrId] that runs once the request
    is answered (lines 89-107): the returned value and the cache. *)
Definition storeResponse (cache : gmap string CachedPokemonData) (now : Z)
    (cacheKey : string) (res : Fetched PokemonData)
  : option PokemonData * gmap string CachedPokemonData :=
  match res with
  | Rejected _ => (None, cache)
  | Responded ok _ body =>
      if negb ok then (None, cache)
      else match body with
           | inl _ => (None, cache)
           | inr fetchedPokemonData =>
               (Some fetchedPokemonData,
                <[cacheKey := {| data := fetchedPokemonData; timestamp := now |}]> cache)
           end
  end.

(** *** The component state and the run *)

(** The [useState] cells of [PokemonDetailPage]. *)
Record PageState := {
  pokemonData : option PokemonData;
  animatedStats : list StatInfo;
  evolutionChain : option EvolutionChainLink;
  hasMultipleEvoPaths : bool;
  typeEffectiveness : option (list TypeEffectivenessEntry);
  isLoading : bool;
  error : option string;
  prevPokemonLink : option NavLinkInfo;
  nextPokemonLink : option NavLinkInfo;
  abilityEffectOnGround : option string;
}.

Definition initialPage : PageState := {|
  pokemonData := None; animatedStats := []; evolutionChain := None;
  hasMultipleEvoPaths := false; typeEffectiveness := None;
  isLoading := true; error := None; prevPokemonLink := None;
  nextPokemonLink := None; abilityEffectOnGround := None |}.

Definition setPokemonData (v : option PokemonData) (s : PageState) : PageState := {|
    pokemonData := v; animatedStats := animatedStats s; evolutionChain
    := evolutionChain s; hasMultipleEvoPaths := hasMultipleEvoPaths s;
    typeEffectiveness := typeEffectiveness s; isLoading := isLoading s;
    error := error s; prevPokemonLink := prevPokemonLink s;
    nextPokemonLink := nextPokemonLink s; abilityEffectOnGround :=
    abilityEffectOnGround s |}.

Definition setAnimatedStats (v : list StatInfo) (s : PageState) : PageState := {|
    pokemonData := pokemonData s; animatedStats := v; evolutionChain :=
    evolutionChain s; hasMultipleEvoPaths := hasMultipleEvoPaths s;
    typeEffectiveness := typeEffectiveness s; isLoading := isLoading s;
    error := error s; prevPokemonLink := prevPokemonLink s;
    nextPokemonLink := nextPokemonLink s; abilityEffectOnGround :=
    abilityEffectOnGround s |}.

Definition setEvolutionChain (v : option EvolutionChainLink) (s : PageState) : PageState := {|
    pokemonData := pokemonData s; animatedStats := animatedStats s;
    evolutionChain := v; hasMultipleEvoPaths := hasMultipleEvoPaths s;
    typeEffectiveness := typeEffectiveness s; isLoading := isLoading s;
    error := error s; prevPokemonLink := prevPokemonLink s;
    nextPokemonLink := nextPokemonLink s; abilityEffectOnGround :=
    abilityEffectOnGround s |}.

Definition setHasMultipleEvoPaths (v : bool) (s : PageState) : PageState := {|
    pokemonData := pokemonData s; animatedStats := animatedStats s;
    evolutionChain := evolutionChain s; hasMultipleEvoPaths := v;
    typeEffectiveness := typeEffectiveness s; isLoading := isLoading s;
    error := error s; prevPokemonLink := prevPokemonLink s;
    nextPokemonLink := nextPokemonLink s; abilityEffectOnGround :=
    abilityEffectOnGround s |}.

Definition setTypeEffectiveness (v : option (list TypeEffectivenessEntry)) (s : PageState) : PageState := {|
    pokemonData := pokemonData s; animatedStats := animatedStats s;
    evolutionChain := evolutionChain s; hasMultipleEvoPaths :=
    hasMultipleEvoPaths s; typeEffectiveness := v; isLoading :=
    isLoading s; error := error s; prevPokemonLink := prevPokemonLink s;
    nextPokemonLink := nextPokemonLink s; abilityEffectOnGround :=
    abilityEffectOnGround s |}.

Definition setIsLoading (v : bool) (s : PageState) : PageState := {|
    pokemonData := pokemonData s; animatedStats := animatedStats s;
    evolutionChain := evolutionChain s; hasMultipleEvoPaths :=
    hasMultipleEvoPaths s; typeEffectiveness := typeEffectiveness s;
    isLoading := v; error := error s; prevPokemonLink := prevPokemonLink
    s; nextPokemonLink := nextPokemonLink s; abilityEffectOnGround :=
    abilityEffectOnGround s |}.

Definition setError (v : option string) (s : PageState) : PageState := {|
    pokemonData := pokemonData s; animatedStats := animatedStats s;
    evolutionChain := evolutionChain s; hasMultipleEvoPaths :=
    hasMultipleEvoPaths s; typeEffectiveness := typeEffectiveness s;
    isLoading := isLoading s; error := v; prevPokemonLink :=
    prevPokemonLink s; nextPokemonLink := nextPokemonLink s;
    abilityEffectOnGround := abilityEffectOnGround s |}.

Definition setPrevPokemonLink (v : option NavLinkInfo) (s : PageState) : PageState := {|
    pokemonData := pokemonData s; animatedStats := animatedStats s;
    evolutionChain := evolutionChain s; hasMultipleEvoPaths :=
    hasMultipleEvoPaths s; typeEffectiveness := typeEffectiveness s;
    isLoading := isLoading s; error := error s; prevPokemonLink := v;
    nextPokemonLink := nextPokemonLink s; abilityEffectOnGround :=
    abilityEffectOnGround s |}.

Definition setNextPokemonLink (v : option NavLinkInfo) (s : PageState) : PageState := {|
    pokemonData := pokemonData s; animatedStats := animatedStats s;
    evolutionChain := evolutionChain s; hasMultipleEvoPaths :=
    hasMultipleEvoPaths s; typeEffectiveness := typeEffectiveness s;
    isLoading := isLoading s; error := error s; prevPokemonLink :=
    prevPokemonLink s; nextPokemonLink := v; abilityEffectOnGround :=
    abilityEffectOnGround s |}.

Definition setAbilityEffectOnGround (v : option string) (s : PageState) : PageState := {|
    pokemonData := pokemonData s; animatedStats := animatedStats s;
    evolutionChain := evolutionChain s; hasMultipleEvoPaths :=
    hasMultipleEvoPaths s; typeEffectiveness := typeEffectiveness s;
    isLoading := isLoading s; error := error s; prevPokemonLink :=
    prevPokemonLink s; nextPokemonLink := nextPokemonLink s;
    abilityEffectOnGround := v |}.

(** A request sent to the network, by the place that sends it:
    [fetchPokemonDataByNameOrId] (line 88, with its [isPreload] flag),
    [fetchPokemonNavInfoById] (line 65), or a [fetch] of a URL taken from
    a record (lines 128, 133 and 150). *)
Inductive Request :=
| GetPokemon (cacheKey : string) (isPreload : bool)
| GetNavInfo (id : Z)
| GetUrl (url : string).

(** Everything the functions of the page touch: the component state,
    the module-level [pokemonDataCache], [preloadInitiatedRef], the
    requests sent so far in the order they were sent, and the preloads
    that were started but not awaited, each with its cache key and the
    position of its request. *)
Record Sys := {
  page : PageState;
  pokemonDataCache : gmap string CachedPokemonData;
  preloadInitiated : bool;
  requests : list Request;
  inFlight : list (string * nat);
}.

Definition onPage (f : PageState -> PageState) (s : Sys) : Sys := {|
  page := f (page s); pokemonDataCache := pokemonDataCache s;
  preloadInitiated := preloadInitiated s; requests := requests s;
  inFlight := inFlight s |}.

Definition setCache (c : gmap string CachedPokemonData) (s : Sys) : Sys := {|
  page := page s; pokemonDataCache := c;
  preloadInitiated := preloadInitiated s; requests := requests s;
  inFlight := inFlight s |}.

Definition setPreloadInitiated (b : bool) (s : Sys) : Sys := {|
  page := page s; pokemonDataCache := pokemonDataCache s;
  preloadInitiated := b; requests := requests s; inFlight := inFlight s |}.

Definition setInFlight (l : list (string * nat)) (s : Sys) : Sys := {|
  page := page s; pokemonDataCache := pokemonDataCache s;
  preloadInitiated := preloadInitiated s; requests := requests s;
  inFlight := l |}.

(** What a run meets.  The answer to a request depends on the position
    of the request in the run and on the resource asked for: the last
    path segment for [/pokemon/...], the URL otherwise.  [clock n] is
    the value of [Date.now()] once [n] requests have been sent. *)
Record World := {
  pokemon : nat -> string -> Fetched PokemonData;
  species : nat -> string -> Fetched PokemonSpeciesData;
  evolution : nat -> string -> Fetched EvolutionChainData;
  typeDetail : nat -> string -> Fetched TypeDetail;
  clock : nat -> Z;
}.

(** Sending a request: it is appended to the record of the run; the
    result is its position. *)
Definition send (r : Request) : M Sys nat :=
  fun s =>
    (Return (length (requests s)),
     {| page := page s; pokemonDataCache := pokemonDataCache s;
        preloadInitiated := preloadInitiated s;
        requests := requests s ++ [r]; inFlight := inFlight s |}).

(** [fetchPokemonNavInfoById], lines 62-70 *)
Definition fetchPokemonNavInfoById (w : World) (id : Z) : M Sys (option NavLinkInfo) :=
  if ((id <=? 0)%Z || (id >? MAX_POKEMON_ID_FOR_NAV)%Z)%bool then ret None
  else
    do n <- send (GetNavInfo id);
    match pokemon w n (pretty id) with
    | Rejected _ => ret None
    | Responded ok _ body =>
        if negb ok then ret None
        else match body with
             | inl _ => ret None
             | inr d =>
                 ret (Some {| nav_id := pd_id d; nav_name := pd_name d;
                              nav_displayName := replace_hyphen (pd_name d) |})
             end
    end.

(** [fetchPokemonDataByNameOrId] when the caller awaits it (line 197):
    the head, the request and the continuation run in one go. *)
Definition fetchPokemonDataByNameOrId (w : World) (identifier : string)
    (isPreload : bool) : M Sys (option PokemonData) :=
  do s <- get;
  match lookupCache (pokemonDataCache s) (clock w (length (requests s)))
                    identifier isPreload with
  | Fresh d => ret (Some d)
  | Skipped => ret None
  | Absent =>
      let cacheKey := toLowerCase identifier in
      do n <- send (GetPokemon cacheKey isPreload);
      let '(result, cache') :=
        storeResponse (pokemonDataCache s) (clock w (S n)) cacheKey
                      (pokemon w n cacheKey) in
      exec modify (setCache cache');
      ret result
  end.

(** [fetchPokemonDataByNameOrId(..., true)] when the caller does not
    await it (lines 229 and 238): the head runs at once and may send the
    request; the continuation is left in flight. *)
Definition startPreload (w : World) (identifier : string) : M Sys unit :=
  do s <- get;
  match lookupCache (pokemonDataCache s) (clock w (length (requests s)))
                    identifier true with
  | Fresh _ => ret tt
  | Skipped => ret tt
  | Absent =>
      let cacheKey := toLowerCase identifier in
      do n <- send (GetPokemon cacheKey true);
      modify (fun s' => setInFlight (inFlight s' ++ [(cacheKey, n)]) s')
  end.

(** The continuation of a preload in flight, run when its request is
    answered, at clock value [now]: it writes the cache as line 95 does
    and its result goes nowhere.  Preloads that are not in flight have no
    continuation. *)
Definition settlePreload (w : World) (now : Z) (p : string * nat) (s : Sys) : Sys :=
  if bool_decide (p ∈ inFlight s) then
    let '(cacheKey, n) := p in
    let '(_, cache') :=
      storeResponse (pokemonDataCache s) now cacheKey (pokemon w n cacheKey) in
    setCache cache'
      (setInFlight (filter (fun q => q <> p) (inFlight s)) s)
  else s.

(** [fetch(typeInfo.type.url).then(res => res.json())], line 150: the
    [ok] flag is not looked at. *)
Definition fetchTypeJson (w : World) (url : string) : M Sys TypeDetail :=
  do n <- send (GetUrl url);
  match typeDetail w n url with
  | Rejected e => throw e
  | Responded _ _ (inl e) => throw e
  | Responded _ _ (inr d) => ret d
  end.

(** Lines 132-147. *)
Definition loadEvolution (w : World) (baseData : PokemonData)
    (fetchedSpeciesData : PokemonSpeciesData) : M Sys unit :=
  let url := evolution_chain_url fetchedSpeciesData in
  if truthy_str (Some url) then
    do n <- send (GetUrl url);
    match evolution w n url with
    | Rejected e => throw e
    | Responded ok _ body =>
        if negb ok
        then throw ("Evolution chain for " ++ quoted (pd_name baseData) ++ " not found")
        else match body with
             | inl e => throw e
             | inr fetchedEvolutionData =>
                 exec modify (onPage (setEvolutionChain (Some (chain fetchedEvolutionData))));
                 exec modify (onPage (setHasMultipleEvoPaths false));
                 if branches (chain fetchedEvolutionData)
                 then modify (onPage (setHasMultipleEvoPaths true))
                 else ret tt
             end
    end
  else ret tt.

(** [fetchPageSpecificDetails], lines 126-186 *)
Definition fetchPageSpecificDetails (w : World) (baseData : PokemonData) : M Sys unit :=
  try_catch
    (do n <- send (GetUrl (pd_species_url baseData));
     match species w n (pd_species_url baseData) with
     | Rejected e => throw e
     | Responded ok _ body =>
         if negb ok
         then throw ("Species data for " ++ quoted (pd_name baseData) ++ " not found")
         else match body with
              | inl e => throw e
              | inr fetchedSpeciesData =>
                  exec loadEvolution w baseData fetchedSpeciesData;
                  do typesData <-
                    all (fun typeInfo => fetchTypeJson w (nr_url (ts_type typeInfo)))
                        (pd_types baseData);
                  let '(table, note) :=
                    computeEffectiveness (pd_abilities baseData) typesData in
                  exec modify (onPage (setAbilityEffectOnGround None));
                  exec (match note with
                        | Some text => modify (onPage (setAbilityEffectOnGround (Some text)))
                        | None => ret tt
                        end);
                  modify (onPage (setTypeEffectiveness (Some table)))
              end
     end)
    (fun message =>
       modify (onPage (setError (Some ("Failed to load some details: " ++ message))))).

(** Lines 203-207. *)
Definition initialStats (stats : list StatInfo) : list StatInfo :=
  (fun stat =>
     {| base_stat := base_stat stat; stat_name := stat_name stat;
        current_width := Some "0%"; current_color := Some "#EF4444" |})
    <$> stats.

(** Lines 224-232 and 233-241: one neighbour. *)
Definition linkNeighbour (w : World) (id : Z)
    (setLink : option NavLinkInfo -> PageState -> PageState) : M Sys unit :=
  do info <- fetchPokemonNavInfoById w id;
  match info with
  | Some i =>
      exec modify (onPage (setLink (Some i)));
      do s <- get;
      if negb (bool_decide (is_Some (pokemonDataCache s !! toLowerCase (nav_name i))))
      then startPreload w (toLowerCase (nav_name i))
      else ret tt
  | None => ret tt
  end.

(** Lines 221-242: what follows [fetchPageSpecificDetails]. *)
Definition linkNeighbours (w : World) (fetchedPokemonData : PokemonData) : M Sys unit :=
  exec modify (onPage (setPrevPokemonLink None));
  exec modify (onPage (setNextPokemonLink None));
  exec (if (pd_id fetchedPokemonData >? 1)%Z
        then linkNeighbour w (pd_id fetchedPokemonData - 1) setPrevPokemonLink
        else ret tt);
  exec (if (pd_id fetchedPokemonData <? MAX_POKEMON_ID_FOR_NAV)%Z
        then linkNeighbour w (pd_id fetchedPokemonData + 1) setNextPokemonLink
        else ret tt);
  modify (setPreloadInitiated true).

(** [loadCurrentPokemonAndPreloadNeighbors], lines 189-248.  The timer
    callback of lines 213-219 runs later and only sets [animatedStats]. *)
Definition loadCurrentPokemonAndPreloadNeighbors (w : World)
    (currentPokemonIdentifier : string) : M Sys unit :=
  if negb (truthy_str (Some currentPokemonIdentifier)) then ret tt
  else
    exec modify (onPage (setIsLoading true));
    exec modify (onPage (setError None));
    exec modify (onPage (setAnimatedStats []));
    exec modify (setPreloadInitiated false);
    do fetched <-
      fetchPokemonDataByNameOrId w (toLowerCase currentPokemonIdentifier) false;
    exec (match fetched with
          | Some fetchedPokemonData =>
              exec modify (onPage (setPokemonData (Some fetchedPokemonData)));
              exec modify (onPage (setAnimatedStats (initialStats (pd_stats fetchedPokemonData))));
              exec fetchPageSpecificDetails w fetchedPokemonData;
              linkNeighbours w fetchedPokemonData
          | None =>
              modify (onPage (setError
                (Some ("Pokémon " ++ quoted currentPokemonIdentifier ++ " not found or failed to load."))))
          end);
    modify (onPage (setIsLoading false)).

End Detail.

(** ** The search index ([src/contexts/PokedexContext.tsx]) *)

Module Context.
Import Js JsText Eff Eff.Notations Api.

Record MinimalPokemonInfo := {
  mp_id : Z;
  mp_name : string;
  mp_displayName : string;
}.

Definition TOTAL_POKEMON_FOR_SEARCH : Z := 1025.
Definition CACHE_KEY_MINIMAL_LIST : string := "pokedex_minimal_pokemon_list_v1".
Definition CACHE_DURATION_MS : Z := 24 * 60 * 60 * 1000.

(** An item of [localStorage] written by line 80.  The item is kept as
    the record it serialises: [JSON.parse] gives back what
    [JSON.stringify] was given. *)
Record StoredList := {
  sl_timestamp : Z;
  sl_data : list MinimalPokemonInfo;
}.

(** The state of [PokedexProvider], [localStorage], and the number of
    requests sent so far. *)
Record Sys := {
  minimalPokemonList : list MinimalPokemonInfo;
  isLoadingMinimalList : bool;
  searchError : option string;
  localStorage : gmap string StoredList;
  sent : nat;
}.

Definition setMinimalPokemonList (v : list MinimalPokemonInfo) (s : Sys) : Sys := {|
  minimalPokemonList := v; isLoadingMinimalList := isLoadingMinimalList s;
  searchError := searchError s; localStorage := localStorage s; sent := sent s |}.

Definition setIsLoadingMinimalList (v : bool) (s : Sys) : Sys := {|
  minimalPokemonList := minimalPokemonList s; isLoadingMinimalList := v;
  searchError := searchError s; localStorage := localStorage s; sent := sent s |}.

Definition setSearchError (v : option string) (s : Sys) : Sys := {|
  minimalPokemonList := minimalPokemonList s;
  isLoadingMinimalList := isLoadingMinimalList s;
  searchError := v; localStorage := localStorage s; sent := sent s |}.

Definition setLocalStorage (v : gmap string StoredList) (s : Sys) : Sys := {|
  minimalPokemonList := minimalPokemonList s;
  isLoadingMinimalList := isLoadingMinimalList s;
  searchError := searchError s; localStorage := v; sent := sent s |}.

Definition countRequest (s : Sys) : Sys := {|
  minimalPokemonList := minimalPokemonList s;
  isLoadingMinimalList := isLoadingMinimalList s;
  searchError := searchError s; localStorage := localStorage s;
  sent := S (sent s) |}.

(** The answer to the list request sent as the [n]-th one (its body is
    the [results] array) and [Date.now()] once [n] requests were sent. *)
Record World := {
  listing : nat -> Fetched (list NamedResource);
  clock : nat -> Z;
}.

(** [s.split('/')] *)
Fixpoint splitSlash (acc : string) (s : string) : list string :=
  match s with
  | EmptyString => [acc]
  | String c r =>
      if Ascii.eqb c "/"%char then acc :: splitSlash EmptyString r
      else splitSlash (acc ++ String c EmptyString) r
  end.

Definition digit (c : Ascii.ascii) : option Z :=
  let n := Ascii.nat_of_ascii c in
  if ((48 <=? n)%nat && (n <=? 57)%nat)%bool then Some (Z.of_nat (n - 48)) else None.

Fixpoint digits (acc : option Z) (s : string) : option Z :=
  match s with
  | EmptyString => acc
  | String c r =>
      match digit c with
      | Some d => digits (Some (10 * default 0%Z acc + d)%Z) r
      | None => acc
      end
  end.

(** The white space that [parseInt] skips is the white space that
    [trim] takes off. *)
Definition skipWhitespace (s : string) : string := strip false s.

(** [parseInt(s, 10)] where [s] may be [undefined]; [None] is [NaN].
    The result is the double nearest to the integer that the digits
    spell, which is that integer up to 2^53. *)
Definition parseInt (s : option string) : option Z :=
  match s with
  | None => None
  | Some s =>
      nearest <$>
        match skipWhitespace s with
        | String c r =>
            if Ascii.eqb c "-"%char then Z.opp <$> digits None r
            else if Ascii.eqb c "+"%char then digits None r
            else digits None (String c r)
        | EmptyString => None
        end
  end.

Definition upper_ascii (c : Ascii.ascii) : Ascii.ascii :=
  let n := Ascii.nat_of_ascii c in
  if ((97 <=? n)%nat && (n <=? 122)%nat)%bool
  then Ascii.ascii_of_nat (n - 32) else c.

(** [name.charAt(0).toUpperCase() + name.slice(1).replace('-', ' ')] *)
Definition displayNameOf (name : string) : string :=
  match name with
  | EmptyString => EmptyString
  | String c r => String (upper_ascii c) (replace_hyphen r)
  end.

(** The callback of [data.results.map], lines 60-73. *)
Definition toMinimal (index : nat) (p : NamedResource) : MinimalPokemonInfo :=
  let urlParts := splitSlash EmptyString (nr_url p) in
  let idFromUrl :=
    if (2 <=? length urlParts)%nat
    then parseInt (urlParts !! (length urlParts - 2)%nat)
    else parseInt None in
  {| mp_id := default (Z.of_nat index + 1)%Z idFromUrl;
     mp_name := nr_name p;
     mp_displayName := displayNameOf (nr_name p) |}.

(** [list.sort((a, b) => a.id - b.id)], line 77: a stable sort. *)
Fixpoint insertById (x : MinimalPokemonInfo) (l : list MinimalPokemonInfo)
  : list MinimalPokemonInfo :=
  match l with
  | [] => [x]
  | y :: l' =>
      if (mp_id y <? mp_id x)%Z then y :: insertById x l' else x :: l
  end.

Definition sortById (l : list MinimalPokemonInfo) : list MinimalPokemonInfo :=
  foldr insertById [] l.

(** Lines 48-88: the [try] block. *)
Definition refetch (w : World) : M Sys unit :=
  do s <- get;
  exec modify countRequest;
  match listing w (sent s) with
  | Rejected e => throw e
  | Responded ok _ body =>
      if negb ok then throw "Failed to fetch minimal Pokémon list for search."
      else match body with
           | inl e => throw e
           | inr results =>
               let listWithDetails := sortById (imap toMinimal results) in
               exec modify (setMinimalPokemonList listWithDetails);
               modify (fun s' =>
                 setLocalStorage
                   (<[CACHE_KEY_MINIMAL_LIST :=
                        {| sl_timestamp := clock w (sent s');
                           sl_data := listWithDetails |}]> (localStorage s'))
                   s')
           end
  end.

(** [fetchMinimalPokemonList], lines 29-92 *)
Definition fetchMinimalPokemonList (w : World) (s : Sys) : Sys :=
  let s := setIsLoadingMinimalList true s in
  let s := setSearchError None s in
  let fetchAgain (s : Sys) : Sys :=
    let '(_, s') :=
      try_catch (refetch w) (fun message => modify (setSearchError (Some message))) s in
    setIsLoadingMinimalList false s' in
  match localStorage s !! CACHE_KEY_MINIMAL_LIST with
  | Some cachedData =>
      if (clock w (sent s) - sl_timestamp cachedData <? CACHE_DURATION_MS)%Z then
        setIsLoadingMinimalList false
          (setMinimalPokemonList (sl_data cachedData) s)
      else
        fetchAgain (setLocalStorage (delete CACHE_KEY_MINIMAL_LIST (localStorage s)) s)
  | None => fetchAgain s
  end.

End Context.


(** * Vocabulary of the properties *)

(** ** The quiz *)

Module Quiz.
Import Js Registry Guesser.

(** The names of the registry: the keys of the quiz's table and the
    names a learner can select. *)
Definition typeNames : list string := td_name <$> POKEMON_TYPES.

Definition finite (v : number) : bool :=
  match v with
  | Num _ => true
  | NaN => false
  end.

(** An 18-entry effectiveness table: a number for each type of the
    registry and for nothing else. *)
Definition effectivenessTable (m : gmap string number) : Prop :=
  (dom m = list_to_set typeNames) /\ map_Forall (fun _ v => finite v = true) m.

(** A selection set of attacking types. *)
Definition selection (sel : gset string) : Prop :=
  sel ⊆ list_to_set typeNames.

(** The words of the scoring rules, on a table [m] and a selection
    [sel]. *)
Definition superEffective (m : gmap string number) (T : TypeData) : Prop :=
  exists q, m !! td_name T = Some (Num q) /\ (2 <= q)%Q.

Definition belowThreshold (m : gmap string number) (T : TypeData) : Prop :=
  exists q, m !! td_name T = Some (Num q) /\ (q < 2)%Q.

Definition incorrectSelection (m : gmap string number) (sel : gset string)
    (T : TypeData) : Prop :=
  td_name T ∈ sel /\ belowThreshold m T.

Definition missedType (m : gmap string number) (sel : gset string)
    (T : TypeData) : Prop :=
  (td_name T ∉ sel) /\ superEffective m T.

(** What the loop of [handleCheckAnswers] computes for one type, read
    off [checkType]. *)
Definition super (m : gmap string number) (T : TypeData) : bool :=
  ge (or_else (m !! td_name T) (Num 1)) (Num 2).

Definition picked (sel : gset string) (T : TypeData) : bool :=
  bool_decide (td_name T ∈ sel).

Definition labelOf (m : gmap string number) (sel : gset string) (T : TypeData)
  : TypeCheckResult :=
  if picked sel T
  then (if super m T then CORRECT else INCORRECT)
  else (if super m T then MISSED else NONE).

End Quiz.

(** ** Records of the type chart and creatures used as concrete inputs *)

Module Samples.
Import Js Registry Api.

Definition typeRef (name : string) : NamedResource :=
  {| nr_name := name; nr_url := "https://pokeapi.co/api/v2/type/" ++ name |}.

Definition relations (double half no : list string) : TypeDetail :=
  {| damage_relations :=
       {| double_damage_from := typeRef <$> double;
          half_damage_from := typeRef <$> half;
          no_damage_from := typeRef <$> no |} |}.

Definition grass : TypeDetail :=
  relations ["flying"; "poison"; "bug"; "fire"; "ice"]
            ["ground"; "water"; "grass"; "electric"] [].

Definition poison : TypeDetail :=
  relations ["ground"; "psychic"]
            ["fighting"; "poison"; "bug"; "grass"; "fairy"] [].

Definition flying : TypeDetail :=
  relations ["rock"; "electric"; "ice"] ["fighting"; "bug"; "grass"] ["ground"].

Definition ground : TypeDetail :=
  relations ["water"; "grass"; "ice"] ["poison"; "rock"] ["electric"].

Definition normal : TypeDetail :=
  relations ["fighting"] [] ["ghost"].

Definition levitate : Detail.AbilityInfo :=
  {| Detail.ability :=
       {| nr_name := "levitate"; nr_url := "https://pokeapi.co/api/v2/ability/26/" |};
     Detail.is_hidden := false |}.

Definition slotOf (n : Z) (name : string) : TypeSlot :=
  {| ts_slot := n; ts_type := typeRef name |}.

Definition Fire : TypeData :=
  {| td_id := "type-fire"; td_name := "Fire"; td_color := "#EE8130";
     td_textColor := Some "#FFFFFF" |}.

Definition Water : TypeData :=
  {| td_id := "type-water"; td_name := "Water"; td_color := "#6390F0";
     td_textColor := Some "#FFFFFF" |}.

Definition Ground : TypeData :=
  {| td_id := "type-ground"; td_name := "Ground"; td_color := "#E2BF65";
     td_textColor := Some "#000000" |}.

(** The quiz on a grass and poison creature, with the four super
    effective types selected. *)
Definition grassPoisonTable : gmap string number :=
  Guesser.calculatedEffectivenessMap [grass; poison].

Definition grassPoisonAnswer : gset string :=
  {[ "Fire" ]} ∪ {[ "Ice" ]} ∪ {[ "Flying" ]} ∪ {[ "Psychic" ]}.

Definition quizState (m : gmap string number) (sel : gset string) : Guesser.State :=
  Guesser.setSelectedTypes sel
    (Guesser.setCorrectEffectiveness m Guesser.initialState).

End Samples.

(** ** The type chart *)

Module Chart.
Import Js Registry Api.
Local Open Scope Q_scope.

(** The attacking type is in a list of a relation record: the list
    holds the type's name as the remote API spells it, in lower case. *)
Definition listed (T : TypeData) (l : list NamedResource) : bool :=
  bool_decide (toLowerCase (td_name T) ∈ nr_name <$> l).

(** The per-relation factor of an attacking type against one defending
    type: 2 if the attacking type is in [double_damage_from], 0.5 if in
    [half_damage_from], 0 if in [no_damage_from], else 1. *)
Definition relationFactor (d : TypeDetail) (T : TypeData) : Q :=
  if listed T (double_damage_from (damage_relations d)) then 2
  else if listed T (half_damage_from (damage_relations d)) then 1 # 2
  else if listed T (no_damage_from (damage_relations d)) then 0
  else 1.

(** The product of the factors over the defending types. *)
Definition combinedFactor (ds : list TypeDetail) (T : TypeData) : Q :=
  foldr (fun d acc => relationFactor d T * acc) 1 ds.




End Chart.

(** ** Postconditions of effectful code *)

Module Post.
Import Eff.

(** [wp m Q s]: run from [s], [m] ends with a result and a state that
    satisfy [Q]. *)
Definition wp {S A} (m : M S A) (Q : Result A -> S -> Prop) (s : S) : Prop :=
  Q (fst (m s)) (snd (m s)).

(** The postcondition that [bind] and [try_catch] hand to their first
    part. *)
Definition andThen {S A B} (k : A -> M S B) (Q : Result B -> S -> Prop)
  : Result A -> S -> Prop :=
  fun r s =>
    match r with
    | Return a => wp (k a) Q s
    | Throw e => Q (Throw e) s
    end.

Definition orElse {S A} (h : string -> M S A) (Q : Result A -> S -> Prop)
  : Result A -> S -> Prop :=
  fun r s =>
    match r with
    | Return a => Q (Return a) s
    | Throw e => wp (h e) Q s
    end.

End Post.

(** ** What the detail page leaves untouched *)

Module Frame.
Import Detail.

(** The cells of the page other than the two that describe the
    evolution chain. *)
Definition sameCells (p p' : PageState) : Prop :=
  pokemonData p' = pokemonData p
  /\ animatedStats p' = animatedStats p
  /\ typeEffectiveness p' = typeEffectiveness p
  /\ isLoading p' = isLoading p
  /\ error p' = error p
  /\ prevPokemonLink p' = prevPokemonLink p
  /\ nextPokemonLink p' = nextPokemonLink p
  /\ abilityEffectOnGround p' = abilityEffectOnGround p.

(** From [s] to [s'] only requests for URLs were sent; the cache, the
    preloads in flight and the cells above are as they were. *)
Definition urlsOnly (s s' : Sys) : Prop :=
  pokemonDataCache s' = pokemonDataCache s
  /\ inFlight s' = inFlight s
  /\ preloadInitiated s' = preloadInitiated s
  /\ sameCells (page s) (page s')
  /\ exists urls, requests s' = (requests s ++ (GetUrl <$> urls))%list.

(** From [s] to [s'] the cache, the preloads in flight, the creature
    shown and its neighbour links are as they were, and only requests
    for URLs were sent. *)
Definition detailsOnly (s s' : Sys) : Prop :=
  pokemonDataCache s' = pokemonDataCache s
  /\ inFlight s' = inFlight s
  /\ preloadInitiated s' = preloadInitiated s
  /\ pokemonData (page s') = pokemonData (page s)
  /\ prevPokemonLink (page s') = prevPokemonLink (page s)
  /\ nextPokemonLink (page s') = nextPokemonLink (page s)
  /\ isLoading (page s') = isLoading (page s)
  /\ exists urls, requests s' = (requests s ++ (GetUrl <$> urls))%list.

(** [fetchPageSpecificDetails] failed: the error is set and the table
    is the one that was there before. *)
Definition detailsFailed (s s' : Sys) : Prop :=
  (exists e, error (page s') = Some ("Failed to load some details: " ++ e))
  /\ typeEffectiveness (page s') = typeEffectiveness (page s).

(** [fetchPageSpecificDetails] succeeded: the table and the annotation
    are those computed from the records of all defending types, each of
    which was the body of an answer. *)
Definition detailsLoaded (w : World) (baseData : PokemonData) (s s' : Sys) : Prop :=
  exists typesData,
    Forall2 (fun slot d => exists n ok status,
               typeDetail w n (Api.nr_url (Api.ts_type slot))
               = Js.Responded ok status (inr d))
            (pd_types baseData) typesData
    /\ typeEffectiveness (page s')
       = Some (fst (computeEffectiveness (pd_abilities baseData) typesData))
    /\ abilityEffectOnGround (page s')
       = snd (computeEffectiveness (pd_abilities baseData) typesData)
    /\ error (page s') = error (page s).

(** The position of the first request for a type record that
    [fetchPageSpecificDetails] sends when run from [s]: behind the
    request for the species and, where the species names an evolution
    chain, the request for the chain.  [None] when the species or the
    chain does not arrive; no type record is requested then. *)
Definition typesFrom (w : World) (baseData : PokemonData) (s : Sys) : option nat :=
  let n := length (requests s) in
  match species w n (pd_species_url baseData) with
  | Js.Responded true _ (inr fetchedSpeciesData) =>
      let url := evolution_chain_url fetchedSpeciesData in
      if Js.truthy_str (Some url) then
        match evolution w (S n) url with
        | Js.Responded true _ (inr _) => Some (S (S n))
        | _ => None
        end
      else Some (S n)
  | _ => None
  end.

(** [fetchPageSpecificDetails] succeeded: the type records were
    requested from position [k] on, one request per type of the creature
    in the order of its types, every one of these requests was answered
    with a record, and the table and the annotation are those computed
    from these records. *)
Definition detailsLoadedFrom (w : World) (baseData : PokemonData) (s s' : Sys) : Prop :=
  exists k typesData,
    typesFrom w baseData s = Some k
    /\ length typesData = length (pd_types baseData)
    /\ (forall i slot,
          pd_types baseData !! i = Some slot ->
          exists ok status d,
            typeDetail w (k + i) (Api.nr_url (Api.ts_type slot))
            = Js.Responded ok status (inr d)
            /\ typesData !! i = Some d)
    /\ typeEffectiveness (page s')
       = Some (fst (computeEffectiveness (pd_abilities baseData) typesData))
    /\ abilityEffectOnGround (page s')
       = snd (computeEffectiveness (pd_abilities baseData) typesData)
    /\ error (page s') = error (page s).

(** The cells of the page other than the two neighbour links. *)
Definition sameButLinks (p p' : PageState) : Prop :=
  pokemonData p' = pokemonData p
  /\ animatedStats p' = animatedStats p
  /\ evolutionChain p' = evolutionChain p
  /\ hasMultipleEvoPaths p' = hasMultipleEvoPaths p
  /\ typeEffectiveness p' = typeEffectiveness p
  /\ isLoading p' = isLoading p
  /\ error p' = error p
  /\ abilityEffectOnGround p' = abilityEffectOnGround p.

(** How an awaited [fetchPokemonDataByNameOrId] relates the states
    around it to its result, by the outcome of the cache lookup. *)
Definition lookedUp (w : World) (identifier : string) (isPreload : bool)
    (s s' : Sys) (result : option PokemonData) : Prop :=
  match lookupCache (pokemonDataCache s) (clock w (length (requests s)))
                    identifier isPreload with
  | Fresh d => result = Some d /\ s' = s
  | Skipped => result = None /\ s' = s
  | Absent =>
      requests s' = (requests s ++ [GetPokemon (Js.toLowerCase identifier) isPreload])%list
      /\ (result, pokemonDataCache s')
         = storeResponse (pokemonDataCache s) (clock w (S (length (requests s))))
             (Js.toLowerCase identifier)
             (pokemon w (length (requests s)) (Js.toLowerCase identifier))
  end.

(** The requests that linking the neighbour with number [id] may send,
    given the cache at that time: none; or, only for an [id] from 1 to
    the maximum navigation id, the request for its navigation record,
    followed or not by the preload of a key that the cache lacks. *)
Definition neighbourTrace (id : Z) (cache : gmap string CachedPokemonData)
    (evs : list Request) : Prop :=
  evs = []
  \/ ((1 <= id <= MAX_POKEMON_ID_FOR_NAV)%Z
      /\ (evs = [GetNavInfo id]
          \/ exists key, evs = [GetNavInfo id; GetPokemon key true]
                         /\ cache !! key = None)).

(** The requests that are sent for the neighbour with number [id] when
    [position] requests have been sent and the cache is [cache]: none
    unless [id] lies between 1 and the maximum navigation id; else the
    request for its navigation record and, when that request is answered
    with a record whose name has no entry in the cache, the preload of
    that name. *)
Definition neighbourRequests (w : World) (cache : gmap string CachedPokemonData)
    (position : nat) (id : Z) : list Request :=
  if ((1 <=? id) && (id <=? MAX_POKEMON_ID_FOR_NAV))%Z then
    GetNavInfo id ::
      match pokemon w position (pretty id) with
      | Js.Responded true _ (inr d) =>
          if bool_decide (cache !! Js.toLowerCase (pd_name d) = None)
          then [GetPokemon (Js.toLowerCase (pd_name d)) true]
          else []
      | _ => []
      end
  else [].

(** A page load from [s] to [s'] that obtained the record [d] of its
    creature after sending [first]: the record is in place, and the
    requests are [first], then the requests for the details, then those
    for the neighbour before [d] and those for the neighbour after it. *)
Definition pageLoaded (w : World) (s s' : Sys) (first : list Request)
    (d : PokemonData) : Prop :=
  pokemonData (page s') = Some d
  /\ exists urls,
       requests s'
       = (requests s ++ first ++ (GetUrl <$> urls)
          ++ neighbourRequests w (pokemonDataCache s')
               (length (requests s) + length first + length urls) (pd_id d - 1)
          ++ neighbourRequests w (pokemonDataCache s')
               (length (requests s) + length first + length urls
                + length (neighbourRequests w (pokemonDataCache s')
                            (length (requests s) + length first + length urls)
                            (pd_id d - 1)))
               (pd_id d + 1))%list.

(** What a page load for [identifier] from [s] comes to, by the
    outcome of the lookup of line 197.  A fresh entry is taken from the
    cache and no request is sent for it.  Otherwise the request for the
    record is the first that is sent; when it brings the record, the
    record is stored and the page loads; when it fails, nothing else is
    requested and the error names the creature. *)
Definition loadOutcome (w : World) (identifier : string) (s s' : Sys) : Prop :=
  let key := Js.toLowerCase identifier in
  let n := length (requests s) in
  match lookupCache (pokemonDataCache s) (clock w n) key false with
  | Fresh d =>
      pokemonDataCache s' = pokemonDataCache s /\ pageLoaded w s s' [] d
  | Skipped => False
  | Absent =>
      match storeResponse (pokemonDataCache s) (clock w (S n)) key (pokemon w n key) with
      | (Some d, cache') =>
          pokemonDataCache s' = cache'
          /\ pageLoaded w s s' [GetPokemon key false] d
      | (None, _) =>
          requests s' = (requests s ++ [GetPokemon key false])%list
          /\ pokemonDataCache s' = pokemonDataCache s
          /\ pokemonData (page s') = pokemonData (page s)
          /\ error (page s')
             = Some ("Pokémon " ++ Js.quoted identifier ++ " not found or failed to load.")
      end
  end.

End Frame.

(** ** Failed requests *)

Module Failure.
Import Js.

(** The record asked for did not arrive: the request was rejected, or
    the body of the response cannot be read as the record. *)
Definition unreadable {A} (r : Fetched A) : Prop :=
  match r with
  | Rejected _ => True
  | Responded _ _ body => exists e, body = inl e
  end.

(** The same, or a response whose status is not a success. *)
Definition unreachable {A} (r : Fetched A) : Prop :=
  match r with
  | Rejected _ => True
  | Responded ok _ body => ok = false \/ exists e, body = inl e
  end.


(** The message [startNewGame] shows once its attempts are used up
    (line 148). *)
Definition exhausted : string :=
  "Could not load a Pokémon after several attempts. Please try again later.".

(** The creature request of an iteration of [startNewGame] fails: a
    fetch error, a status that is not a success (not found among them),
    an unreadable body, or a creature without a sprite. *)
Definition noCreature (w : Guesser.World) (attempts : nat) : Prop :=
  match Guesser.fetchPokemon w attempts (Guesser.randomId w attempts) with
  | Rejected _ => True
  | Responded ok _ body =>
      ok = false
      \/ match body with
         | inl _ => True
         | inr data =>
             truthy_str
               (or_str (Guesser.official_artwork (Guesser.pk_sprites data))
                       (Guesser.front_default (Guesser.pk_sprites data))) = false
         end
  end.

End Failure.

(** ** Worlds used as concrete inputs *)

Module Worlds.
Import Js.

(** [Math.random()] returns 6369732069651088 / 2^60, a double whose
    product with 905 is less than 5 and rounds to 5; every request is
    rejected. *)
Definition nearFive : Guesser.World :=
  {| Guesser.random := fun _ => (6369732069651088 # 1152921504606846976)%Q;
     Guesser.fetchPokemon := fun _ _ => Rejected "Failed to fetch";
     Guesser.fetchType := fun _ _ => Rejected "Failed to fetch" |}.

(** Every request is rejected. *)
Definition offlineQuiz : Guesser.World :=
  {| Guesser.random := fun _ => 0%Q;
     Guesser.fetchPokemon := fun _ _ => Rejected "Failed to fetch";
     Guesser.fetchType := fun _ _ => Rejected "Failed to fetch" |}.

Definition bulbasaur : Guesser.Pokemon :=
  {| Guesser.pk_id := 1; Guesser.pk_name := "bulbasaur";
     Guesser.pk_sprites :=
       {| Guesser.front_default := Some "https://raw.githubusercontent.com/PokeAPI/sprites/master/sprites/pokemon/1.png";
          Guesser.official_artwork := None |};
     Guesser.pk_types := [Samples.slotOf 1 "grass"; Samples.slotOf 2 "poison"] |}.

(** The creature arrives, the record of its second type does not. *)
Definition poisonUnreachable : Guesser.World :=
  {| Guesser.random := fun _ => 0%Q;
     Guesser.fetchPokemon := fun _ _ => Responded true 200 (inr bulbasaur);
     Guesser.fetchType := fun _ url =>
       if String.eqb url "https://pokeapi.co/api/v2/type/grass"
       then Responded true 200 (inr Samples.grass)
       else Rejected "Failed to fetch" |}.


(** As [poisonUnreachable] in the first iteration of [startNewGame];
    from the second on every record arrives. *)
Definition flaky : Guesser.World :=
  {| Guesser.random := fun _ => 0%Q;
     Guesser.fetchPokemon := fun _ _ => Responded true 200 (inr bulbasaur);
     Guesser.fetchType := fun attempts url =>
       if String.eqb url "https://pokeapi.co/api/v2/type/grass"
       then Responded true 200 (inr Samples.grass)
       else if (attempts =? 0)%nat then Rejected "Failed to fetch"
       else Responded true 200 (inr Samples.poison) |}.

Definition electric : Api.TypeDetail :=
  Samples.relations ["ground"] ["flying"; "steel"; "electric"] [].

Definition creature (id : Z) (name : string) : Detail.PokemonData :=
  {| Detail.pd_id := id; Detail.pd_name := name;
     Detail.pd_types := [Samples.slotOf 1 "electric"];
     Detail.pd_abilities := [];
     Detail.pd_stats := [];
     Detail.pd_species_url := "https://pokeapi.co/api/v2/pokemon-species/" ++ pretty id;
     Detail.pd_height := 4; Detail.pd_weight := 60 |}.

Definition pikachu : Detail.PokemonData := creature 25 "pikachu".

(** Creatures 24 to 26 exist; every request is answered at once on a
    clock that advances a second per request, except that type records
    are served only when [types] is set. *)
Definition network (types : bool) : Detail.World :=
  {| Detail.pokemon := fun _ key =>
       if String.eqb key "pikachu" || String.eqb key "25"
       then Responded true 200 (inr pikachu)
       else if String.eqb key "arbok" || String.eqb key "24"
       then Responded true 200 (inr (creature 24 "arbok"))
       else if String.eqb key "raichu" || String.eqb key "26"
       then Responded true 200 (inr (creature 26 "raichu"))
       else Responded false 404 (inl "Unexpected token N in JSON");
     Detail.species := fun _ _ =>
       Responded true 200 (inr {| Detail.evolution_chain_url := EmptyString |});
     Detail.evolution := fun _ _ => Rejected "Failed to fetch";
     Detail.typeDetail := fun _ _ =>
       if types then Responded true 200 (inr electric)
       else Rejected "Failed to fetch";
     Detail.clock := fun n => (1000 * Z.of_nat n)%Z |}.

(** The list request is answered with two creatures, on a clock that
    advances a second per request. *)
Definition listed : Context.World :=
  {| Context.listing := fun _ =>
       Responded true 200
         (inr [ {| Api.nr_name := "ivysaur"; Api.nr_url := "https://pokeapi.co/api/v2/pokemon/2/" |};
                {| Api.nr_name := "bulbasaur"; Api.nr_url := "https://pokeapi.co/api/v2/pokemon/1/" |} ]);
     Context.clock := fun n => (1000 * Z.of_nat n)%Z |}.

Definition freshContext : Context.Sys :=
  {| Context.minimalPokemonList := []; Context.isLoadingMinimalList := true;
     Context.searchError := None; Context.localStorage := ∅; Context.sent := 0 |}.

Definition freshSys : Detail.Sys :=
  {| Detail.page := Detail.initialPage; Detail.pokemonDataCache := ∅;
     Detail.preloadInitiated := false; Detail.requests := [];
     Detail.inFlight := [] |}.

(** The same network five minutes after time 0. *)
Definition fiveMinutesOn : Detail.World :=
  {| Detail.pokemon := Detail.pokemon (network true);
     Detail.species := Detail.species (network true);
     Detail.evolution := Detail.evolution (network true);
     Detail.typeDetail := Detail.typeDetail (network true);
     Detail.clock := fun _ => (5 * 60 * 1000)%Z |}.

(** The record of pikachu was stored at time 0. *)
Definition pikachuCached : Detail.Sys :=
  Detail.setCache
    {[ "pikachu" := {| Detail.data := pikachu; Detail.timestamp := 0 |} ]}
    freshSys.

End Worlds.


(** * What the pages show, and the search box

    The parts of the three files that turn the state into what is
    displayed, and the two users of the search index:
    [src/components/Header.tsx] (module [Header]) and
    [src/app/search/page.tsx] (module [SearchPage]). *)

(** ** What the quiz page shows ([src/app/guesser/page.tsx], lines 228-320) *)

Module GuesserView.
Import Js JsText Registry Guesser.

(** The [span] that [getPokemonTypeChip] returns: its key, the two
    colours of its style and its text. *)
Record Chip := {
  chip_key : string;
  chip_backgroundColor : string;
  chip_color : string;
  chip_text : string;
}.

(** [getPokemonTypeChip], lines 228-240; [None] is [null]. *)
Definition getPokemonTypeChip (typeName : string) : option Chip :=
  match List.find (fun t => String.eqb (toLowerCase (td_name t)) (toLowerCase typeName))
                  POKEMON_TYPES with
  | None => None
  | Some typeInfo =>
      Some {| chip_key := typeName;
              chip_backgroundColor := td_color typeInfo;
              chip_color := or_default (td_textColor typeInfo) "#000";
              chip_text := td_name typeInfo |}
  end.

(** The border of the button of a type, lines 297-306. *)
Definition borderColor (st : State) (type : TypeData) : string :=
  let isSelected := bool_decide (td_name type ∈ selectedTypes st) in
  if showResults st then
    match typeCheckResults st !! td_name type with
    | Some CORRECT => "border-green-500"
    | Some INCORRECT => "border-red-500"
    | Some MISSED => "border-yellow-500 animate-pulse"
    | _ => "border-transparent"
    end
  else if isSelected then "border-yellow-500"
  else "border-transparent".

(** [disabled={showResults && !gameWon}], line 312 *)
Definition disabled (st : State) : bool :=
  (showResults st && negb (gameWon st))%bool.

(** Which of the three returns of the component is taken, lines
    242-265. *)
Inductive Screen :=
| LoadingScreen
| ErrorScreen (message : string)
| GameScreen.

Definition screen (st : State) : Screen :=
  if isLoading st then LoadingScreen
  else if truthy_str (error st) then ErrorScreen (or_default (error st) EmptyString)
  else GameScreen.

End GuesserView.

(** ** What the detail page shows
       ([src/app/pokedex/[pokemonName]/page.tsx], lines 44-60 and 254-486) *)

Module DetailView.
Import Js JsText Registry Api Detail.

(** [formatPokemonId], line 44.  [String(id)] is the decimal notation
    written here for the integers of magnitude below 2^53; beyond 1e21
    JavaScript switches to the exponent notation, which is outside this
    definition's domain. *)
Definition formatPokemonId (id : Z) : string :=
  String "#"%char (padStart 4 "0"%char (pretty id)).

(** The style that [getTypeChipStyle] returns. *)
Record Style := {
  backgroundColor : string;
  color : string;
}.

(** [getTypeChipStyle], lines 45-50 *)
Definition getTypeChipStyle (typeName : string) : Style :=
  match List.find (fun t => String.eqb (toLowerCase (td_name t)) (toLowerCase typeName))
                  POKEMON_TYPES with
  | Some typeInfo =>
      {| backgroundColor := td_color typeInfo;
         color := or_default (td_textColor typeInfo) "#000" |}
  | None => {| backgroundColor := "#777"; color := "#fff" |}
  end.

(** [getStatColor], lines 55-60 *)
Definition getStatColor (base_stat : Z) : string :=
  if (base_stat <? 50)%Z then "#c0392b"
  else if (base_stat <? 80)%Z then "#f39c12"
  else if (base_stat <? 110)%Z then "#27ae60"
  else "#2980b9".

(** An element of the array that [renderEvolutionChain] returns: the
    card of a species, with its key, the target of its link, the source
    of its image if there is one and its text; or an arrow, with its
    key. *)
Inductive Element :=
| SpeciesCard (key href : string) (src : option string) (text : string)
| Arrow (key : string).

(** [url.split('/').filter(Boolean).pop()], line 257 *)
Definition pokemonIdFromUrl (url : string) : option string :=
  last (List.filter (fun part => negb (String.eqb part EmptyString))
                    (Context.splitSlash EmptyString url)).

(** [renderEvolutionChain] on a link that is not [null], lines 256-283 *)
Fixpoint renderEvolutionChain (chainLink : EvolutionChainLink) : list Element :=
  match chainLink with
  | Link species evolves_to =>
      SpeciesCard
        (nr_name species)
        ("/pokedex/" ++ toLowerCase (nr_name species))
        ((fun id => "https://raw.githubusercontent.com/PokeAPI/sprites/master/sprites/pokemon/"
                    ++ id ++ ".png") <$> pokemonIdFromUrl (nr_url species))
        (replace_hyphen (nr_name species))
      :: match evolves_to with
         | [] => []
         | first :: _ =>
             Arrow (nr_name species ++ "-arrow") :: renderEvolutionChain first
         end
  end.

(** Lines 286-287. *)
Definition regularAbilities (pokemonData : option PokemonData) : list AbilityInfo :=
  match pokemonData with
  | Some d => List.filter (fun a => negb (is_hidden a)) (pd_abilities d)
  | None => []
  end.

Definition hiddenAbility (pokemonData : option PokemonData) : option AbilityInfo :=
  match pokemonData with
  | Some d => List.find (fun a => is_hidden a) (pd_abilities d)
  | None => None
  end.

(** Which of the four returns of the component is taken, lines
    290-318. *)
Inductive View :=
| LoadingView
| ErrorView (message : string)
| NotFoundView
| MainView.

Definition view (p : PageState) : View :=
  if (isLoading p && negb (bool_decide (is_Some (pokemonData p))))%bool then LoadingView
  else if truthy_str (error p) then ErrorView (or_default (error p) EmptyString)
  else if (negb (bool_decide (is_Some (pokemonData p))) && negb (isLoading p))%bool
  then NotFoundView
  else MainView.

(** [a === b] on numbers *)
Definition strict_eq (a b : number) : bool :=
  match a, b with
  | Num x, Num y => Qeq_bool x y
  | _, _ => false
  end.

(** The groups of the effectiveness section in the order of line 428,
    and the multiplier of each, lines 429-434. *)
Definition groups : list string := ["4x"; "2x"; "1x"; "½x"; "¼x"; "0x"].

Definition groupMultiplier (group : string) : number :=
  if String.eqb group "4x" then Num 4
  else if String.eqb group "2x" then Num 2
  else if String.eqb group "1x" then Num 1
  else if String.eqb group "½x" then Num (1 # 2)
  else if String.eqb group "¼x" then Num (1 # 4)
  else Num 0.

(** A chip of a group: the name of its type and whether the asterisk
    of line 450 follows it. *)
Record GroupChip := {
  gc_name : string;
  gc_asterisk : bool;
}.

(** A group that is displayed: its heading, its chips, and whether the
    chip of line 453, keyed [ground-levitate], is added after them. *)
Record Group := {
  g_heading : string;
  g_chips : list GroupChip;
  g_groundLevitate : bool;
}.

(** The callback of line 428; [None] is the [null] of line 437. *)
Definition renderGroup (typeEffectiveness : list TypeEffectivenessEntry)
    (abilityEffectOnGround : option string) (group : string) : option Group :=
  let groupMultiplier := groupMultiplier group in
  let typesInGroup :=
    List.filter (fun t => strict_eq (te_multiplier t) groupMultiplier) typeEffectiveness in
  if ((length typesInGroup =? 0)%nat
      && negb (String.eqb group "0x" && truthy_str abilityEffectOnGround
               && negb (existsb (fun t => String.eqb (toLowerCase (te_name t)) "ground"
                                          && strict_eq (te_multiplier t) (Num 0))
                                typeEffectiveness)))%bool
  then None
  else
    Some {| g_heading := group;
            g_chips :=
              (fun type =>
                 {| gc_name := te_name type;
                    gc_asterisk :=
                      (String.eqb (toLowerCase (te_name type)) "ground"
                       && truthy_str abilityEffectOnGround
                       && nonzero groupMultiplier)%bool |})
                <$> typesInGroup;
            g_groundLevitate :=
              (String.eqb group "0x" && truthy_str abilityEffectOnGround
               && negb (existsb (fun t => String.eqb (toLowerCase (te_name t)) "ground")
                                typesInGroup))%bool |}.

(** The effectiveness section, lines 428-468: the groups that are not
    [null], and the footnote of line 467. *)
Definition renderEffectiveness (typeEffectiveness : list TypeEffectivenessEntry)
    (abilityEffectOnGround : option string) : list Group * option string :=
  (omap (renderGroup typeEffectiveness abilityEffectOnGround) groups,
   if truthy_str abilityEffectOnGround then abilityEffectOnGround else None).

End DetailView.

(** ** The search box of the header ([src/components/Header.tsx]) *)

Module Header.
Import Js JsText Context.

Inductive SuggestionType := TypePage | TypePokemon.

Record SearchSuggestion := {
  sg_type : SuggestionType;
  sg_name : string;
  sg_path : string;
  sg_id : option Z;
  sg_pokemonApiName : option string;
  sg_displaySuffix : option string;
}.

Definition pageSuggestion (name path : string) : SearchSuggestion :=
  {| sg_type := TypePage; sg_name := name; sg_path := path; sg_id := None;
     sg_pokemonApiName := None; sg_displaySuffix := None |}.

(** Lines 20-24. *)
Definition pageSuggestionsData : list SearchSuggestion := [
  pageSuggestion "Pokémon Guesser" "/guesser";
  pageSuggestion "Pokédex List" "/pokedex";
  pageSuggestion "Blaze Black 2 Redux Pokédex" "/bb2r/pokedex"
].

(** The [useState] cells of [SiteHeader], and the routes given to
    [router.push] so far, in their order. *)
Record State := {
  searchTerm : string;
  suggestions : list SearchSuggestion;
  isSearchFocused : bool;
  activeIndex : Z;
  pushed : list string;
}.

Definition initialState : State := {|
  searchTerm := EmptyString; suggestions := []; isSearchFocused := false;
  activeIndex := -1; pushed := [] |}.

Definition setSearchTerm (v : string) (s : State) : State := {|
  searchTerm := v; suggestions := suggestions s;
  isSearchFocused := isSearchFocused s; activeIndex := activeIndex s;
  pushed := pushed s |}.

Definition setSuggestions (v : list SearchSuggestion) (s : State) : State := {|
  searchTerm := searchTerm s; suggestions := v;
  isSearchFocused := isSearchFocused s; activeIndex := activeIndex s;
  pushed := pushed s |}.

Definition setIsSearchFocused (v : bool) (s : State) : State := {|
  searchTerm := searchTerm s; suggestions := suggestions s;
  isSearchFocused := v; activeIndex := activeIndex s; pushed := pushed s |}.

Definition setActiveIndex (v : Z) (s : State) : State := {|
  searchTerm := searchTerm s; suggestions := suggestions s;
  isSearchFocused := isSearchFocused s; activeIndex := v; pushed := pushed s |}.

(** [router.push(path)] *)
Definition push (path : string) (s : State) : State := {|
  searchTerm := searchTerm s; suggestions := suggestions s;
  isSearchFocused := isSearchFocused s; activeIndex := activeIndex s;
  pushed := (pushed s ++ [path])%list |}.

(** The predicate of the [filter] of lines 52-56.  [toLowerCase] is the
    one of the model: it lowers the letters A to Z, which are the capital
    letters of the names of the index and of the pages; a term with
    another capital letter is compared as it is typed. *)
Definition matches (lowerSearchTerm : string) (pokemon : MinimalPokemonInfo) : bool :=
  (includes (toLowerCase (mp_displayName pokemon)) lowerSearchTerm
   || includes (toLowerCase (mp_name pokemon)) lowerSearchTerm
   || includes (pretty (mp_id pokemon)) lowerSearchTerm)%bool.

(** The callback of the [map] of lines 57-64. *)
Definition toSuggestion (pokemon : MinimalPokemonInfo) : SearchSuggestion :=
  {| sg_type := TypePokemon;
     sg_name := mp_displayName pokemon;
     sg_path := "/pokedex/" ++ mp_name pokemon;
     sg_id := Some (mp_id pokemon);
     sg_pokemonApiName := Some (mp_name pokemon);
     sg_displaySuffix :=
       Some ("(#" ++ padStart 4 "0"%char (pretty (mp_id pokemon)) ++ ")") |}.

(** The effect of lines 36-69, which React runs after a render in which
    [searchTerm] or one of the two values read from the search index
    (line 34), here the state [px] of its provider, has changed. *)
Definition updateSuggestions (px : Context.Sys) (s : State) : State :=
  if String.eqb (trim (searchTerm s)) EmptyString then
    setActiveIndex (-1) (setSuggestions [] s)
  else
    let lowerSearchTerm := toLowerCase (searchTerm s) in
    let filteredPages :=
      List.filter (fun p => includes (toLowerCase (sg_name p)) lowerSearchTerm)
                  pageSuggestionsData in
    let filteredPokemon :=
      if negb (isLoadingMinimalList px)
      then toSuggestion <$> List.filter (matches lowerSearchTerm) (minimalPokemonList px)
      else [] in
    setActiveIndex (-1)
      (setSuggestions (take 10 (filteredPages ++ filteredPokemon)%list) s).

(** The four setters that end lines 82-88, 90-96 and 145-148. *)
Definition reset (s : State) : State :=
  setActiveIndex (-1)
    (setIsSearchFocused false (setSuggestions [] (setSearchTerm EmptyString s))).

(** [navigateToSearchPage], lines 82-88 *)
Definition navigateToSearchPage (term : string) (s : State) : State :=
  reset (push ("/search?q=" ++ encodeURIComponent (trim term)) s).

(** [handleSuggestionClick], lines 90-96 *)
Definition handleSuggestionClick (path : string) (s : State) : State :=
  reset (push path s).

(** [activeIndex >= 0 && activeIndex < suggestions.length], with the
    suggestion at that index *)
Definition activeSuggestion (s : State) : option SearchSuggestion :=
  if ((0 <=? activeIndex s)%Z && (activeIndex s <? Z.of_nat (length (suggestions s)))%Z)%bool
  then suggestions s !! Z.to_nat (activeIndex s)
  else None.

(** [handleSearchSubmit], lines 98-113 *)
Definition handleSearchSubmit (s : State) : State :=
  let termToSearch := trim (searchTerm s) in
  if String.eqb termToSearch EmptyString then s
  else
    match activeSuggestion s with
    | Some suggestion => handleSuggestionClick (sg_path suggestion) s
    | None =>
        match suggestions s with
        | first :: _ =>
            if String.eqb (toLowerCase (sg_name first)) (toLowerCase termToSearch)
            then handleSuggestionClick (sg_path first) s
            else navigateToSearchPage termToSearch s
        | [] => navigateToSearchPage termToSearch s
        end
    end.

(** [handleKeyDown], lines 115-154; [a % b] is the remainder of the
    division that truncates. *)
Definition handleKeyDown (key : string) (s : State) : State :=
  if (negb (isSearchFocused s) || (length (suggestions s) =? 0)%nat)%bool then
    if (String.eqb key "Enter" && negb (String.eqb (trim (searchTerm s)) EmptyString))%bool
    then navigateToSearchPage (trim (searchTerm s)) s
    else s
  else
    let n := Z.of_nat (length (suggestions s)) in
    if String.eqb key "ArrowDown" then
      setActiveIndex (Z.rem (activeIndex s + 1) n) s
    else if String.eqb key "ArrowUp" then
      setActiveIndex (Z.rem (activeIndex s - 1 + n) n) s
    else if String.eqb key "Enter" then
      match activeSuggestion s with
      | Some suggestion => handleSuggestionClick (sg_path suggestion) s
      | None => handleSearchSubmit s
      end
    else if String.eqb key "Escape" then reset s
    else s.

(** The condition under which the list of suggestions is displayed,
    line 225. *)
Definition listShown (px : Context.Sys) (s : State) : bool :=
  (isSearchFocused s
   && negb (String.eqb (trim (searchTerm s)) EmptyString)
   && ((0 <? length (suggestions s))%nat || isLoadingMinimalList px))%bool.

(** What the user does to the search box. *)
Inductive Event :=
| Change (value : string)       (* [onChange], line 205 *)
| Focus                         (* [onFocus], line 206 *)
| KeyDown (key : string)        (* [onKeyDown], line 207 *)
| Submit                        (* [onSubmit] of the form, line 193 *)
| ClickClear                    (* line 219 *)
| ClickSuggestion (index : nat) (* line 246 *)
| ClickSearchFor                (* line 262 *)
| MouseDownOutside.             (* [handleClickOutside], lines 72-77 *)

(** The handler of an event.  The buttons of lines 246 and 262 exist
    only while the list is displayed, the one of line 219 only while
    [searchTerm] is not empty. *)
Definition handle (px : Context.Sys) (e : Event) (s : State) : State :=
  match e with
  | Change value => setSearchTerm value s
  | Focus => setIsSearchFocused true s
  | KeyDown key => handleKeyDown key s
  | Submit => handleSearchSubmit s
  | ClickClear =>
      if String.eqb (searchTerm s) EmptyString then s
      else setActiveIndex (-1) (setSuggestions [] (setSearchTerm EmptyString s))
  | ClickSuggestion index =>
      if listShown px s then
        match suggestions s !! index with
        | Some suggestion => handleSuggestionClick (sg_path suggestion) s
        | None => s
        end
      else s
  | ClickSearchFor =>
      if listShown px s then navigateToSearchPage (searchTerm s) s else s
  | MouseDownOutside => setActiveIndex (-1) (setIsSearchFocused false s)
  end.

(** An event and the render that follows it: the effect of lines 36-69
    runs when the handler has changed [searchTerm]. *)
Definition step (px : Context.Sys) (e : Event) (s : State) : State :=
  let s' := handle px e s in
  if String.eqb (searchTerm s') (searchTerm s) then s'
  else updateSuggestions px s'.

End Header.

(** ** The search page ([src/app/search/page.tsx]) *)

Module SearchPage.
Import Js JsText Context.

Inductive ResultType := TypePage | TypePokemon.

Record SearchResultItem := {
  sr_type : ResultType;
  sr_name : string;
  sr_path : string;
  sr_id : option Z;
  sr_sprite : option string;
  sr_apiName : option string;
}.

Definition pageResult (name path : string) : SearchResultItem :=
  {| sr_type := TypePage; sr_name := name; sr_path := path; sr_id := None;
     sr_sprite := None; sr_apiName := None |}.

(** Lines 22-26. *)
Definition pageSearchData : list SearchResultItem := [
  pageResult "Home" "/";
  pageResult "Pokémon Guesser" "/guesser";
  pageResult "Pokédex List" "/pokedex"
].

(** The [useState] cells of [SearchResultsComponent]. *)
Record State := {
  results : list SearchResultItem;
  isLoading : bool;
}.

Definition initialState : State := {| results := []; isLoading := true |}.

(** The predicate of the [filter] of lines 61-65. *)
Definition matches (lowerQuery : string) (pokemon : MinimalPokemonInfo) : bool :=
  (includes (toLowerCase (mp_displayName pokemon)) lowerQuery
   || includes (toLowerCase (mp_name pokemon)) lowerQuery
   || includes (pretty (mp_id pokemon)) lowerQuery)%bool.

(** The callback of the [map] of lines 66-73. *)
Definition toResult (pokemon : MinimalPokemonInfo) : SearchResultItem :=
  {| sr_type := TypePokemon;
     sr_name := mp_displayName pokemon;
     sr_path := "/pokedex/" ++ mp_name pokemon;
     sr_id := Some (mp_id pokemon);
     sr_sprite :=
       Some ("https://raw.githubusercontent.com/PokeAPI/sprites/master/sprites/pokemon/"
             ++ pretty (mp_id pokemon) ++ ".png");
     sr_apiName := Some (mp_name pokemon) |}.

(** The effect of lines 43-80; [query] is [searchParams.get('q')] and
    [px] the state of the provider of the search index (line 38). *)
Definition search (query : option string) (px : Context.Sys) (s : State) : State :=
  if isLoadingMinimalList px then {| results := results s; isLoading := true |}
  else
    {| results :=
         if truthy_str query then
           let lowerQuery := toLowerCase (or_default query EmptyString) in
           (List.filter (fun p => includes (toLowerCase (sr_name p)) lowerQuery)
                        pageSearchData
            ++ (toResult <$> List.filter (matches lowerQuery) (minimalPokemonList px)))%list
         else [];
       isLoading := false |}.

(** What the component returns, lines 82-129. *)
Inductive View :=
| Searching
| ErrorView (contextError : string)
| EnterTerm
| NoResults (query : string)
| Results (query : string) (items : list SearchResultItem).

Definition view (query : option string) (px : Context.Sys) (s : State) : View :=
  if isLoading s then Searching
  else if truthy_str (searchError px) then ErrorView (or_default (searchError px) EmptyString)
  else if negb (truthy_str query) then EnterTerm
  else if (0 <? length (results s))%nat
       then Results (or_default query EmptyString) (results s)
       else NoResults (or_default query EmptyString).

End SearchPage.

(** ** Rounds of the quiz *)

Module Round.
Import Guesser.

(** The cells of the quiz that describe the round being played are the
    same in [st] and [st']. *)
Definition sameRound (st st' : State) : Prop :=
  selectedTypes st' = selectedTypes st
  /\ typeCheckResults st' = typeCheckResults st
  /\ showResults st' = showResults st
  /\ gameWon st' = gameWon st
  /\ timeTaken st' = timeTaken st
  /\ startTime st' = startTime st.

(** Clicks on the buttons of the types named [clicks], one after the
    other. *)
Definition clicked (clicks : list string) (st : State) : State :=
  foldl (fun st typeName => handleTypeClick typeName st) st clicks.

End Round.

(** ** What is displayed *)

Module Shown.
Import Js Api Detail DetailView.

(** [a] stands before [b] in the table obtained by sorting [unsorted]:
    the multiplier of [a] is the greater one, or the two are equal and
    [a] stood before [b] in [unsorted]. *)
Definition precedes (unsorted : list TypeEffectivenessEntry)
    (a b : TypeEffectivenessEntry) : Prop :=
  exists qa qb,
    te_multiplier a = Num qa /\ te_multiplier b = Num qb
    /\ ((qb < qa)%Q
        \/ ((qa == qb)%Q
            /\ exists i j, (i < j)%nat /\ unsorted !! i = Some a /\ unsorted !! j = Some b)).

Definition finiteEntry (e : TypeEffectivenessEntry) : Prop :=
  exists q, te_multiplier e = Num q.

(** The entries of the table for the map [m] in the order of the
    registry, as line 170 builds them before they are sorted. *)
Definition registryEntries (m : gmap string number) : list TypeEffectivenessEntry :=
  (fun type =>
     {| te_name := Registry.td_name type;
        te_multiplier := nullish (m !! toLowerCase (Registry.td_name type)) (Num 1) |})
    <$> Registry.POKEMON_TYPES.

(** The entries of [table] that the group with multiplier [g] takes,
    line 436. *)
Definition typesInGroup (g : number) (table : list TypeEffectivenessEntry)
  : list TypeEffectivenessEntry :=
  List.filter (fun t => strict_eq (te_multiplier t) g) table.



(** The keys of the cards among the elements of an evolution chain. *)
Definition cardKeys (elements : list Element) : list string :=
  omap (fun e => match e with
                 | SpeciesCard key _ _ _ => Some key
                 | Arrow _ => None
                 end) elements.

Definition arrowKeys (elements : list Element) : list string :=
  omap (fun e => match e with
                 | SpeciesCard _ _ _ _ => None
                 | Arrow key => Some key
                 end) elements.

(** The names of all species of an evolution chain, each link before
    the links it evolves to. *)
Fixpoint speciesOf (link : EvolutionChainLink) : list string :=
  match link with
  | Link species evolves_to => nr_name species :: concat (map speciesOf evolves_to)
  end.

End Shown.

(** ** Characters of a string *)

Module Text.

(** Every character of [s] passes the test [p]. *)
Fixpoint every (p : Ascii.ascii -> bool) (s : string) : bool :=
  match s with
  | EmptyString => true
  | String c r => (p c && every p r)%bool
  end.

Definition isDigit (c : Ascii.ascii) : bool :=
  bool_decide (is_Some (Context.digit c)).

(** A character of ASCII: the byte of a text that stands for a
    character by itself. *)
Definition isAscii (c : Ascii.ascii) : bool := (Ascii.nat_of_ascii c <? 128)%nat.

Definition notHyphen (c : Ascii.ascii) : bool := negb (Ascii.eqb c "-"%char).

Definition notSlash (c : Ascii.ascii) : bool := negb (Ascii.eqb c "/"%char).

End Text.

(** ** The order of the search index *)

Module Index.
Import Context.

(** [a] stands before [b] in the list obtained by sorting [unsorted]:
    the number of [a] is the smaller one, or the two are equal and [a]
    stood before [b] in [unsorted]. *)
Definition precedes (unsorted : list MinimalPokemonInfo)
    (a b : MinimalPokemonInfo) : Prop :=
  (mp_id a < mp_id b)%Z
  \/ (mp_id a = mp_id b
      /\ exists i j, (i < j)%nat /\ unsorted !! i = Some a /\ unsorted !! j = Some b).

(** An entry of the index as the remote API gives rise to it: its
    names are ASCII text, and its number is an integer below 2^53 in
    absolute value, which [String] prints digit by digit. *)
Definition plainEntry (p : MinimalPokemonInfo) : Prop :=
  Text.every Text.isAscii (mp_name p) = true
  /\ Text.every Text.isAscii (mp_displayName p) = true
  /\ (-9007199254740992 < mp_id p < 9007199254740992)%Z.

(** The list is requested by [fetchMinimalPokemonList] from state [s]:
    no list is stored, or the stored one has expired. *)
Definition requested (w : World) (s : Sys) : Prop :=
  match localStorage s !! CACHE_KEY_MINIMAL_LIST with
  | None => True
  | Some stored => (CACHE_DURATION_MS <= clock w (sent s) - sl_timestamp stored)%Z
  end.

End Index.

(** ** The state of the search box *)

Module Box.
Import JsText Header.

(** What every handler of the search box preserves: the active index
    is -1 or the index of a suggestion, at most ten suggestions are held,
    and none is held for a term that is blank. *)
Definition consistent (s : State) : Prop :=
  (-1 <= activeIndex s < Z.of_nat (length (suggestions s)))%Z
  /\ (length (suggestions s) <= 10)%nat
  /\ (trim (searchTerm s) = EmptyString -> suggestions s = []).

(** The list of suggestions is open for the keyboard: the box has the
    focus and holds a suggestion. *)
Definition open (s : State) : Prop :=
  isSearchFocused s = true /\ suggestions s <> [].

(** The box after a navigation to [path] from the state [s]: the route
    was pushed and the box is empty and closed. *)
Definition navigated (path : string) (s s' : State) : Prop :=
  pushed s' = (pushed s ++ [path])%list
  /\ searchTerm s' = EmptyString /\ suggestions s' = []
  /\ isSearchFocused s' = false /\ activeIndex s' = (-1)%Z.

(** The route of the search page for the words [term]. *)
Definition searchRoute (term : string) : string :=
  "/search?q=" ++ encodeURIComponent (trim term).

(** Where a handler of the box in the state [s] may navigate to: the
    target of a suggestion that is held, or the search page for the
    term. *)
Definition targets (s : State) (path : string) : Prop :=
  path ∈ sg_path <$> suggestions s
  \/ path = searchRoute (searchTerm s)
  \/ path = searchRoute (trim (searchTerm s)).

Definition isPokemon (g : SearchSuggestion) : bool :=
  match sg_type g with
  | TypePokemon => true
  | TypePage => false
  end.

(** The targets of the suggestions that stand for creatures. *)
Definition creaturePaths (l : list SearchSuggestion) : list string :=
  sg_path <$> List.filter isPokemon l.

(** The same for the results of the search page. *)
Definition resultPaths (l : list SearchPage.SearchResultItem) : list string :=
  SearchPage.sr_path
    <$> List.filter (fun r => match SearchPage.sr_type r with
                              | SearchPage.TypePokemon => true
                              | SearchPage.TypePage => false
                              end) l.

(** A character that [encodeURIComponent] may produce. *)
Definition urlSafe (c : Ascii.ascii) : bool :=
  (unreserved c || Ascii.eqb c "%"%char)%bool.

End Box.
Example Context_toMinimal_example :
  Context.toMinimal 0
    {| Api.nr_name := "mr-mime"; Api.nr_url := "https://pokeapi.co/api/v2/pokemon/122/" |}
  = {| Context.mp_id := 122; Context.mp_name := "mr-mime";
       Context.mp_displayName := "Mr mime" |}.
Proof. reflexivity. Qed.

Example randomId_rounds_the_product :
  Guesser.randomId Worlds.nearFive 0 = 6%Z
  /\ (Qfloor (Guesser.random Worlds.nearFive 0 * 905) + 1)%Z = 5%Z.
Proof. split; vm_compute; reflexivity. Qed.

Example parseInt_rounds_to_a_double :
  Context.parseInt (Some "9007199254740993") = Some 9007199254740992%Z
  /\ Context.parseInt (Some (String (Ascii.ascii_of_nat 194)
                               (String (Ascii.ascii_of_nat 160) "25")))
     = Some 25%Z.
Proof. split; vm_compute; reflexivity. Qed.

Example startNewGame_offline :
  (fun r => (fst r, Guesser.error (snd r), Guesser.isLoading (snd r)))
    <$> Guesser.startNewGame 5 Worlds.offlineQuiz 0 Guesser.initialState
  = Some (5%nat, Some Failure.exhausted, false).
Proof. vm_compute. reflexivity. Qed.

Example startNewGame_needs_fuel :
  Guesser.startNewGame 4 Worlds.offlineQuiz 0 Guesser.initialState = None.
Proof. vm_compute. reflexivity. Qed.

Example grassPoison_quiz_won :
  Guesser.gameWon
    (Guesser.handleCheckAnswers 0
       (Samples.quizState Samples.grassPoisonTable Samples.grassPoisonAnswer)) = true.
Proof. vm_compute. reflexivity. Qed.

Example details_without_types :
  Detail.error (Detail.page (snd (Detail.fetchPageSpecificDetails
                                    (Worlds.network false) Worlds.pikachu Worlds.freshSys)))
  = Some "Failed to load some details: Failed to fetch".
Proof. vm_compute. reflexivity. Qed.

Example load_pikachu_requests :
  Detail.requests (snd (Detail.loadCurrentPokemonAndPreloadNeighbors
                          (Worlds.network true) "Pikachu" Worlds.freshSys))
  = [Detail.GetPokemon "pikachu" false;
     Detail.GetUrl "https://pokeapi.co/api/v2/pokemon-species/25";
     Detail.GetUrl "https://pokeapi.co/api/v2/type/electric";
     Detail.GetNavInfo 24; Detail.GetPokemon "arbok" true;
     Detail.GetNavInfo 26; Detail.GetPokemon "raichu" true].
Proof. vm_compute. reflexivity. Qed.

Example list_fetched_sorted_and_stored :
  Context.localStorage (Context.fetchMinimalPokemonList Worlds.listed Worlds.freshContext)
    !! Context.CACHE_KEY_MINIMAL_LIST
  = Some {| Context.sl_timestamp := 1000;
            Context.sl_data :=
              [ {| Context.mp_id := 1; Context.mp_name := "bulbasaur";
                   Context.mp_displayName := "Bulbasaur" |};
                {| Context.mp_id := 2; Context.mp_name := "ivysaur";
                   Context.mp_displayName := "Ivysaur" |} ] |}.
Proof. vm_compute. reflexivity. Qed.

Example levitating_ground_type :
  Detail.computeEffectiveness [Samples.levitate] [Samples.ground]
  = (Detail.sortedEffectiveness
       (<["ground" := Js.Num 0]> (Detail.effectivenessMap [Samples.ground])),
     Some "Immune to Ground due to Levitate.").
Proof. vm_compute. reflexivity. Qed.

(** * Properties *)

(** ** The registry *)

Lemma typeNames_NoDup : NoDup Quiz.typeNames.
Proof. apply (bool_decide_unpack _). vm_compute. exact I. Qed.

Lemma lower_typeNames_NoDup :
  NoDup (Js.toLowerCase <$> Quiz.typeNames).
Proof. apply (bool_decide_unpack _). vm_compute. exact I. Qed.

Lemma POKEMON_TYPES_length : length Registry.POKEMON_TYPES = 18%nat.
Proof. reflexivity. Qed.

(** ** Maps filled by a loop over a list of types *)

Section FillByName.
Context {V : Type} (key : Registry.TypeData -> string) (f : Registry.TypeData -> V).

Local Abbreviation fill := (foldl (fun m T => <[key T := f T]> m)).

Lemma fill_lookup_other l : forall (m : gmap string V) k,
  k ∉ key <$> l -> fill m l !! k = m !! k.
Proof.
  induction l as [|T l IH]; intros m k Hk; [done|].
  rewrite fmap_cons, not_elem_of_cons in Hk. destruct Hk as [Hne Hk].
  cbn [foldl]. rewrite IH by done.
  by rewrite lookup_insert_ne.
Qed.

Lemma fill_lookup l : forall (m : gmap string V) T,
  NoDup (key <$> l) -> T ∈ l -> fill m l !! key T = Some (f T).
Proof.
  induction l as [|T0 l IH]; intros m T Hnd Hin; [by apply elem_of_nil in Hin|].
  rewrite fmap_cons in Hnd. apply NoDup_cons in Hnd as [Hfresh Hnd].
  apply elem_of_cons in Hin as [->|Hin].
  - cbn [foldl]. rewrite fill_lookup_other by done. apply lookup_insert_eq.
  - cbn [foldl]. by apply IH.
Qed.

Lemma fill_dom l : forall (m : gmap string V),
  dom (fill m l) = dom m ∪ list_to_set (key <$> l).
Proof.
  induction l as [|T l IH]; intros m.
  - cbn. set_solver.
  - cbn [foldl]. rewrite IH, dom_insert_L.
    rewrite fmap_cons. cbn [list_to_set]. set_solver.
Qed.
End FillByName.

(** ** JavaScript comparisons *)

Lemma ge_Num_iff (x y : Q) : Js.ge (Js.Num x) (Js.Num y) = true <-> (y <= x)%Q.
Proof. cbn. apply Qle_bool_iff. Qed.

Lemma or_else_no_threshold (o : option Js.number) :
  Js.ge (Js.or_else o (Js.Num 1)) (Js.Num 2) = Js.ge (Js.to_number o) (Js.Num 2).
Proof.
  destruct o as [[q|]|]; cbn; try reflexivity.
  destruct (Qeq_bool q 0) eqn:Hz; cbn; [|reflexivity].
  apply Qeq_bool_iff in Hz.
  symmetry. apply not_true_is_false. intros Hle.
  apply Qle_bool_iff in Hle. rewrite Hz in Hle. by apply Qle_bool_iff in Hle.
Qed.

(** ** The loop of [handleCheckAnswers] *)

Section CheckAnswers.
Import Js Registry Guesser Quiz.
Variables (m : gmap string number) (sel : gset string).

Lemma checkType_fold l : forall r a b,
  foldl (checkType m sel) (r, a, b) l =
    (foldl (fun r T => <[td_name T := labelOf m sel T]> r) r l,
     a && forallb (fun T => eqb (picked sel T) (super m T)) l,
     b || existsb (fun T => negb (picked sel T) && super m T) l).
Proof.
  induction l as [|T l IH]; intros r a b.
  - cbn. by rewrite andb_true_r, orb_false_r.
  - cbn [foldl forallb existsb]. unfold checkType at 2.
    fold (super m T). fold (picked sel T). unfold labelOf at 2.
    destruct (picked sel T), (super m T); rewrite IH; cbn;
      f_equal; try f_equal;
      rewrite ?andb_false_r, ?andb_true_r, ?orb_true_r; try reflexivity.
    all: by destruct b.
Qed.

Lemma super_iff T :
  super m T = true <-> superEffective m T.
Proof.
  unfold super, superEffective. rewrite or_else_no_threshold.
  destruct (m !! td_name T) as [[q|]|]; cbn; split.
  - intros H. exists q. split; [done|]. by apply Qle_bool_iff.
  - intros (q' & [= <-] & H). by apply Qle_bool_iff.
  - done.
  - by intros (q' & [=] & _).
  - done.
  - by intros (q' & [=] & _).
Qed.

Lemma super_false_iff T q :
  m !! td_name T = Some (Num q) ->
  super m T = false <-> (q < 2)%Q.
Proof.
  intros Hq. rewrite <- not_true_iff_false, super_iff. split.
  - intros Hn. apply Qnot_le_lt. intros Hle. apply Hn. by exists q.
  - intros Hlt (q' & Hq' & Hle). rewrite Hq in Hq'. injection Hq' as <-.
    by apply Qlt_not_le in Hlt.
Qed.

Lemma hasAny_iff :
  hasAnySuperEffectiveForCurrentPokemon m = true <->
  exists k v, m !! k = Some v /\ ge v (Num 2) = true.
Proof.
  unfold hasAnySuperEffectiveForCurrentPokemon.
  apply (map_fold_weak_ind
           (fun (b : bool) (m' : gmap string number) =>
              b = true <-> exists k v, m' !! k = Some v /\ ge v (Num 2) = true)).
  - split; [done|]. intros (k & v & Hk & _). by rewrite lookup_empty in Hk.
  - intros i x m' r Hi IH. split.
    + destruct (ge x (Num 2)) eqn:Hx.
      * intros _. exists i, x. by rewrite lookup_insert_eq.
      * intros Hr. apply IH in Hr as (k & v & Hk & Hv).
        exists k, v. split; [|done].
        rewrite lookup_insert_ne; [done|]. intros ->. by rewrite Hi in Hk.
    + intros (k & v & Hk & Hv). destruct (decide (i = k)) as [->|Hne].
      * rewrite lookup_insert_eq in Hk. injection Hk as ->. by rewrite Hv.
      * rewrite lookup_insert_ne in Hk by done.
        destruct (ge x (Num 2)); [done|]. apply IH. by exists k, v.
Qed.

(** The results map holds the label of every type of the registry. *)
Lemma results_lookup now st T :
  correctEffectiveness st = m -> selectedTypes st = sel ->
  T ∈ POKEMON_TYPES ->
  typeCheckResults (handleCheckAnswers now st) !! td_name T = Some (labelOf m sel T).
Proof.
  intros Hm Hs HT. unfold handleCheckAnswers. rewrite Hm, Hs.
  rewrite checkType_fold. cbn [typeCheckResults setShowResults setTypeCheckResults].
  apply (fill_lookup td_name (labelOf m sel)); [apply typeNames_NoDup|done].
Qed.

Lemma results_dom now st :
  correctEffectiveness st = m -> selectedTypes st = sel ->
  dom (typeCheckResults (handleCheckAnswers now st)) = list_to_set typeNames.
Proof.
  intros Hm Hs. unfold handleCheckAnswers. rewrite Hm, Hs.
  rewrite checkType_fold. cbn [typeCheckResults setShowResults setTypeCheckResults].
  rewrite (fill_dom td_name (labelOf m sel)). set_solver.
Qed.

Lemma gameWon_eq now st :
  correctEffectiveness st = m -> selectedTypes st = sel ->
  gameWon (handleCheckAnswers now st) =
    (forallb (fun T => eqb (picked sel T) (super m T)) POKEMON_TYPES
     && (negb (hasAnySuperEffectiveForCurrentPokemon m)
         || bool_decide (0 < size sel)%nat)).
Proof.
  intros Hm Hs. unfold handleCheckAnswers. rewrite Hm, Hs.
  rewrite checkType_fold. cbn [gameWon setShowResults setTypeCheckResults setGameWon].
  set (l := POKEMON_TYPES).
  destruct (forallb _ l) eqn:Hall; cbn [andb orb].
  - assert (existsb (fun T => negb (picked sel T) && super m T) l = false) as ->.
    { apply not_true_is_false. intros Hex.
      apply existsb_exists in Hex as (T & HT & Hx).
      rewrite forallb_forall in Hall. specialize (Hall T HT).
      destruct (picked sel T), (super m T); done. }
    cbn. by destruct (hasAnySuperEffectiveForCurrentPokemon m).
  - reflexivity.
Qed.
End CheckAnswers.

(** ** Scoring on an 18-entry table *)

Section Scoring.
Import Js Registry Guesser Quiz.
Variables (m : gmap string number) (sel : gset string).
Hypothesis table : effectivenessTable m.

Lemma table_lookup T : T ∈ POKEMON_TYPES -> exists q, m !! td_name T = Some (Num q).
Proof.
  intros HT. destruct table as [Hdom Hfin].
  assert (td_name T ∈ dom m) as Hin.
  { rewrite Hdom. apply elem_of_list_to_set. unfold typeNames.
    apply list_elem_of_fmap. by exists T. }
  apply elem_of_dom in Hin as [v Hv].
  specialize (Hfin _ _ Hv). destruct v as [q|]; [by exists q|done].
Qed.

Lemma table_key k v : m !! k = Some v -> exists T, T ∈ POKEMON_TYPES /\ td_name T = k.
Proof.
  intros Hk. destruct table as [Hdom _].
  assert (k ∈ dom m) as Hin by (apply elem_of_dom; eauto).
  rewrite Hdom in Hin. apply elem_of_list_to_set in Hin.
  unfold typeNames in Hin. apply list_elem_of_fmap in Hin as (T & -> & HT).
  by exists T.
Qed.

Lemma below_iff_not_super T :
  T ∈ POKEMON_TYPES -> belowThreshold m T <-> ~ superEffective m T.
Proof.
  intros HT. destruct (table_lookup T HT) as [q Hq]. split.
  - intros (q1 & H1 & Hlt) (q2 & H2 & Hle).
    rewrite Hq in H1, H2. injection H1 as <-. injection H2 as <-.
    by apply Qlt_not_le in Hlt.
  - intros Hn. exists q. split; [done|]. apply Qnot_le_lt. intros Hle.
    apply Hn. by exists q.
Qed.

Lemma hasAny_table :
  hasAnySuperEffectiveForCurrentPokemon m = true <->
  exists T, T ∈ POKEMON_TYPES /\ superEffective m T.
Proof.
  rewrite hasAny_iff. split.
  - intros (k & v & Hk & Hv). destruct (table_key k v Hk) as (T & HT & <-).
    exists T. split; [done|]. destruct v as [q|]; [|done].
    exists q. split; [done|]. by apply ge_Num_iff in Hv.
  - intros (T & _ & q & Hq & Hle). exists (td_name T), (Num q).
    split; [done|]. by apply ge_Num_iff.
Qed.

Lemma agree_iff :
  forallb (fun T => eqb (picked sel T) (super m T)) POKEMON_TYPES = true <->
  forall T, T ∈ POKEMON_TYPES -> (td_name T ∈ sel <-> superEffective m T).
Proof.
  rewrite forallb_forall. split.
  - intros H T HT. apply list_elem_of_In in HT. specialize (H T HT).
    apply eqb_prop in H. rewrite <- super_iff, <- H. unfold picked.
    by rewrite bool_decide_eq_true.
  - intros H T HT. apply list_elem_of_In in HT. specialize (H T HT).
    rewrite <- super_iff in H. unfold picked.
    destruct (super m T) eqn:Hs.
    + rewrite bool_decide_eq_true_2; [done|]. by apply H.
    + rewrite bool_decide_eq_false_2; [done|]. intros Hin. by apply H in Hin.
Qed.

(** On an 18-entry table the game is won exactly when the selected
    types are the super effective ones. *)
Lemma won_iff_agree now st :
  correctEffectiveness st = m -> selectedTypes st = sel ->
  gameWon (handleCheckAnswers now st) = true <->
  forall T, T ∈ POKEMON_TYPES -> (td_name T ∈ sel <-> superEffective m T).
Proof.
  intros Hm Hs. rewrite (gameWon_eq m sel now st Hm Hs).
  rewrite andb_true_iff, agree_iff. split; [by intros [H _]|].
  intros H. split; [done|].
  destruct (hasAnySuperEffectiveForCurrentPokemon m) eqn:Hany; [|done].
  apply hasAny_table in Hany as (T & HT & Hsup). cbn.
  apply bool_decide_eq_true. apply H in Hsup; [|done].
  assert (size sel <> 0%nat); [|lia].
  apply size_non_empty_iff. intros Hempty.
  by apply (not_elem_of_empty (C:=gset string) (td_name T)), Hempty.
Qed.
End Scoring.

(** C3.  On every 18-entry effectiveness table and every selection of
    attacking types, [handleCheckAnswers] declares a win iff no selection
    is incorrect, no type is missed and, when some type has multiplier at
    least 2, something is selected.  Hence: selecting exactly the types
    with multiplier at least 2 wins; omitting such a type never wins;
    selecting a type with multiplier below 2 never wins; and when no type
    reaches 2 the empty selection wins and every other selection loses. *)
Theorem quiz_win_iff_exact_selection (now : Z) (st : Guesser.State) :
  Quiz.effectivenessTable (Guesser.correctEffectiveness st) ->
  Quiz.selection (Guesser.selectedTypes st) ->
  (Guesser.gameWon (Guesser.handleCheckAnswers now st) = true <->
     (forall T, T ∈ Registry.POKEMON_TYPES ->
        ~ Quiz.incorrectSelection (Guesser.correctEffectiveness st) (Guesser.selectedTypes st) T)
     /\ (forall T, T ∈ Registry.POKEMON_TYPES ->
        ~ Quiz.missedType (Guesser.correctEffectiveness st) (Guesser.selectedTypes st) T)
     /\ ((exists T, T ∈ Registry.POKEMON_TYPES
                    /\ Quiz.superEffective (Guesser.correctEffectiveness st) T) ->
         Guesser.selectedTypes st <> ∅))
  /\ ((forall T, T ∈ Registry.POKEMON_TYPES ->
         (Registry.td_name T ∈ Guesser.selectedTypes st <->
          Quiz.superEffective (Guesser.correctEffectiveness st) T)) ->
      Guesser.gameWon (Guesser.handleCheckAnswers now st) = true)
  /\ ((exists T, T ∈ Registry.POKEMON_TYPES
         /\ Quiz.missedType (Guesser.correctEffectiveness st) (Guesser.selectedTypes st) T) ->
      Guesser.gameWon (Guesser.handleCheckAnswers now st) = false)
  /\ ((exists T, T ∈ Registry.POKEMON_TYPES
         /\ Quiz.incorrectSelection (Guesser.correctEffectiveness st) (Guesser.selectedTypes st) T) ->
      Guesser.gameWon (Guesser.handleCheckAnswers now st) = false)
  /\ ((forall T, T ∈ Registry.POKEMON_TYPES ->
         ~ Quiz.superEffective (Guesser.correctEffectiveness st) T) ->
      (Guesser.selectedTypes st = ∅ ->
       Guesser.gameWon (Guesser.handleCheckAnswers now st) = true)
      /\ (Guesser.selectedTypes st <> ∅ ->
          Guesser.gameWon (Guesser.handleCheckAnswers now st) = false)).
Proof.
  set (m := Guesser.correctEffectiveness st).
  set (sel := Guesser.selectedTypes st).
  intros Htable Hsel.
  pose proof (won_iff_agree m sel Htable now st eq_refl eq_refl) as Hwon.
  pose proof (below_iff_not_super m Htable) as Hbelow.
  assert (forall T, T ∈ Registry.POKEMON_TYPES -> Quiz.missedType m sel T ->
            Guesser.gameWon (Guesser.handleCheckAnswers now st) = false) as Hmissed.
  { intros T HT [Hout Hsup]. apply not_true_iff_false. intros Hw.
    apply Hout. by apply (proj1 Hwon Hw T HT). }
  assert (forall T, T ∈ Registry.POKEMON_TYPES -> Quiz.incorrectSelection m sel T ->
            Guesser.gameWon (Guesser.handleCheckAnswers now st) = false) as Hincorrect.
  { intros T HT [Hin Hlow]. apply not_true_iff_false. intros Hw.
    apply (Hbelow T HT) in Hlow. apply Hlow. by apply (proj1 Hwon Hw T HT). }
  repeat split.
  - intros T HT Hbad. rewrite (Hincorrect T HT Hbad) in H. done.
  - intros T HT Hbad. rewrite (Hmissed T HT Hbad) in H. done.
  - intros (T & HT & Hsup) Hempty.
    apply (proj1 Hwon H T HT) in Hsup. fold sel in Hempty.
    rewrite Hempty in Hsup. by apply not_elem_of_empty in Hsup.
  - intros (Hinc & Hmis & _). apply Hwon. intros T HT. split.
    + intros Hin. destruct (Quiz.super m T) eqn:Hs; [by apply super_iff|].
      exfalso. apply (Hinc T HT). split; [done|].
      apply (Hbelow T HT). intros Hsup. apply super_iff in Hsup. congruence.
    + intros Hsup. destruct (decide (Registry.td_name T ∈ sel)) as [|Hout]; [done|].
      exfalso. by apply (Hmis T HT).
  - intros H. by apply Hwon.
  - intros (T & HT & Hbad). by apply (Hmissed T HT).
  - intros (T & HT & Hbad). by apply (Hincorrect T HT).
  - intros Hempty. apply Hwon. intros T HT. split.
    + fold sel in Hempty. rewrite Hempty. intros Hin.
      by apply not_elem_of_empty in Hin.
    + intros Hsup. by apply H in Hsup.
  - intros Hne. apply not_true_iff_false. intros Hw.
    fold sel in Hne. apply set_choose_L in Hne as [x Hx].
    pose proof (Hsel x Hx) as Hreg. apply elem_of_list_to_set in Hreg.
    unfold Quiz.typeNames in Hreg. apply list_elem_of_fmap in Hreg as (T & -> & HT).
    apply (H T HT). by apply (proj1 Hwon Hw T HT).
Qed.

Lemma grassPoisonTable_is_table : Quiz.effectivenessTable Samples.grassPoisonTable.
Proof.
  split.
  - apply (bool_decide_unpack _). vm_compute. exact I.
  - apply (bool_decide_unpack _). vm_compute. exact I.
Defined.

Lemma grassPoisonAnswer_is_selection : Quiz.selection Samples.grassPoisonAnswer.
Proof. apply (bool_decide_unpack _). vm_compute. exact I. Defined.

Lemma quiz_win_iff_exact_selection_witness :
  Quiz.effectivenessTable Samples.grassPoisonTable
  /\ Quiz.selection Samples.grassPoisonAnswer
  /\ ((exists T, T ∈ Registry.POKEMON_TYPES
         /\ Quiz.incorrectSelection Samples.grassPoisonTable Samples.grassPoisonAnswer T) ->
      Guesser.gameWon
        (Guesser.handleCheckAnswers 0
           (Samples.quizState Samples.grassPoisonTable Samples.grassPoisonAnswer)) = false).
Proof.
  split; [exact grassPoisonTable_is_table|].
  split; [exact grassPoisonAnswer_is_selection|].
  exact (proj1 (proj2 (proj2 (proj2
    (quiz_win_iff_exact_selection 0
       (Samples.quizState Samples.grassPoisonTable Samples.grassPoisonAnswer)
       grassPoisonTable_is_table grassPoisonAnswer_is_selection))))).
Defined.

(** ** The label of one type *)

Lemma label_cases (m : gmap string Js.number) (sel : gset string)
    (T : Registry.TypeData) (q : Q) :
  m !! Registry.td_name T = Some (Js.Num q) ->
  (Quiz.labelOf m sel T = Guesser.CORRECT <-> Registry.td_name T ∈ sel /\ (2 <= q)%Q)
  /\ (Quiz.labelOf m sel T = Guesser.INCORRECT <-> Registry.td_name T ∈ sel /\ (q < 2)%Q)
  /\ (Quiz.labelOf m sel T = Guesser.MISSED <-> (Registry.td_name T ∉ sel) /\ (2 <= q)%Q)
  /\ (Quiz.labelOf m sel T = Guesser.NONE <-> (Registry.td_name T ∉ sel) /\ (q < 2)%Q).
Proof.
  intros Hq. unfold Quiz.labelOf, Quiz.picked.
  assert (Quiz.super m T = true <-> (2 <= q)%Q) as Hsup.
  { rewrite super_iff. split.
    - intros (q' & Hq' & Hle). rewrite Hq in Hq'. by injection Hq' as <-.
    - intros Hle. by exists q. }
  pose proof (super_false_iff m T q Hq) as Hlow.
  destruct (Quiz.super m T) eqn:Hs.
  - assert (2 <= q)%Q as Hle by (by apply Hsup).
    assert (~ (q < 2)%Q) as Hnlt by (intros Hlt; by apply Hlow in Hlt).
    destruct (decide (Registry.td_name T ∈ sel)) as [Hin|Hout].
    + rewrite bool_decide_eq_true_2 by done. intuition (done || discriminate).
    + rewrite bool_decide_eq_false_2 by done. intuition (done || discriminate).
  - assert (q < 2)%Q as Hlt by (by apply Hlow).
    assert (~ (2 <= q)%Q) as Hnle by (intros Hle; by apply Hsup in Hle).
    destruct (decide (Registry.td_name T ∈ sel)) as [Hin|Hout].
    + rewrite bool_decide_eq_true_2 by done. intuition (done || discriminate).
    + rewrite bool_decide_eq_false_2 by done. intuition (done || discriminate).
Qed.

(** C4.  For every selection and every effectiveness table the
    classification of [handleCheckAnswers] is total: its result has an
    entry for each of the 18 types and for nothing else.  A type whose
    multiplier in the table is [q] is CORRECT iff selected and [q >= 2],
    INCORRECT iff selected and [q < 2], MISSED iff not selected and
    [q >= 2] (and NONE otherwise); a multiplier of 4 is super effective and
    a multiplier of 1 or below never is. *)
Theorem quiz_classification_by_threshold (now : Z) (st : Guesser.State)
    (T : Registry.TypeData) (q : Q) :
  T ∈ Registry.POKEMON_TYPES ->
  Guesser.correctEffectiveness st !! Registry.td_name T = Some (Js.Num q) ->
  dom (Guesser.typeCheckResults (Guesser.handleCheckAnswers now st))
    = list_to_set Quiz.typeNames
  /\ (exists label,
        Guesser.typeCheckResults (Guesser.handleCheckAnswers now st)
          !! Registry.td_name T = Some label)
  /\ (Guesser.typeCheckResults (Guesser.handleCheckAnswers now st)
        !! Registry.td_name T = Some Guesser.CORRECT
      <-> Registry.td_name T ∈ Guesser.selectedTypes st /\ (2 <= q)%Q)
  /\ (Guesser.typeCheckResults (Guesser.handleCheckAnswers now st)
        !! Registry.td_name T = Some Guesser.INCORRECT
      <-> Registry.td_name T ∈ Guesser.selectedTypes st /\ (q < 2)%Q)
  /\ (Guesser.typeCheckResults (Guesser.handleCheckAnswers now st)
        !! Registry.td_name T = Some Guesser.MISSED
      <-> (Registry.td_name T ∉ Guesser.selectedTypes st) /\ (2 <= q)%Q)
  /\ (Guesser.typeCheckResults (Guesser.handleCheckAnswers now st)
        !! Registry.td_name T = Some Guesser.NONE
      <-> (Registry.td_name T ∉ Guesser.selectedTypes st) /\ (q < 2)%Q)
  /\ ((q == 4)%Q ->
      Guesser.typeCheckResults (Guesser.handleCheckAnswers now st)
        !! Registry.td_name T
      = Some (if bool_decide (Registry.td_name T ∈ Guesser.selectedTypes st)
              then Guesser.CORRECT else Guesser.MISSED))
  /\ ((q <= 1)%Q ->
      Guesser.typeCheckResults (Guesser.handleCheckAnswers now st)
        !! Registry.td_name T
      = Some (if bool_decide (Registry.td_name T ∈ Guesser.selectedTypes st)
              then Guesser.INCORRECT else Guesser.NONE)).
Proof.
  intros HT Hq.
  set (m := Guesser.correctEffectiveness st) in *.
  set (sel := Guesser.selectedTypes st).
  rewrite (results_lookup m sel now st T eq_refl eq_refl HT).
  split; [exact (results_dom m sel now st eq_refl eq_refl)|].
  split; [by eexists|].
  destruct (label_cases m sel T q Hq) as (Hc & Hi & Hm & Hn).
  assert (forall l l' : Guesser.TypeCheckResult, Some l = Some l' <-> l = l') as Hsome.
  { intros l l'. split; [by intros [= ->]|by intros ->]. }
  rewrite !Hsome. repeat split; try tauto.
  - intros H4. f_equal. case_bool_decide.
    + apply Hc. split; [done|]. rewrite H4. done.
    + apply Hm. split; [done|]. rewrite H4. done.
  - intros H1. f_equal.
    assert (q < 2)%Q by (eapply Qle_lt_trans; [exact H1|done]).
    case_bool_decide; [by apply Hi|by apply Hn].
Qed.

Lemma Fire_in_registry : Samples.Fire ∈ Registry.POKEMON_TYPES.
Proof. unfold Registry.POKEMON_TYPES. do 1 apply list_elem_of_further. apply list_elem_of_here. Defined.

Lemma Water_in_registry : Samples.Water ∈ Registry.POKEMON_TYPES.
Proof. unfold Registry.POKEMON_TYPES. do 2 apply list_elem_of_further. apply list_elem_of_here. Defined.

Lemma Ground_in_registry : Samples.Ground ∈ Registry.POKEMON_TYPES.
Proof. unfold Registry.POKEMON_TYPES. do 8 apply list_elem_of_further. apply list_elem_of_here. Defined.

Lemma quiz_classification_by_threshold_witness :
  Guesser.typeCheckResults
    (Guesser.handleCheckAnswers 0
       (Samples.quizState Samples.grassPoisonTable Samples.grassPoisonAnswer))
    !! "Fire" = Some Guesser.CORRECT
  <-> "Fire" ∈ Samples.grassPoisonAnswer /\ (2 <= 2)%Q.
Proof.
  refine (proj1 (proj2 (proj2
    (quiz_classification_by_threshold 0
       (Samples.quizState Samples.grassPoisonTable Samples.grassPoisonAnswer)
       Samples.Fire 2 Fire_in_registry _)))).
  vm_compute. reflexivity.
Defined.

(** C10.  The scoring is total over any effectiveness map, empty and
    partial ones included: every type of the registry gets a label.  A
    type that the map lacks and a type whose multiplier is exactly 0 are
    both read as multiplier 1 by [|| 1], hence classified as not super
    effective: INCORRECT when selected, NONE otherwise. *)
Theorem quiz_scoring_total_with_default (now : Z) (st : Guesser.State)
    (T : Registry.TypeData) :
  T ∈ Registry.POKEMON_TYPES ->
  (exists label,
      Guesser.typeCheckResults (Guesser.handleCheckAnswers now st)
        !! Registry.td_name T = Some label)
  /\ ((Guesser.correctEffectiveness st !! Registry.td_name T = None
       \/ exists q, Guesser.correctEffectiveness st !! Registry.td_name T = Some (Js.Num q)
                    /\ (q == 0)%Q) ->
      Js.or_else (Guesser.correctEffectiveness st !! Registry.td_name T) (Js.Num 1)
        = Js.Num 1
      /\ Js.ge (Js.or_else (Guesser.correctEffectiveness st !! Registry.td_name T)
                           (Js.Num 1)) (Js.Num 2) = false
      /\ Guesser.typeCheckResults (Guesser.handleCheckAnswers now st)
           !! Registry.td_name T
         = Some (if bool_decide (Registry.td_name T ∈ Guesser.selectedTypes st)
                 then Guesser.INCORRECT else Guesser.NONE)).
Proof.
  intros HT.
  set (m := Guesser.correctEffectiveness st) in *.
  set (sel := Guesser.selectedTypes st).
  rewrite (results_lookup m sel now st T eq_refl eq_refl HT).
  split; [by eexists|].
  intros Hcase.
  assert (Js.or_else (m !! Registry.td_name T) (Js.Num 1) = Js.Num 1) as Hone.
  { destruct Hcase as [->|(q & -> & Hz)]; [done|].
    cbn. apply Qeq_bool_iff in Hz. by rewrite Hz. }
  split; [done|]. split; [by rewrite Hone|].
  unfold Quiz.labelOf, Quiz.super, Quiz.picked. rewrite Hone. cbn.
  by case_bool_decide.
Qed.

Lemma quiz_scoring_total_with_default_witness :
  Js.or_else (Guesser.correctEffectiveness (Samples.quizState ∅ {[ "Fire" ]})
                !! Registry.td_name Samples.Fire) (Js.Num 1) = Js.Num 1
  /\ Js.ge (Js.or_else (Guesser.correctEffectiveness (Samples.quizState ∅ {[ "Fire" ]})
                          !! Registry.td_name Samples.Fire) (Js.Num 1)) (Js.Num 2) = false
  /\ Guesser.typeCheckResults
       (Guesser.handleCheckAnswers 0 (Samples.quizState ∅ {[ "Fire" ]}))
       !! Registry.td_name Samples.Fire
     = Some (if bool_decide (Registry.td_name Samples.Fire
                               ∈ Guesser.selectedTypes (Samples.quizState ∅ {[ "Fire" ]}))
             then Guesser.INCORRECT else Guesser.NONE).
Proof.
  apply (proj2 (quiz_scoring_total_with_default 0
                  (Samples.quizState ∅ {[ "Fire" ]}) Samples.Fire Fire_in_registry)).
  left. vm_compute. reflexivity.
Defined.

(** ** Joining requests *)

Section All.
Import Eff.
Context {S A B : Type} (f : A -> M S B).

Lemma all_state xs :
  (forall x s, snd (f x s) = s) -> forall s, snd (all f xs s) = s.
Proof.
  intros Hf. induction xs as [|x xs IH]; intros s; [done|].
  cbn [all]. specialize (Hf x s). destruct (f x s) as [[b|e] s1]; cbn in Hf; subst s1.
  - specialize (IH s). by destruct (all f xs s) as [[bs|e] s2].
  - specialize (IH s). by destruct (all f xs s) as [r s2].
Qed.

Lemma all_throw xs x :
  x ∈ xs -> (forall s, exists e, fst (f x s) = Throw e) ->
  forall s, exists e, fst (all f xs s) = Throw e.
Proof.
  intros Hin Hx. induction xs as [|y xs IH]; [by apply elem_of_nil in Hin|].
  intros s. cbn [all]. apply elem_of_cons in Hin as [<-|Hin].
  - destruct (Hx s) as [e He]. destruct (f x s) as [[b|e'] s1]; [done|].
    destruct (all f xs s1) as [r s2]. by exists e'.
  - destruct (f y s) as [[b|e'] s1].
    + destruct (IH Hin s1) as [e He].
      destruct (all f xs s1) as [[bs|e''] s2]; [done|]. by exists e''.
    + destruct (all f xs s1) as [r s2]. by exists e'.
Qed.

Lemma all_return xs :
  (forall x s, snd (f x s) = s) ->
  forall s ys, fst (all f xs s) = Return ys ->
  Forall2 (fun x y => fst (f x s) = Return y) xs ys.
Proof.
  intros Hf. induction xs as [|x xs IH]; intros s ys Hys.
  - cbn in Hys. injection Hys as <-. constructor.
  - cbn [all] in Hys. pose proof (Hf x s) as Hs.
    destruct (f x s) as [[b|e] s1] eqn:Hx; cbn in Hs; subst s1.
    + destruct (all f xs s) as [[bs|e] s2] eqn:Hall; [|done].
      cbn in Hys. injection Hys as <-. constructor; [by rewrite Hx|].
      apply IH. by rewrite Hall.
    + by destruct (all f xs s) as [r s2].
Qed.

Lemma all_outcome xs :
  (forall x s, snd (f x s) = s) ->
  (forall x s s', fst (f x s) = fst (f x s')) ->
  forall s s', fst (all f xs s) = fst (all f xs s').
Proof.
  intros Hf Hi. induction xs as [|x xs IH]; intros s s'; [done|].
  cbn [all]. pose proof (Hf x s) as H1. pose proof (Hf x s') as H2.
  pose proof (Hi x s s') as H3.
  destruct (f x s) as [r1 s1], (f x s') as [r2 s2]. cbn in *. subst.
  specialize (IH s s').
  destruct (all f xs s) as [r1 s1], (all f xs s') as [r3 s3]. cbn in IH. subst.
  destruct r2; [by destruct r3|done].
Qed.
End All.

(** ** A run of [startNewGame] *)

Section NewGame.
Import Js Eff Registry Api Guesser Failure.
Variable w : World.

Lemma fetchTypeDetails_state k url s : snd (fetchTypeDetails w k url s) = s.
Proof.
  unfold fetchTypeDetails.
  destruct (fetchType w k url) as [e|[] status [e|d]]; reflexivity.
Qed.

Lemma fetchTypeDetails_unreachable k url s :
  unreachable (fetchType w k url) -> exists e, fst (fetchTypeDetails w k url s) = Throw e.
Proof.
  unfold fetchTypeDetails, unreachable.
  destruct (fetchType w k url) as [e|[] status [e|d]]; cbn; eauto.
  intros [?|[? ?]]; done.
Qed.

Lemma fetchTypeDetails_return k url s d :
  fst (fetchTypeDetails w k url s) = Return d ->
  exists status, fetchType w k url = Responded true status (inr d).
Proof.
  unfold fetchTypeDetails.
  destruct (fetchType w k url) as [e|[] status [e|d']]; cbn; try done.
  intros [= ->]. by exists status.
Qed.

(** [calculateEffectiveness] either rejects and leaves the state as it
    was, or sets the table computed from the records of all defending
    types. *)
Lemma calculateEffectiveness_cases k p s :
  (exists e, calculateEffectiveness w k p s = (Throw e, s))
  \/ (exists ds,
        Forall2 (fun slot d => exists status,
                   fetchType w k (nr_url (ts_type slot)) = Responded true status (inr d))
                (pk_types p) ds
        /\ calculateEffectiveness w k p s =
             (Return tt, setCorrectEffectiveness (calculatedEffectivenessMap ds) s)).
Proof.
  unfold calculateEffectiveness, bind.
  set (f := fun pt : TypeSlot => fetchTypeDetails w k (nr_url (ts_type pt))).
  assert (forall x s0, snd (f x s0) = s0) as Hf
    by (intros; apply fetchTypeDetails_state).
  pose proof (all_state f (pk_types p) Hf s) as Hs.
  pose proof (all_return f (pk_types p) Hf s) as Hr.
  destruct (all f (pk_types p) s) as [[ds|e] s1]; cbn in Hs; subst s1.
  - right. exists ds. split; [|reflexivity].
    specialize (Hr ds eq_refl).
    eapply Forall2_impl; [exact Hr|]. intros slot d Hd.
    by apply fetchTypeDetails_return in Hd.
  - left. by exists e.
Qed.

Lemma calculateEffectiveness_unreachable k p s slot :
  slot ∈ pk_types p ->
  unreachable (fetchType w k (nr_url (ts_type slot))) ->
  exists e, calculateEffectiveness w k p s = (Throw e, s).
Proof.
  intros Hin Hun.
  destruct (calculateEffectiveness_cases k p s) as [?|(ds & Hall & _)]; [done|].
  exfalso. apply list_elem_of_lookup in Hin as [i Hi].
  destruct (Forall2_lookup_l _ _ _ _ _ Hall Hi) as (d & _ & status & Hd).
  rewrite Hd in Hun. cbn in Hun. destruct Hun as [?|[? ?]]; done.
Qed.

(** What an iteration of the loop leaves behind. *)
Lemma attempt_cases k s :
  (exists s', attempt w k s = (Return Retries, s')
              /\ error s' = error s
              /\ correctEffectiveness s' = correctEffectiveness s)
  \/ (exists p ds,
        Forall2 (fun slot d => exists status,
                   fetchType w k (nr_url (ts_type slot)) = Responded true status (inr d))
                (pk_types p) ds
        /\ attempt w k s =
             (Return Returns,
              setIsLoading false
                (setCorrectEffectiveness (calculatedEffectivenessMap ds)
                   (setCurrentPokemon (Some p) s)))).
Proof.
  destruct (attempt w k s) as [r s'] eqn:Hrun.
  unfold attempt, try_catch in Hrun.
  destruct (fetchPokemon w k _) as [e|ok status body].
  { injection Hrun as <- <-. left. eexists. split; [reflexivity|done]. }
  destruct ok; cbn [negb] in Hrun.
  2:{ destruct (status =? 404)%Z; injection Hrun as <- <-;
        left; eexists; (split; [reflexivity|done]). }
  destruct body as [e|data].
  { injection Hrun as <- <-. left. eexists. split; [reflexivity|done]. }
  destruct (negb (truthy_str _)).
  { injection Hrun as <- <-. left. eexists. split; [reflexivity|done]. }
  unfold bind at 1 in Hrun. cbn [modify] in Hrun.
  set (p := {| pk_id := _ |}) in Hrun.
  set (s1 := setCurrentPokemon (Some p) s) in Hrun.
  unfold bind at 1 in Hrun.
  destruct (calculateEffectiveness_cases k p s1) as [[e He]|(ds & Hall & He)];
    rewrite He in Hrun; cbn in Hrun; injection Hrun as <- <-.
  - left. eexists. split; [reflexivity|done].
  - right. exists p, ds. split; [exact Hall|reflexivity].
Qed.

Lemma fetchTypeDetails_outcome k url s s' :
  fst (fetchTypeDetails w k url s) = fst (fetchTypeDetails w k url s').
Proof.
  unfold fetchTypeDetails.
  destruct (fetchType w k url) as [e|[] status [e|d]]; reflexivity.
Qed.

Lemma calculateEffectiveness_outcome k p s s' :
  fst (calculateEffectiveness w k p s) = fst (calculateEffectiveness w k p s').
Proof.
  unfold calculateEffectiveness, bind.
  set (f := fun pt : TypeSlot => fetchTypeDetails w k (nr_url (ts_type pt))).
  assert (forall x s0, snd (f x s0) = s0) as Hf
    by (intros; apply fetchTypeDetails_state).
  assert (forall x s0 s1, fst (f x s0) = fst (f x s1)) as Hi
    by (intros; apply fetchTypeDetails_outcome).
  pose proof (all_outcome f (pk_types p) Hf Hi s s') as Ho.
  destruct (all f (pk_types p) s) as [r1 s1], (all f (pk_types p) s') as [r2 s2].
  cbn in Ho. subst r2. by destruct r1.
Qed.

(** Whether an iteration returns depends on the answers alone. *)
Lemma attempt_outcome k s s' : fst (attempt w k s) = fst (attempt w k s').
Proof.
  destruct (attempt w k s) as [r1 t1] eqn:H1.
  destruct (attempt w k s') as [r2 t2] eqn:H2.
  unfold attempt, try_catch in H1, H2. cbn [fst].
  destruct (fetchPokemon w k _) as [e|ok status body]; [by injection H1 as <- <-; injection H2 as <- <-|].
  destruct ok; cbn [negb] in H1, H2.
  2:{ destruct (status =? 404)%Z; by injection H1 as <- <-; injection H2 as <- <-. }
  destruct body as [e|data]; [by injection H1 as <- <-; injection H2 as <- <-|].
  destruct (negb (truthy_str _)); [by injection H1 as <- <-; injection H2 as <- <-|].
  unfold bind at 1 in H1. unfold bind at 1 in H2. cbn [modify] in H1, H2.
  set (p0 := {| pk_id := _ |}) in H1, H2.
  unfold bind at 1 in H1. unfold bind at 1 in H2.
  pose proof (calculateEffectiveness_outcome k p0
                (setCurrentPokemon (Some p0) s) (setCurrentPokemon (Some p0) s')) as Ho.
  destruct (calculateEffectiveness w k p0 (setCurrentPokemon (Some p0) s)) as [q1 u1],
           (calculateEffectiveness w k p0 (setCurrentPokemon (Some p0) s')) as [q2 u2].
  cbn in Ho. subst q2. destruct q1; by injection H1 as <- <-; injection H2 as <- <-.
Qed.

Lemma attempt_noCreature k s :
  noCreature w k -> fst (attempt w k s) = Return Retries.
Proof.
  unfold noCreature, attempt, try_catch.
  destruct (fetchPokemon w k _) as [e|ok status body]; [done|].
  intros [->|Hbody].
  - cbn [negb]. by destruct (status =? 404)%Z.
  - destruct ok; cbn [negb]; [|by destruct (status =? 404)%Z].
    destruct body as [e|data]; [done|]. by rewrite Hbody.
Qed.

Lemma attemptLoop_spec fuel : forall k st,
  (k <= 5)%nat -> (5 - k <= fuel)%nat ->
  exists a st',
    attemptLoop fuel w k st = Some (a, st')
    /\ (k <= a <= 5)%nat
    /\ isLoading st' = false
    /\ (forall j s, (k <= j < a)%nat -> fst (attempt w j s) = Return Retries)
    /\ ((a < 5)%nat ->
        (forall s, fst (attempt w a s) = Return Returns) /\ error st' = error st)
    /\ (a = 5%nat -> error st' = Some exhausted).
Proof.
  induction fuel as [|fuel IH]; intros k st Hk Hfuel.
  - assert (k = 5%nat) as -> by lia. cbn.
    eexists _, _. split; [reflexivity|]. repeat split; try lia; try done.
  - cbn [attemptLoop]. destruct (Nat.ltb_spec k 5) as [Hlt|Hge].
    + destruct (attempt_cases k st) as [(s1 & Hrun & Herr & _)|(p & ds & _ & Hrun)].
      * rewrite Hrun.
        destruct (IH (S k) s1) as (a & st' & Hloop & Ha & Hload & Hretry & Hok & Hex);
          [lia|lia|].
        exists a, st'. split; [done|]. split; [lia|]. split; [done|].
        split; [|split].
        -- intros j s [Hj1 Hj2]. destruct (decide (j = k)) as [->|Hne].
           ++ rewrite (attempt_outcome k s st), Hrun. done.
           ++ apply Hretry. lia.
        -- intros Ha5. destruct (Hok Ha5) as [Hret Herr']. split; [done|congruence].
        -- done.
      * rewrite Hrun. eexists _, _. split; [reflexivity|].
        split; [lia|]. split; [done|]. split; [|split].
        -- intros j s ?. lia.
        -- intros _. split; [|done]. intros s. by rewrite (attempt_outcome k s st), Hrun.
        -- lia.
    + assert (k = 5%nat) as -> by lia.
      eexists _, _. split; [reflexivity|]. repeat split; try lia; try done.
Qed.
End NewGame.


(** C8.  [startNewGame] ends after at most 5 iterations of its loop, for
    whatever the network answers.  The final value [attempts] of its
    counter says how: every iteration before it failed and was retried; a
    fetch error, a status that is not a success, an unreadable body and a
    creature without sprite all make an iteration fail; with
    [attempts < 5] the iteration numbered [attempts] succeeded and no
    error is shown; with [attempts = 5] every attempt failed and the
    terminal error message is set.  In both cases loading has ended. *)
Theorem startNewGame_retries_at_most_five_times
    (fuel : nat) (w : Guesser.World) (now : Z) (st : Guesser.State) :
  (5 <= fuel)%nat ->
  exists attempts st',
    Guesser.startNewGame fuel w now st = Some (attempts, st')
    /\ (attempts <= 5)%nat
    /\ Guesser.isLoading st' = false
    /\ (forall j s, (j < attempts)%nat ->
          fst (Guesser.attempt w j s) = Eff.Return Guesser.Retries)
    /\ (forall j s, Failure.noCreature w j ->
          fst (Guesser.attempt w j s) = Eff.Return Guesser.Retries)
    /\ ((attempts < 5)%nat ->
          (forall s, fst (Guesser.attempt w attempts s) = Eff.Return Guesser.Returns)
          /\ Guesser.error st' = None)
    /\ (attempts = 5%nat -> Guesser.error st' = Some Failure.exhausted).
Proof.
  intros Hfuel. unfold Guesser.startNewGame.
  set (st0 := Guesser.setStartTime _ _).
  destruct (attemptLoop_spec w fuel 0 st0) as (a & st' & Hloop & Ha & Hload & Hretry & Hok & Hex);
    [lia|lia|].
  exists a, st'. split; [done|]. split; [lia|]. split; [done|].
  split; [|split; [|split]].
  - intros j s Hj. apply Hretry. lia.
  - intros j s Hj. by apply attempt_noCreature.
  - intros Ha5. destruct (Hok Ha5) as [Hret Herr]. split; [done|]. by rewrite Herr.
  - done.
Qed.

Lemma startNewGame_retries_at_most_five_times_witness :
  exists attempts st',
    Guesser.startNewGame 5 Worlds.offlineQuiz 0 Guesser.initialState = Some (attempts, st')
    /\ (attempts <= 5)%nat
    /\ Guesser.isLoading st' = false
    /\ (forall j s, (j < attempts)%nat ->
          fst (Guesser.attempt Worlds.offlineQuiz j s) = Eff.Return Guesser.Retries)
    /\ (forall j s, Failure.noCreature Worlds.offlineQuiz j ->
          fst (Guesser.attempt Worlds.offlineQuiz j s) = Eff.Return Guesser.Retries)
    /\ ((attempts < 5)%nat ->
          (forall s, fst (Guesser.attempt Worlds.offlineQuiz attempts s)
                     = Eff.Return Guesser.Returns)
          /\ Guesser.error st' = None)
    /\ (attempts = 5%nat -> Guesser.error st' = Some Failure.exhausted).
Proof.
  apply (startNewGame_retries_at_most_five_times 5 Worlds.offlineQuiz 0 Guesser.initialState).
  lia.
Defined.

(** ** The effectiveness table of the quiz *)

Section QuizTable.
Import Js Registry Api Guesser Chart.
Local Open Scope Q_scope.

Lemma names_listed T l : names T l = listed T l.
Proof.
  unfold names, listed. induction l as [|t l IH]; cbn [existsb fmap list_fmap].
  - symmetry. apply bool_decide_eq_false. by intros ?%elem_of_nil.
  - rewrite IH. destruct (String.eqb_spec (nr_name t) (toLowerCase (td_name T))) as [Heq|Hne].
    + symmetry. apply bool_decide_eq_true. rewrite <- Heq. apply list_elem_of_here.
    + cbn. apply bool_decide_ext. rewrite elem_of_cons. naive_solver.
Qed.

Lemma currentMultiplier_factor d T :
  currentMultiplier d T = Num (relationFactor d T).
Proof.
  unfold currentMultiplier, relationFactor. rewrite !names_listed.
  by repeat destruct (listed T _).
Qed.

Lemma finalMultiplier_from ds T : forall a,
  exists q,
    foldl (fun acc d => mul acc (currentMultiplier d T)) (Num a) ds = Num q
    /\ q == a * combinedFactor ds T.
Proof.
  induction ds as [|d ds IH]; intros a.
  - exists a. split; [done|]. cbn. ring.
  - cbn [foldl combinedFactor foldr]. rewrite currentMultiplier_factor. cbn [mul].
    destruct (IH (a * relationFactor d T)) as (q & -> & Hq).
    exists q. split; [done|]. rewrite Hq. unfold combinedFactor. ring.
Qed.

Lemma calculatedEffectivenessMap_lookup ds T :
  T ∈ POKEMON_TYPES ->
  exists q, calculatedEffectivenessMap ds !! td_name T = Some (Num q)
            /\ q == combinedFactor ds T.
Proof.
  intros HT. unfold calculatedEffectivenessMap.
  rewrite (fill_lookup td_name (finalMultiplier ds)) by (apply typeNames_NoDup || done).
  destruct (finalMultiplier_from ds T 1) as (q & Hq & Heq).
  exists q. split; [by f_equal|]. rewrite Heq. ring.
Qed.
End QuizTable.

(** ** The six values *)

Section Domain.
Import Api Registry Chart.
Local Open Scope Q_scope.



End Domain.

(** ** The effectiveness map of the detail page *)

Lemma lower_keys_NoDup :
  NoDup ((fun T => Js.toLowerCase (Registry.td_name T)) <$> Registry.POKEMON_TYPES).
Proof. apply (bool_decide_unpack _). vm_compute. exact I. Qed.


Section DetailTable.
Import Js Registry Api Detail Chart.
Local Open Scope Q_scope.

Local Abbreviation keys l := (toLowerCase <$> (nr_name <$> l)).







Lemma initialEffectivenessMap_lookup T :
  T ∈ POKEMON_TYPES -> initialEffectivenessMap !! toLowerCase (td_name T) = Some (Num 1).
Proof.
  intros HT. unfold initialEffectivenessMap.
  apply (fill_lookup (fun T => toLowerCase (td_name T)) (fun _ => Num 1));
    [apply lower_keys_NoDup|done].
Qed.


(** Whatever the records hold, the entry of a registry type is a
    finite number: it starts at 1 and is only ever multiplied by 2, 0.5
    or 0. *)
Lemma scale_fold_finite c l : forall (m : gmap string number) k a,
  m !! k = Some (Num a) -> exists q, foldl (scale (Num c)) m l !! k = Some (Num q).
Proof.
  induction l as [|t l IH]; intros m k a Hm; [by exists a|].
  cbn [foldl]. unfold scale at 2.
  destruct (decide (toLowerCase (nr_name t) = k)) as [->|Hne].
  - eapply IH. rewrite lookup_insert_eq, Hm. cbn. reflexivity.
  - eapply IH. rewrite lookup_insert_ne by done. exact Hm.
Qed.

Lemma effectivenessMap_finite ds T :
  T ∈ POKEMON_TYPES ->
  exists q, effectivenessMap ds !! toLowerCase (td_name T) = Some (Num q).
Proof.
  intros HT. unfold effectivenessMap.
  pose proof (initialEffectivenessMap_lookup T HT) as Hinit.
  revert Hinit. generalize initialEffectivenessMap. generalize 1.
  induction ds as [|d ds IH]; intros a m Hm; [by exists a|].
  cbn [foldl]. unfold applyTypeDetail at 2.
  destruct (scale_fold_finite 2 (double_damage_from (damage_relations d)) m _ a Hm) as [q1 H1].
  destruct (scale_fold_finite (1 # 2) (half_damage_from (damage_relations d)) _ _ q1 H1) as [q2 H2].
  destruct (scale_fold_finite 0 (no_damage_from (damage_relations d)) _ _ q2 H2) as [q3 H3].
  by eapply IH.
Qed.
End DetailTable.




(** ** Sorting the table *)

Section Sorted.
Import Js Registry Api Detail.

Lemma insertEntry_perm x l : insertEntry x l ≡ₚ x :: l.
Proof.
  induction l as [|y l IH]; [done|]. cbn [insertEntry].
  destruct (lt (te_multiplier x) (te_multiplier y)); [|done].
  rewrite IH. apply Permutation_swap.
Qed.

Lemma sortDescending_perm l : sortDescending l ≡ₚ l.
Proof.
  induction l as [|x l IH]; [done|]. cbn [sortDescending foldr].
  fold (sortDescending l). by rewrite insertEntry_perm, IH.
Qed.

Lemma sortDescending_length l : length (sortDescending l) = length l.
Proof. by rewrite sortDescending_perm. Qed.

(** The entries of the table are those of the registry, each with the
    value the map holds under the lower-case name. *)
Lemma sortedEffectiveness_elem (m : gmap string number) e :
  e ∈ sortedEffectiveness m <->
  exists T, T ∈ POKEMON_TYPES
            /\ e = {| te_name := td_name T;
                      te_multiplier := nullish (m !! toLowerCase (td_name T)) (Num 1) |}.
Proof.
  unfold sortedEffectiveness. rewrite sortDescending_perm, list_elem_of_fmap.
  naive_solver.
Qed.

Lemma sortedEffectiveness_multiplier (m : gmap string number) e :
  e ∈ sortedEffectiveness m ->
  te_multiplier e = nullish (m !! toLowerCase (te_name e)) (Num 1).
Proof. intros (T & _ & ->)%sortedEffectiveness_elem. reflexivity. Qed.

Lemma sortedEffectiveness_has (m : gmap string number) T :
  T ∈ POKEMON_TYPES -> exists e, e ∈ sortedEffectiveness m /\ te_name e = td_name T.
Proof.
  intros HT. eexists. split; [apply sortedEffectiveness_elem; by exists T|done].
Qed.

Lemma sortedEffectiveness_length (m : gmap string number) :
  length (sortedEffectiveness m) = 18%nat.
Proof. unfold sortedEffectiveness. by rewrite sortDescending_length, length_fmap. Qed.
End Sorted.

(** ** The ability override *)

Section Override.
Import Js Registry Api Detail.
Local Open Scope Q_scope.

Lemma ground_base typesData :
  exists base, effectivenessMap typesData !! "ground" = Some (Num base).
Proof. exact (effectivenessMap_finite typesData Samples.Ground Ground_in_registry). Qed.

Lemma nonzero_Num q : nonzero (Num q) = true <-> ~ q == 0.
Proof.
  cbn. rewrite negb_true_iff, <- not_true_iff_false. by rewrite Qeq_bool_iff.
Qed.

Lemma ground_key T :
  T ∈ POKEMON_TYPES -> toLowerCase (td_name T) = "ground" -> td_name T = "Ground".
Proof.
  revert T.
  apply (proj1 (Forall_forall
    (fun T => toLowerCase (td_name T) = "ground" -> td_name T = "Ground") POKEMON_TYPES)).
  unfold POKEMON_TYPES. repeat constructor; vm_compute; intros; congruence.
Qed.

Lemma hasLevitate_iff abilities :
hasLevitate abilities = true <->
exists a, a ∈ abilities /\ toLowerCase (nr_name (ability a)) = "levitate".
Proof.
unfold hasLevitate. rewrite existsb_exists. split.
- intros (a & Hin & Heq). exists a. split; [by apply list_elem_of_In|].
  by apply String.eqb_eq.
- intros (a & Hin & Heq). exists a. split; [by apply list_elem_of_In|].
  by apply String.eqb_eq.
Qed.

Lemma overrideGround_cases abilities (m : gmap string number) base :
  m !! "ground" = Some (Num base) ->
  (hasLevitate abilities = true /\ ~ base == 0
   /\ overrideGround abilities m
       = (<["ground" := Num 0]> m, Some "Immune to Ground due to Levitate."))
  \/ ((hasLevitate abilities = false \/ base == 0)
      /\ overrideGround abilities m = (m, None)).
Proof.
  intros Hm. unfold overrideGround. rewrite Hm. cbn [to_number].
  destruct (hasLevitate abilities); cbn [andb]; [|right; by split; [left|]].
  destruct (nonzero (Num base)) eqn:Hnz.
  - left. apply nonzero_Num in Hnz. done.
  - right. split; [|done]. right.
    destruct (Qeq_dec base 0) as [|Hne]; [done|].
    apply nonzero_Num in Hne. congruence.
Qed.
End Override.

(** C2 (amended).  The override of lines 163-168 acts on the map that
    the multiplicative combination produced, whose entry for ground is
    some number [base].  For a creature whose abilities contain levitate
    (in any letter case) the final multiplier of Ground is 0, and the
    annotation is produced exactly when [base] was not 0 already; when
    [base] is 0, as it is for a creature of the flying type, nothing is
    overridden and no annotation is produced.  Without the ability the
    Ground multiplier is [base] and there is no annotation.  The
    multipliers of the other types are never touched. *)
Theorem levitate_zeroes_ground_after_combination
    (abilities : list Detail.AbilityInfo) (typesData : list Api.TypeDetail) :
  exists base,
    Detail.effectivenessMap typesData !! "ground" = Some (Js.Num base)
    /\ (Detail.hasLevitate abilities = true <->
        exists a, a ∈ abilities
                  /\ Js.toLowerCase (Api.nr_name (Detail.ability a)) = "levitate")
    /\ (exists e, e ∈ fst (Detail.computeEffectiveness abilities typesData)
                  /\ Detail.te_name e = "Ground")
    /\ (Detail.hasLevitate abilities = true ->
        (forall e, e ∈ fst (Detail.computeEffectiveness abilities typesData) ->
                   Detail.te_name e = "Ground" ->
                   exists q, Detail.te_multiplier e = Js.Num q /\ (q == 0)%Q)
        /\ (~ (base == 0)%Q ->
            snd (Detail.computeEffectiveness abilities typesData)
            = Some "Immune to Ground due to Levitate.")
        /\ ((base == 0)%Q ->
            snd (Detail.computeEffectiveness abilities typesData) = None))
    /\ (Detail.hasLevitate abilities = false ->
        (forall e, e ∈ fst (Detail.computeEffectiveness abilities typesData) ->
                   Detail.te_name e = "Ground" ->
                   Detail.te_multiplier e = Js.Num base)
        /\ snd (Detail.computeEffectiveness abilities typesData) = None)
    /\ (forall e, e ∈ fst (Detail.computeEffectiveness abilities typesData) ->
                  Detail.te_name e <> "Ground" ->
                  Detail.te_multiplier e
                  = Js.nullish (Detail.effectivenessMap typesData
                                  !! Js.toLowerCase (Detail.te_name e)) (Js.Num 1)).
Proof.
  destruct (ground_base typesData) as [base Hbase]. exists base.
  split; [done|]. split; [apply hasLevitate_iff|]. unfold Detail.computeEffectiveness.
  set (m := Detail.effectivenessMap typesData) in *.
  destruct (overrideGround_cases abilities m base Hbase)
    as [(Hlev & Hnz & ->)|(Hcase & ->)]; cbn [fst snd].
  - split; [apply (sortedEffectiveness_has _ Samples.Ground Ground_in_registry)|].
    split; [|split].
    + intros _. split; [|split].
      * intros e He Hname. exists 0%Q. split; [|done].
        rewrite (sortedEffectiveness_multiplier _ e He), Hname.
        change (Js.toLowerCase "Ground") with "ground". by rewrite lookup_insert_eq.
      * done.
      * intros Hz. by destruct Hnz.
    + congruence.
    + intros e He Hname.
      rewrite (sortedEffectiveness_multiplier _ e He).
      apply sortedEffectiveness_elem in He as (T & HT & ->). cbn [Detail.te_name] in *.
      rewrite lookup_insert_ne; [done|].
      intros Heq. apply Hname. by apply ground_key.
  - split; [apply (sortedEffectiveness_has _ Samples.Ground Ground_in_registry)|].
    assert (forall e, e ∈ Detail.sortedEffectiveness m -> Detail.te_name e = "Ground" ->
                      Detail.te_multiplier e = Js.Num base) as Hground.
    { intros e He Hname. rewrite (sortedEffectiveness_multiplier _ e He), Hname.
      change (Js.toLowerCase "Ground") with "ground". by rewrite Hbase. }
    split; [|split].
    + intros Hlev. destruct Hcase as [Hno|Hz]; [congruence|].
      split; [|split; [|done]].
      * intros e He Hname. exists base. split; [by apply Hground|done].
      * intros Hnz. by destruct Hnz.
    + intros _. split; [exact Hground|done].
    + intros e He _. by apply sortedEffectiveness_multiplier.
Qed.

(** C2 as it was stated fails on a levitating creature of the flying
    type: the combination has already made the Ground multiplier 0, the
    guard [effectivenessMap['ground'] !== 0] of line 165 is false, and no
    annotation is produced. *)
Lemma levitate_on_flying_has_no_annotation :
  Detail.hasLevitate [Samples.levitate] = true
  /\ Detail.effectivenessMap [Samples.flying] !! "ground" = Some (Js.Num 0)
  /\ snd (Detail.computeEffectiveness [Samples.levitate] [Samples.flying]) = None
  /\ ~ (exists text,
          snd (Detail.computeEffectiveness [Samples.levitate] [Samples.flying]) = Some text).
Proof.
  split; [vm_compute; reflexivity|]. split; [vm_compute; reflexivity|].
  split; [vm_compute; reflexivity|]. intros [text Htext]. vm_compute in Htext. discriminate.
Qed.

Lemma levitate_zeroes_ground_after_combination_witness :
  exists base,
    Detail.effectivenessMap [Samples.ground] !! "ground" = Some (Js.Num base)
    /\ snd (Detail.computeEffectiveness [Samples.levitate] [Samples.ground])
       = Some "Immune to Ground due to Levitate.".
Proof.
  destruct (levitate_zeroes_ground_after_combination [Samples.levitate] [Samples.ground])
    as (base & Hbase & _ & _ & Hlev & _).
  exists base. split; [exact Hbase|].
  apply (proj1 (proj2 (Hlev eq_refl))).
  intros Hz. vm_compute in Hbase. injection Hbase as <-. vm_compute in Hz. discriminate.
Defined.

(** ** Rules for postconditions *)

Section Rules.
Import Eff Post.
Context {S : Type}.

Lemma wp_ret {A} (a : A) (Q : Result A -> S -> Prop) s :
  Q (Return a) s -> wp (ret a) Q s.
Proof. done. Qed.

Lemma wp_throw {A} e (Q : Result A -> S -> Prop) s :
  Q (Throw e) s -> wp (throw e) Q s.
Proof. done. Qed.

Lemma wp_get (Q : Result S -> S -> Prop) s :
  Q (Return s) s -> wp get Q s.
Proof. done. Qed.

Lemma wp_modify (f : S -> S) (Q : Result unit -> S -> Prop) s :
  Q (Return tt) (f s) -> wp (modify f) Q s.
Proof. done. Qed.

Lemma wp_bind {A B} (m : M S A) (k : A -> M S B) (Q : Result B -> S -> Prop) s :
  wp m (andThen k Q) s -> wp (bind m k) Q s.
Proof.
  unfold wp, andThen, bind. destruct (m s) as [[a|e] s1]; cbn; auto.
Qed.

Lemma wp_try_catch {A} (m : M S A) (h : string -> M S A)
    (Q : Result A -> S -> Prop) s :
  wp m (orElse h Q) s -> wp (try_catch m h) Q s.
Proof.
  unfold wp, orElse, try_catch. destruct (m s) as [[a|e] s1]; cbn; auto.
Qed.

Lemma wp_mono {A} (m : M S A) (Q Q' : Result A -> S -> Prop) s :
  wp m Q s -> (forall r s', Q r s' -> Q' r s') -> wp m Q' s.
Proof. unfold wp. auto. Qed.

(** A join of requests keeps every relation between the states before
    and after that each member keeps. *)
Lemma wp_all_rel {A B} (f : A -> M S B) (R : S -> S -> Prop) xs :
  (forall s, R s s) -> (forall s1 s2 s3, R s1 s2 -> R s2 s3 -> R s1 s3) ->
  (forall x s, wp (f x) (fun _ s' => R s s') s) ->
  forall s, wp (all f xs) (fun _ s' => R s s') s.
Proof.
  intros Hrefl Htrans Hf. unfold wp in *.
  induction xs as [|x xs IH]; intros s; [apply Hrefl|].
  cbn [all]. specialize (Hf x s).
  destruct (f x s) as [[b|e] s1]; cbn in Hf.
  - specialize (IH s1). destruct (all f xs s1) as [[bs|e] s2]; cbn in *; eauto.
  - specialize (IH s1). destruct (all f xs s1) as [r s2]; cbn in *; eauto.
Qed.

Lemma all_throws {A B} (f : A -> M S B) xs x :
  x ∈ xs -> (forall s, exists e, fst (f x s) = Throw e) ->
  forall s, exists e, fst (all f xs s) = Throw e.
Proof. apply all_throw. Qed.

Lemma all_returns {A B} (f : A -> M S B) xs :
  forall s ys, fst (all f xs s) = Return ys ->
  Forall2 (fun x y => exists s0, fst (f x s0) = Return y) xs ys.
Proof.
  induction xs as [|x xs IH]; intros s ys Hys.
  - cbn in Hys. injection Hys as <-. constructor.
  - cbn [all] in Hys. destruct (f x s) as [[b|e] s1] eqn:Hx.
    + destruct (all f xs s1) as [[bs|e] s2] eqn:Hall; [|done].
      cbn in Hys. injection Hys as <-. constructor.
      * exists s. by rewrite Hx.
      * apply (IH s1). by rewrite Hall.
    + by destruct (all f xs s1) as [r s2].
Qed.
End Rules.

Ltac wp_go :=
  repeat first
    [ apply wp_bind; unfold Post.andThen at 1
    | apply wp_try_catch; unfold Post.orElse at 1
    | apply wp_ret
    | apply wp_throw
    | apply wp_get
    | apply wp_modify ].

(** ** The detail page: what each function leaves untouched *)

Section DetailFrame.
Import Js Eff Eff.Notations Post Api Detail Frame Failure.
Variable w : World.

Lemma sameCells_refl p : sameCells p p.
Proof. by repeat split. Qed.

Lemma sameCells_trans p1 p2 p3 : sameCells p1 p2 -> sameCells p2 p3 -> sameCells p1 p3.
Proof. unfold sameCells. intros H1 H2. intuition congruence. Qed.

Lemma urlsOnly_refl s : urlsOnly s s.
Proof.
  repeat split. exists []. cbn. by rewrite app_nil_r.
Qed.

Lemma urlsOnly_trans s1 s2 s3 : urlsOnly s1 s2 -> urlsOnly s2 s3 -> urlsOnly s1 s3.
Proof.
  intros (Hc1 & Hf1 & Hp1 & Hcells1 & urls1 & Hr1) (Hc2 & Hf2 & Hp2 & Hcells2 & urls2 & Hr2).
  split; [congruence|]. split; [congruence|]. split; [congruence|].
  split; [by eapply sameCells_trans|].
  exists (urls1 ++ urls2)%list. by rewrite Hr2, Hr1, fmap_app, app_assoc.
Qed.

Lemma wp_send r (Q : Result nat -> Sys -> Prop) s :
  Q (Return (length (requests s)))
    {| page := page s; pokemonDataCache := pokemonDataCache s;
       preloadInitiated := preloadInitiated s;
       requests := (requests s ++ [r])%list; inFlight := inFlight s |} ->
  wp (send r) Q s.
Proof. done. Qed.

Lemma urlsOnly_sent url s :
  urlsOnly s
    {| page := page s; pokemonDataCache := pokemonDataCache s;
       preloadInitiated := preloadInitiated s;
       requests := (requests s ++ [GetUrl url])%list; inFlight := inFlight s |}.
Proof. repeat split. by exists [url]. Qed.

Lemma urlsOnly_evolution f s s' :
  urlsOnly s s' ->
  (forall p, sameCells p (f p)) ->
  urlsOnly s (onPage f s').
Proof.
  intros (Hc & Hf & Hp & Hcells & Hr) Hsame.
  split; [done|]. split; [done|]. split; [done|]. split; [|done].
  cbn. eapply sameCells_trans; [exact Hcells|apply Hsame].
Qed.

Lemma fetchTypeJson_urlsOnly url s :
  wp (fetchTypeJson w url) (fun _ s' => urlsOnly s s') s.
Proof.
  unfold fetchTypeJson. apply wp_bind, wp_send. unfold andThen.
  destruct (typeDetail w _ url) as [e|ok status [e|d]]; apply urlsOnly_sent.
Qed.

Lemma fetchTypeJson_return url s d :
  fst (fetchTypeJson w url s) = Return d ->
  exists n ok status, typeDetail w n url = Responded ok status (inr d).
Proof.
  unfold fetchTypeJson, bind, send. cbn.
  destruct (typeDetail w _ url) as [e|ok status [e|d']] eqn:Hd; cbn; try done.
  intros [= ->]. eauto.
Qed.

Lemma loadEvolution_urlsOnly baseData sp s :
  wp (loadEvolution w baseData sp) (fun _ s' => urlsOnly s s') s.
Proof.
  unfold loadEvolution. destruct (truthy_str _); [|apply urlsOnly_refl].
  apply wp_bind, wp_send. unfold andThen.
  destruct (evolution w _ _) as [e|ok status body]; [apply urlsOnly_sent|].
  destruct ok; cbn [negb]; [|apply urlsOnly_sent].
  destruct body as [e|ev]; [apply urlsOnly_sent|].
  wp_go. cbn.
  destruct (branches (chain ev)); wp_go;
    repeat (apply urlsOnly_evolution; [|intros p; by repeat split]);
    apply urlsOnly_sent.
Qed.

Lemma urlsOnly_detailsOnly s s' : urlsOnly s s' -> detailsOnly s s'.
Proof.
  intros (Hc & Hf & Hp & Hcells & Hr). unfold sameCells in Hcells.
  unfold detailsOnly. intuition.
Qed.

Lemma all_types_urlsOnly (slots : list TypeSlot) s :
  urlsOnly s (snd (all (fun typeInfo => fetchTypeJson w (nr_url (ts_type typeInfo))) slots s)).
Proof.
  apply (wp_all_rel (fun typeInfo => fetchTypeJson w (nr_url (ts_type typeInfo))) urlsOnly).
  - apply urlsOnly_refl.
  - apply urlsOnly_trans.
  - intros x s0. apply fetchTypeJson_urlsOnly.
Qed.

Lemma all_types_return (slots : list TypeSlot) s typesData :
  fst (all (fun typeInfo => fetchTypeJson w (nr_url (ts_type typeInfo))) slots s)
    = Return typesData ->
  Forall2 (fun slot d => exists n ok status,
             typeDetail w n (nr_url (ts_type slot)) = Responded ok status (inr d))
          slots typesData.
Proof.
  intros Hall. apply all_returns in Hall.
  eapply Forall2_impl; [exact Hall|]. intros slot d [s0 Hd].
  by apply fetchTypeJson_return in Hd.
Qed.

(** The [try] block of [fetchPageSpecificDetails]. *)
Lemma details_body baseData s (Q : Result unit -> Sys -> Prop) :
  (forall e s', urlsOnly s s' -> Q (Throw e) s') ->
  (forall s1 typesData,
      urlsOnly s s1 ->
      Forall2 (fun slot d => exists n ok status,
                 typeDetail w n (nr_url (ts_type slot)) = Responded ok status (inr d))
              (pd_types baseData) typesData ->
      Q (Return tt)
        (onPage (setTypeEffectiveness
                   (Some (fst (computeEffectiveness (pd_abilities baseData) typesData))))
           (onPage (setAbilityEffectOnGround
                      (snd (computeEffectiveness (pd_abilities baseData) typesData))) s1))) ->
  wp (do n <- send (GetUrl (pd_species_url baseData));
      match species w n (pd_species_url baseData) with
      | Rejected e => throw e
      | Responded ok _ body =>
          if negb ok
          then throw ("Species data for " ++ quoted (pd_name baseData) ++ " not found")
          else match body with
               | inl e => throw e
               | inr fetchedSpeciesData =>
                   exec loadEvolution w baseData fetchedSpeciesData;
                   do typesData <-
                     all (fun typeInfo => fetchTypeJson w (nr_url (ts_type typeInfo)))
                         (pd_types baseData);
                   let '(table, note) :=
                     computeEffectiveness (pd_abilities baseData) typesData in
                   exec modify (onPage (setAbilityEffectOnGround None));
                   exec (match note with
                         | Some text => modify (onPage (setAbilityEffectOnGround (Some text)))
                         | None => ret tt
                         end);
                   modify (onPage (setTypeEffectiveness (Some table)))
               end
      end) Q s.
Proof.
  intros Hthrow Hret.
  apply wp_bind, wp_send. unfold andThen.
  pose proof (urlsOnly_sent (pd_species_url baseData) s) as H0.
  set (s0 := {| page := page s |}) in *.
  destruct (species w _ _) as [e|ok status body]; [by apply wp_throw, Hthrow|].
  destruct ok; cbn [negb]; [|by apply wp_throw, Hthrow].
  destruct body as [e|sp]; [by apply wp_throw, Hthrow|].
  apply wp_bind. unfold wp at 1.
  pose proof (loadEvolution_urlsOnly baseData sp s0) as Hevo. unfold wp in Hevo.
  destruct (loadEvolution w baseData sp s0) as [[[]|e] s1]; cbn [fst snd] in *;
    unfold andThen.
  2:{ apply Hthrow. by eapply urlsOnly_trans. }
  assert (urlsOnly s s1) as H1 by (by eapply urlsOnly_trans).
  apply wp_bind. unfold wp at 1.
  pose proof (all_types_urlsOnly (pd_types baseData) s1) as Hall.
  pose proof (all_types_return (pd_types baseData) s1) as Hres.
  destruct (all _ (pd_types baseData) s1) as [[typesData|e] s2]; cbn [fst snd] in *;
    unfold andThen.
  2:{ apply Hthrow. by eapply urlsOnly_trans. }
  assert (urlsOnly s s2) as H2 by (by eapply urlsOnly_trans).
  specialize (Hres typesData eq_refl).
  specialize (Hret s2 typesData H2 Hres).
  destruct (computeEffectiveness (pd_abilities baseData) typesData) as [table note].
  cbn [fst snd] in Hret.
  destruct note as [text|]; wp_go; exact Hret.
Qed.

Lemma fetchPageSpecificDetails_spec baseData s :
  wp (fetchPageSpecificDetails w baseData)
     (fun r s' => r = Return tt /\ detailsOnly s s'
                  /\ (detailsFailed s s' \/ detailsLoaded w baseData s s')) s.
Proof.
  unfold fetchPageSpecificDetails. apply wp_try_catch, details_body.
  - intros e s' Hurls. unfold orElse. apply wp_modify.
    pose proof (urlsOnly_detailsOnly s s' Hurls) as Hd.
    destruct Hurls as (_ & _ & _ & Hcells & _). unfold sameCells in Hcells.
    split; [done|]. split; [unfold detailsOnly in *; cbn; intuition|].
    left. split; [by eexists|]. cbn. intuition.
  - intros s1 typesData Hurls Hall. unfold orElse.
    pose proof (urlsOnly_detailsOnly s s1 Hurls) as Hd.
    destruct Hurls as (_ & _ & _ & Hcells & _). unfold sameCells in Hcells.
    split; [done|]. split; [unfold detailsOnly in *; cbn; intuition|].
    right. exists typesData. split; [done|]. cbn. intuition.
Qed.

End DetailFrame.

(** ** The detail page: the requests for the type records *)

Section Positions.
Import Js Eff Eff.Notations Post Api Detail Frame Failure.
Variable w : World.

Lemma fetchTypeJson_run url s :
  fetchTypeJson w url s
  = (match typeDetail w (length (requests s)) url with
     | Rejected e => Throw e
     | Responded _ _ (inl e) => Throw e
     | Responded _ _ (inr d) => Return d
     end,
     {| page := page s; pokemonDataCache := pokemonDataCache s;
        preloadInitiated := preloadInitiated s;
        requests := (requests s ++ [GetUrl url])%list; inFlight := inFlight s |}).
Proof.
  unfold fetchTypeJson, bind, send. cbn [fst snd].
  by destruct (typeDetail w _ url) as [e|ok status [e|d]].
Qed.

(** The join of the type requests sends one request per slot, in the
    order of the slots; it yields the records when every one of these
    requests is answered with a record, and rejects when one is not. *)
Lemma all_types_positions (slots : list TypeSlot) : forall s,
  requests (snd (all (fun typeInfo => fetchTypeJson w (nr_url (ts_type typeInfo))) slots s))
  = (requests s ++ (GetUrl <$> ((fun slot => nr_url (ts_type slot)) <$> slots)))%list
  /\ match fst (all (fun typeInfo => fetchTypeJson w (nr_url (ts_type typeInfo))) slots s) with
     | Return typesData =>
         length typesData = length slots
         /\ forall i slot,
              slots !! i = Some slot ->
              exists ok status d,
                typeDetail w (length (requests s) + i) (nr_url (ts_type slot))
                = Responded ok status (inr d)
                /\ typesData !! i = Some d
     | Throw _ =>
         exists i slot,
           slots !! i = Some slot
           /\ unreadable (typeDetail w (length (requests s) + i) (nr_url (ts_type slot)))
     end.
Proof.
  induction slots as [|slot slots IH]; intros s.
  { cbn. split; [by rewrite app_nil_r|]. split; [done|]. intros i slot Hi. done. }
  cbn [all]. rewrite fetchTypeJson_run.
  set (s1 := {| page := page s; requests := (requests s ++ [GetUrl (nr_url (ts_type slot))])%list |}).
  specialize (IH s1).
  assert (length (requests s1) = S (length (requests s))) as Hlen
    by (subst s1; cbn; rewrite length_app; cbn; lia).
  assert (forall i, (length (requests s1) + i = length (requests s) + S i)%nat) as Hpos
    by (intros i; lia).
  destruct IH as [Hreq IH].
  destruct (typeDetail w (length (requests s)) (nr_url (ts_type slot)))
    as [e|ok status [e|d]] eqn:Hd.
  - destruct (all _ slots s1) as [r0 s2] eqn:Hrun. cbn [fst snd] in *.
    split; [rewrite Hreq; subst s1; cbn; by rewrite <- app_assoc|].
    exists 0%nat, slot. split; [done|]. by rewrite Nat.add_0_r, Hd.
  - destruct (all _ slots s1) as [r0 s2] eqn:Hrun. cbn [fst snd] in *.
    split; [rewrite Hreq; subst s1; cbn; by rewrite <- app_assoc|].
    exists 0%nat, slot. split; [done|]. rewrite Nat.add_0_r, Hd. by exists e.
  - destruct (all _ slots s1) as [[typesData|e] s2] eqn:Hrun; cbn [fst snd] in *.
    + split; [rewrite Hreq; subst s1; cbn; by rewrite <- app_assoc|].
      destruct IH as [Hlength IH]. split; [cbn; by rewrite Hlength|].
      intros [|i] slot' Hi.
      * injection Hi as <-. exists ok, status, d. by rewrite Nat.add_0_r, Hd.
      * destruct (IH i slot' Hi) as (ok' & status' & d' & Hd' & Hi').
        exists ok', status', d'. by rewrite <- Hpos.
    + split; [rewrite Hreq; subst s1; cbn; by rewrite <- app_assoc|].
      destruct IH as (i & slot' & Hi & Hun). exists (S i), slot'.
      split; [done|]. by rewrite <- Hpos.
Qed.

Lemma try_catch_bind {S A B} (m : M S A) (k : A -> M S B) (h : string -> M S B) s :
  try_catch (bind m k) h s
  = match m s with
    | (Return a, s1) => try_catch (k a) h s1
    | (Throw e, s1) => h e s1
    end.
Proof. unfold try_catch, bind. by destruct (m s) as [[a|e] s1]. Qed.

(** How [loadEvolution] ends, by the answer to the request it sends. *)
Lemma loadEvolution_cases baseData sp s :
  if truthy_str (Some (evolution_chain_url sp)) then
    match evolution w (length (requests s)) (evolution_chain_url sp) with
    | Responded true _ (inr _) =>
        fst (loadEvolution w baseData sp s) = Return tt
        /\ length (requests (snd (loadEvolution w baseData sp s))) = S (length (requests s))
    | _ => exists e, fst (loadEvolution w baseData sp s) = Throw e
    end
  else loadEvolution w baseData sp s = (Return tt, s).
Proof.
  unfold loadEvolution. destruct (truthy_str _); [|done].
  unfold bind, send. cbn [fst snd].
  destruct (evolution w _ _) as [e|[] status [e|ev]]; cbn [negb]; try (by eexists).
  unfold modify. cbn [fst snd].
  destruct (branches (chain ev)); cbn; rewrite length_app; cbn; split; (done || lia).
Qed.

(** The last part of [fetchPageSpecificDetails]: the type requests and
    what is made of their answers, run from [s1] under the handler of the
    function. *)
Lemma types_tail baseData s1 :
  let run :=
    try_catch
      (do typesData <-
         all (fun typeInfo => fetchTypeJson w (nr_url (ts_type typeInfo)))
             (pd_types baseData);
       let '(table, note) :=
         computeEffectiveness (pd_abilities baseData) typesData in
       exec modify (onPage (setAbilityEffectOnGround None));
       exec (match note with
             | Some text => modify (onPage (setAbilityEffectOnGround (Some text)))
             | None => ret tt
             end);
       modify (onPage (setTypeEffectiveness (Some table))))
      (fun message =>
         modify (onPage (setError (Some ("Failed to load some details: " ++ message)))))
      s1 in
  requests (snd run)
  = (requests s1
     ++ (GetUrl <$> ((fun slot => nr_url (ts_type slot)) <$> pd_types baseData)))%list
  /\ match fst (all (fun typeInfo => fetchTypeJson w (nr_url (ts_type typeInfo)))
                    (pd_types baseData) s1) with
     | Return typesData =>
         typeEffectiveness (page (snd run))
         = Some (fst (computeEffectiveness (pd_abilities baseData) typesData))
         /\ abilityEffectOnGround (page (snd run))
            = snd (computeEffectiveness (pd_abilities baseData) typesData)
         /\ error (page (snd run)) = error (page s1)
     | Throw e =>
         error (page (snd run)) = Some ("Failed to load some details: " ++ e)
         /\ typeEffectiveness (page (snd run)) = typeEffectiveness (page s1)
     end.
Proof.
  cbv zeta. rewrite try_catch_bind.
  pose proof (all_types_positions (pd_types baseData) s1) as [Hreq _].
  pose proof (all_types_urlsOnly w (pd_types baseData) s1) as (_ & _ & _ & Hcells & _).
  destruct (all _ (pd_types baseData) s1) as [[typesData|e] s2]; cbn [fst snd] in *.
  - destruct (computeEffectiveness (pd_abilities baseData) typesData) as [table note].
    unfold sameCells in Hcells.
    unfold try_catch, bind, modify. cbn [fst snd].
    destruct note as [text|]; cbn; intuition.
  - unfold sameCells in Hcells. cbn. intuition.
Qed.

Lemma details_from baseData s :
  match typesFrom w baseData s with
  | None => detailsFailed s (snd (fetchPageSpecificDetails w baseData s))
  | Some k =>
      (forall i slot,
          pd_types baseData !! i = Some slot ->
          requests (snd (fetchPageSpecificDetails w baseData s)) !! (k + i)%nat
          = Some (GetUrl (nr_url (ts_type slot))))
      /\ ((exists i slot,
              pd_types baseData !! i = Some slot
              /\ unreadable (typeDetail w (k + i) (nr_url (ts_type slot)))) ->
          detailsFailed s (snd (fetchPageSpecificDetails w baseData s)))
      /\ (detailsFailed s (snd (fetchPageSpecificDetails w baseData s))
          \/ detailsLoadedFrom w baseData s (snd (fetchPageSpecificDetails w baseData s)))
  end.
Proof.
  assert (forall s1 k,
             typesFrom w baseData s = Some k ->
             length (requests s1) = k ->
             error (page s1) = error (page s) ->
             typeEffectiveness (page s1) = typeEffectiveness (page s) ->
             forall run,
             (requests run
              = (requests s1
                 ++ (GetUrl <$> ((fun slot => nr_url (ts_type slot)) <$> pd_types baseData)))%list
              /\ match fst (all (fun typeInfo => fetchTypeJson w (nr_url (ts_type typeInfo)))
                               (pd_types baseData) s1) with
                 | Return typesData =>
                     typeEffectiveness (page run)
                     = Some (fst (computeEffectiveness (pd_abilities baseData) typesData))
                     /\ abilityEffectOnGround (page run)
                        = snd (computeEffectiveness (pd_abilities baseData) typesData)
                     /\ error (page run) = error (page s1)
                 | Throw e =>
                     error (page run) = Some ("Failed to load some details: " ++ e)
                     /\ typeEffectiveness (page run) = typeEffectiveness (page s1)
                 end) ->
             (forall i slot,
                 pd_types baseData !! i = Some slot ->
                 requests run !! (k + i)%nat = Some (GetUrl (nr_url (ts_type slot))))
             /\ ((exists i slot,
                     pd_types baseData !! i = Some slot
                     /\ unreadable (typeDetail w (k + i) (nr_url (ts_type slot)))) ->
                 detailsFailed s run)
             /\ (detailsFailed s run \/ detailsLoadedFrom w baseData s run)) as Htail.
  { intros s1 k Hfrom Hk Herr Htable run [Hreq Hrun].
    pose proof (all_types_positions (pd_types baseData) s1) as [_ Hall].
    split; [|split].
    - intros i slot Hi. rewrite Hreq, lookup_app_r by lia.
      replace (k + i - length (requests s1))%nat with i by lia.
      by rewrite !list_lookup_fmap, Hi.
    - intros (i & slot & Hi & Hun).
      destruct (fst (all _ (pd_types baseData) s1)) as [typesData|e].
      + destruct Hall as [_ Hall]. destruct (Hall i slot Hi) as (ok & status & d & Hd & _).
        rewrite Hk in Hd. rewrite Hd in Hun. cbn in Hun. by destruct Hun.
      + destruct Hrun as [He Ht]. split; [by exists e|]. by rewrite Ht.
    - destruct (fst (all _ (pd_types baseData) s1)) as [typesData|e].
      + right. destruct Hall as [Hlength Hall]. destruct Hrun as (Ht & Hnote & He).
        exists k, typesData. split; [done|]. split; [done|].
        split; [by rewrite <- Hk|]. split; [done|]. split; [done|]. by rewrite He.
      + left. destruct Hrun as [He Ht]. split; [by exists e|]. by rewrite Ht. }
  unfold fetchPageSpecificDetails. rewrite try_catch_bind.
  change (send (GetUrl (pd_species_url baseData)) s)
    with (Return (length (requests s)),
          {| page := page s; pokemonDataCache := pokemonDataCache s;
             preloadInitiated := preloadInitiated s;
             requests := (requests s ++ [GetUrl (pd_species_url baseData)])%list;
             inFlight := inFlight s |}).
  cbv beta iota.
  set (s0 := {| page := page s |}).
  assert (length (requests s0) = S (length (requests s))) as Hlen0
    by (subst s0; cbn; rewrite length_app; cbn; lia).
  unfold typesFrom in *. cbv zeta in *.
  destruct (species w (length (requests s)) (pd_species_url baseData))
    as [e|[] status [e|sp]]; cbn [negb];
    try (cbn; split; [by eexists|done]).
  rewrite try_catch_bind.
  pose proof (loadEvolution_cases baseData sp s0) as Hevo.
  pose proof (loadEvolution_urlsOnly w baseData sp s0) as (_ & _ & _ & Hcells & _).
  unfold wp in Hcells. unfold sameCells in Hcells.
  rewrite Hlen0 in Hevo.
  destruct (truthy_str (Some (evolution_chain_url sp))).
  - destruct (evolution w (S (length (requests s))) (evolution_chain_url sp))
      as [e|[] status' [e|ev]].
    + destruct Hevo as [e' He']. destruct (loadEvolution w baseData sp s0) as [r s1].
      cbn [fst snd] in *. subst r. cbn. split; [by eexists|]. intuition.
    + destruct Hevo as [e' He']. destruct (loadEvolution w baseData sp s0) as [r s1].
      cbn [fst snd] in *. subst r. cbn. split; [by eexists|]. intuition.
    + destruct Hevo as [Hret Hlen1]. destruct (loadEvolution w baseData sp s0) as [r s1].
      cbn [fst snd] in *. subst r.
      apply (Htail s1 _ eq_refl Hlen1); [intuition|intuition|].
      apply (types_tail baseData s1).
    + destruct Hevo as [e' He']. destruct (loadEvolution w baseData sp s0) as [r s1].
      cbn [fst snd] in *. subst r. cbn. split; [by eexists|]. intuition.
    + destruct Hevo as [e' He']. destruct (loadEvolution w baseData sp s0) as [r s1].
      cbn [fst snd] in *. subst r. cbn. split; [by eexists|]. intuition.
  - rewrite Hevo.
    apply (Htail s0 _ eq_refl Hlen0); [done|done|].
    apply (types_tail baseData s0).
Qed.
End Positions.

(** C5 (amended).  When the record of a defending type cannot be fetched
    the computation fails as a whole and its caller is told.
    - On the detail page the request for the record of the type in slot
      [i] is the one sent at position [k + i], where [k] is the position
      at which the type requests begin; when that request is rejected or
      its body cannot be read, [fetchPageSpecificDetails] ends with the
      error message set and with the effectiveness table it found: none
      is produced.
    - In the quiz, [calculateEffectiveness] rejects without touching the
      state, so no table is produced; its caller [startNewGame] counts
      the iteration as a failed attempt and goes on to the next, and the
      error is set only when all five attempts have failed.
    In neither page is a table ever set from fewer records than the
    creature has types: whenever one is set, each defending type's record
    was the body of the answer to the request sent for it. *)
Theorem unreachable_type_fails_the_computation :
  (forall (w : Detail.World) (baseData : Detail.PokemonData) (s : Detail.Sys)
          (k i : nat) (slot : Api.TypeSlot),
      Frame.typesFrom w baseData s = Some k ->
      Detail.pd_types baseData !! i = Some slot ->
      Detail.requests (snd (Detail.fetchPageSpecificDetails w baseData s)) !! (k + i)%nat
      = Some (Detail.GetUrl (Api.nr_url (Api.ts_type slot)))
      /\ (Failure.unreadable
            (Detail.typeDetail w (k + i) (Api.nr_url (Api.ts_type slot))) ->
          fst (Detail.fetchPageSpecificDetails w baseData s) = Eff.Return tt
          /\ (exists e,
                Detail.error (Detail.page (snd (Detail.fetchPageSpecificDetails w baseData s)))
                = Some ("Failed to load some details: " ++ e))
          /\ Detail.typeEffectiveness
               (Detail.page (snd (Detail.fetchPageSpecificDetails w baseData s)))
             = Detail.typeEffectiveness (Detail.page s)))
  /\ (forall (w : Guesser.World) (attempts : nat) (pokemon : Guesser.Pokemon)
             (st : Guesser.State) (slot : Api.TypeSlot),
        slot ∈ Guesser.pk_types pokemon ->
        Failure.unreachable (Guesser.fetchType w attempts (Api.nr_url (Api.ts_type slot))) ->
        exists e, Guesser.calculateEffectiveness w attempts pokemon st = (Eff.Throw e, st))
  /\ (forall (w : Detail.World) (baseData : Detail.PokemonData) (s : Detail.Sys),
        Frame.detailsFailed s (snd (Detail.fetchPageSpecificDetails w baseData s))
        \/ Frame.detailsLoadedFrom w baseData s
             (snd (Detail.fetchPageSpecificDetails w baseData s)))
  /\ (forall (w : Guesser.World) (attempts : nat) (st : Guesser.State),
        (exists st', Guesser.attempt w attempts st = (Eff.Return Guesser.Retries, st')
                     /\ Guesser.error st' = Guesser.error st
                     /\ Guesser.correctEffectiveness st' = Guesser.correctEffectiveness st)
        \/ (exists p ds,
              Forall2 (fun slot d => exists status,
                         Guesser.fetchType w attempts (Api.nr_url (Api.ts_type slot))
                         = Js.Responded true status (inr d))
                      (Guesser.pk_types p) ds
              /\ Guesser.attempt w attempts st =
                   (Eff.Return Guesser.Returns,
                    Guesser.setIsLoading false
                      (Guesser.setCorrectEffectiveness (Guesser.calculatedEffectivenessMap ds)
                         (Guesser.setCurrentPokemon (Some p) st)))))
  /\ (forall (fuel : nat) (w : Guesser.World) (now : Z) (st : Guesser.State),
        (5 <= fuel)%nat ->
        exists attempts st',
          Guesser.startNewGame fuel w now st = Some (attempts, st')
          /\ (((attempts < 5)%nat /\ Guesser.error st' = None)
              \/ (attempts = 5%nat /\ Guesser.error st' = Some Failure.exhausted))).
Proof.
  split; [|split; [|split; [|split]]].
  - intros w baseData s k i slot Hfrom Hi.
    destruct (fetchPageSpecificDetails_spec w baseData s) as (Hret & _ & _).
    pose proof (details_from w baseData s) as Hrun. rewrite Hfrom in Hrun.
    destruct Hrun as (Hsent & Hfails & _).
    split; [by apply Hsent|]. intros Hun.
    destruct Hfails as [He Htable]; [by exists i, slot|]. done.
  - intros w attempts pokemon st slot Hin Hun.
    by eapply calculateEffectiveness_unreachable.
  - intros w baseData s. pose proof (details_from w baseData s) as Hrun.
    destruct (Frame.typesFrom w baseData s) as [k|]; [|by left].
    by destruct Hrun as (_ & _ & H).
  - intros w attempts st. apply attempt_cases.
- intros fuel w now st Hfuel. unfold Guesser.startNewGame.
  set (st0 := Guesser.setStartTime _ _).
  destruct (attemptLoop_spec w fuel 0 st0) as (a & st' & Hloop & Ha & _ & _ & Hok & Hex);
    [lia|lia|].
  exists a, st'. split; [done|].
  destruct (decide (a = 5%nat)) as [->|Hne].
  + right. split; [done|]. by apply Hex.
  + left. assert (a < 5)%nat as Hlt by lia. split; [done|].
    destruct (Hok Hlt) as [_ Herr]. by rewrite Herr.
Qed.

(** C5 as it was stated fails in the quiz: the record of the second
    type of the first creature drawn cannot be fetched, the iteration is
    retried, the second succeeds, and the game starts with a table and
    with no error set. *)
Lemma quiz_retries_after_a_failed_type_request :
Samples.slotOf 2 "poison" ∈ Guesser.pk_types Worlds.bulbasaur
/\ Failure.unreachable
     (Guesser.fetchType Worlds.flaky 0
        (Api.nr_url (Api.ts_type (Samples.slotOf 2 "poison"))))
/\ (fun r => (fst r, Guesser.error (snd r),
             map_to_list (Guesser.correctEffectiveness (snd r))))
     <$> Guesser.startNewGame 5 Worlds.flaky 0 Guesser.initialState
   = Some (1%nat, None, map_to_list Samples.grassPoisonTable).
Proof.
split; [apply list_elem_of_further, list_elem_of_here|].
split; [exact I|]. vm_compute. reflexivity.
Qed.

Lemma unreachable_type_fails_the_computation_witness :
  (fst (Detail.fetchPageSpecificDetails (Worlds.network false) Worlds.pikachu Worlds.freshSys)
     = Eff.Return tt
   /\ (exists e,
         Detail.error (Detail.page (snd (Detail.fetchPageSpecificDetails
                                           (Worlds.network false) Worlds.pikachu Worlds.freshSys)))
         = Some ("Failed to load some details: " ++ e))
   /\ Detail.typeEffectiveness
        (Detail.page (snd (Detail.fetchPageSpecificDetails
                             (Worlds.network false) Worlds.pikachu Worlds.freshSys)))
      = Detail.typeEffectiveness (Detail.page Worlds.freshSys))
  /\ (exists e,
        Guesser.calculateEffectiveness Worlds.poisonUnreachable 0 Worlds.bulbasaur
          Guesser.initialState = (Eff.Throw e, Guesser.initialState)).
Proof.
  split.
  - apply (proj1 unreachable_type_fails_the_computation
             (Worlds.network false) Worlds.pikachu Worlds.freshSys 1%nat 0%nat
             (Samples.slotOf 1 "electric")).
    + reflexivity.
    + reflexivity.
    + exact I.
  - apply (proj1 (proj2 unreachable_type_fails_the_computation)
             Worlds.poisonUnreachable 0%nat Worlds.bulbasaur Guesser.initialState
             (Samples.slotOf 2 "poison")).
    + apply list_elem_of_further, list_elem_of_here.
    + exact I.
Defined.

(** ** Lower case *)

Lemma lower_ascii_idem c : Js.lower_ascii (Js.lower_ascii c) = Js.lower_ascii c.
Proof. destruct c as [[] [] [] [] [] [] [] []]; reflexivity. Qed.

Lemma toLowerCase_idem s : Js.toLowerCase (Js.toLowerCase s) = Js.toLowerCase s.
Proof. induction s as [|c s IH]; [done|]. cbn. by rewrite lower_ascii_idem, IH. Qed.

(** ** Loading a page and its neighbours *)

Section Neighbours.
Import Js Eff Eff.Notations Post Api Detail Frame Failure.
Variable w : World.

Lemma fetchPokemonDataByNameOrId_spec identifier isPreload s :
  wp (fetchPokemonDataByNameOrId w identifier isPreload)
     (fun r s' => exists result,
          r = Return result
          /\ page s' = page s /\ inFlight s' = inFlight s
          /\ preloadInitiated s' = preloadInitiated s
          /\ lookedUp w identifier isPreload s s' result) s.
Proof.
  unfold fetchPokemonDataByNameOrId, lookedUp. apply wp_bind, wp_get. unfold andThen.
  destruct (lookupCache _ _ identifier isPreload) as [d| |].
  - apply wp_ret. by exists (Some d).
  - apply wp_ret. by exists None.
  - apply wp_bind, wp_send. unfold andThen.
    destruct (storeResponse _ _ _ _) as [result cache'] eqn:Hstore.
    wp_go. exists result. cbn. done.
Qed.

Lemma fetchPokemonNavInfoById_spec id s :
  wp (fetchPokemonNavInfoById w id)
     (fun r s' => exists info,
          r = Return info
          /\ page s' = page s /\ pokemonDataCache s' = pokemonDataCache s
          /\ inFlight s' = inFlight s /\ preloadInitiated s' = preloadInitiated s
          /\ ((info = None /\ requests s' = requests s)
              \/ ((1 <= id <= MAX_POKEMON_ID_FOR_NAV)%Z
                  /\ requests s' = (requests s ++ [GetNavInfo id])%list))) s.
Proof.
  unfold fetchPokemonNavInfoById.
  destruct (Z.leb_spec id 0) as [Hle|Hgt]; cbn [orb].
  { apply wp_ret. exists None. intuition. }
  destruct (Z.gtb_spec id MAX_POKEMON_ID_FOR_NAV) as [Hbig|Hsmall].
  { apply wp_ret. exists None. intuition. }
  apply wp_bind, wp_send. unfold andThen.
  assert (1 <= id <= MAX_POKEMON_ID_FOR_NAV)%Z as Hrange by lia.
  destruct (pokemon w _ _) as [e|ok status body];
    [apply wp_ret; eexists; cbn; intuition|].
  destruct ok; cbn [negb]; [|apply wp_ret; eexists; cbn; intuition].
  destruct body as [e|d]; apply wp_ret; eexists; cbn; intuition.
Qed.

Lemma startPreload_spec identifier s :
  wp (startPreload w identifier)
     (fun r s' =>
        r = Return tt
        /\ page s' = page s /\ pokemonDataCache s' = pokemonDataCache s
        /\ preloadInitiated s' = preloadInitiated s
        /\ ((requests s' = requests s /\ inFlight s' = inFlight s)
            \/ (pokemonDataCache s !! toLowerCase identifier = None
                /\ requests s' = (requests s ++ [GetPokemon (toLowerCase identifier) true])%list
                /\ inFlight s'
                   = (inFlight s ++ [(toLowerCase identifier, length (requests s))])%list))) s.
Proof.
  unfold startPreload. apply wp_bind, wp_get. unfold andThen.
  unfold lookupCache.
  destruct (pokemonDataCache s !! toLowerCase identifier) as [entry|] eqn:Hentry.
  - destruct (_ <? _)%Z; apply wp_ret; intuition.
  - apply wp_bind, wp_send. unfold andThen. apply wp_modify. cbn. intuition.
Qed.

Lemma storeResponse_unreachable cache now key res :
  unreachable res -> storeResponse cache now key res = (None, cache).
Proof.
  unfold storeResponse. destruct res as [e|ok status body]; [done|].
  intros [->|[e ->]]; [done|]. by destruct ok.
Qed.

Lemma fetchPokemonNavInfoById_fails id s :
  unreachable (pokemon w (length (requests s)) (pretty id)) ->
  fst (fetchPokemonNavInfoById w id s) = Return None.
Proof.
  intros Hun. unfold fetchPokemonNavInfoById.
  destruct (_ || _); [done|]. unfold bind, send. cbn.
  destruct (pokemon w _ _) as [e|ok status body]; [done|].
  destruct Hun as [->|[e ->]]; [done|]. by destruct ok.
Qed.

Lemma settlePreload_page now p s : page (settlePreload w now p s) = page s.
Proof.
  unfold settlePreload. case_bool_decide; [|done].
  destruct p as [key n]. by destruct (storeResponse _ _ _ _).
Qed.

Lemma sameButLinks_refl p : sameButLinks p p.
Proof. by repeat split. Qed.

Lemma sameButLinks_trans p1 p2 p3 :
  sameButLinks p1 p2 -> sameButLinks p2 p3 -> sameButLinks p1 p3.
Proof. unfold sameButLinks. intros H1 H2. intuition congruence. Qed.

Lemma linkNeighbour_spec id setLink s :
  (forall v p, sameButLinks p (setLink v p)) ->
  wp (linkNeighbour w id setLink)
     (fun r s' =>
        r = Return tt
        /\ pokemonDataCache s' = pokemonDataCache s
        /\ preloadInitiated s' = preloadInitiated s
        /\ sameButLinks (page s) (page s')
        /\ exists evs, requests s' = (requests s ++ evs)%list
                       /\ neighbourTrace id (pokemonDataCache s) evs) s.
Proof.
  intros Hset. unfold linkNeighbour. apply wp_bind.
  eapply wp_mono; [apply fetchPokemonNavInfoById_spec|].
  intros r s1 (info & -> & Hpage & Hcache & Hfl & Hpi & Hreq). unfold andThen.
  destruct info as [i|].
  - destruct Hreq as [[? _]|[Hrange Hreq]]; [done|].
    apply wp_bind, wp_modify. unfold andThen. apply wp_bind, wp_get. unfold andThen.
    set (s2 := onPage (setLink (Some i)) s1).
    assert (sameButLinks (page s) (page s2)) as Hlinks.
    { subst s2. cbn. rewrite Hpage. apply Hset. }
    destruct (negb _).
    + eapply wp_mono; [apply startPreload_spec|].
      intros r s3 (-> & Hpage3 & Hcache3 & Hpi3 & Hcase).
      split; [done|]. split; [by rewrite Hcache3|]. split; [by rewrite Hpi3|].
      split; [by rewrite Hpage3|].
      destruct Hcase as [[Hreq3 _]|(Hnone & Hreq3 & _)].
      * exists [GetNavInfo id]. split; [by rewrite Hreq3|]. right. split; [done|]. by left.
      * eexists. split; [rewrite Hreq3; cbn; rewrite Hreq, <- app_assoc; reflexivity|].
        right. split; [done|]. right. eexists. split; [reflexivity|].
        cbn in Hnone. by rewrite Hcache in Hnone.
    + apply wp_ret. split; [done|]. split; [done|]. split; [done|]. split; [done|].
      exists [GetNavInfo id]. split; [done|]. right. split; [done|]. by left.
  - apply wp_ret. split; [done|]. split; [done|]. split; [done|].
    split; [rewrite Hpage; apply sameButLinks_refl|].
    destruct Hreq as [[_ Hreq]|[Hrange Hreq]].
    + exists []. split; [by rewrite app_nil_r|]. by left.
    + exists [GetNavInfo id]. split; [done|]. right. split; [done|]. by left.
Qed.

Lemma linkNeighbours_spec d s :
  wp (linkNeighbours w d)
     (fun r s' =>
        r = Return tt
        /\ pokemonDataCache s' = pokemonDataCache s
        /\ sameButLinks (page s) (page s')
        /\ exists evsPrev evsNext,
             requests s' = (requests s ++ evsPrev ++ evsNext)%list
             /\ neighbourTrace (pd_id d - 1) (pokemonDataCache s) evsPrev
             /\ neighbourTrace (pd_id d + 1) (pokemonDataCache s) evsNext) s.
Proof.
  unfold linkNeighbours.
  apply wp_bind, wp_modify. unfold andThen.
  apply wp_bind, wp_modify. unfold andThen.
  set (s0 := onPage (setNextPokemonLink None) (onPage (setPrevPokemonLink None) s)).
  assert (sameButLinks (page s) (page s0)) as H0 by (by repeat split).
  assert (forall id setLink,
            (forall v p, sameButLinks p (setLink v p)) ->
            forall (b : bool) s1,
            wp (if b then linkNeighbour w id setLink else ret tt)
               (fun r s' =>
                  r = Return tt
                  /\ pokemonDataCache s' = pokemonDataCache s1
                  /\ preloadInitiated s' = preloadInitiated s1
                  /\ sameButLinks (page s1) (page s')
                  /\ exists evs, requests s' = (requests s1 ++ evs)%list
                                 /\ neighbourTrace id (pokemonDataCache s1) evs) s1) as Hstep.
  { intros id setLink Hset [] s1; [by apply linkNeighbour_spec|].
    apply wp_ret. split; [done|]. split; [done|]. split; [done|].
    split; [apply sameButLinks_refl|]. exists []. split; [by rewrite app_nil_r|]. by left. }
  apply wp_bind. eapply wp_mono; [apply (Hstep (pd_id d - 1)%Z setPrevPokemonLink)|].
  { intros v p. by repeat split. }
  intros r s1 (-> & Hc1 & _ & Hl1 & evsPrev & Hr1 & Ht1). unfold andThen.
  apply wp_bind. eapply wp_mono; [apply (Hstep (pd_id d + 1)%Z setNextPokemonLink)|].
  { intros v p. by repeat split. }
  intros r s2 (-> & Hc2 & _ & Hl2 & evsNext & Hr2 & Ht2). unfold andThen.
  apply wp_modify. split; [done|].
  split; [cbn; by rewrite Hc2, Hc1|].
  split; [cbn; eapply sameButLinks_trans; [exact H0|];
          by eapply sameButLinks_trans|].
  exists evsPrev, evsNext. cbn.
  split; [by rewrite Hr2, Hr1, <- app_assoc|].
  split; [exact Ht1|]. by rewrite Hc1 in Ht2.
Qed.

End Neighbours.

(** ** The requests of a page load, one by one *)

Section Traces.
Import Js Eff Eff.Notations Post Api Detail Frame Failure.
Variable w : World.

Lemma inRange_guard id :
  ((id <=? 0)%Z || (id >? MAX_POKEMON_ID_FOR_NAV)%Z)%bool
  = negb ((1 <=? id)%Z && (id <=? MAX_POKEMON_ID_FOR_NAV)%Z).
Proof.
  unfold MAX_POKEMON_ID_FOR_NAV.
  destruct (Z.leb_spec id 0), (Z.gtb_spec id 1025), (Z.leb_spec 1 id),
    (Z.leb_spec id 1025); cbn; try lia; done.
Qed.

Lemma linkNeighbour_requests id setLink s :
  requests (snd (linkNeighbour w id setLink s))
  = (requests s
     ++ neighbourRequests w (pokemonDataCache s) (length (requests s)) id)%list.
Proof.
  unfold linkNeighbour, fetchPokemonNavInfoById, neighbourRequests.
  rewrite inRange_guard. destruct (_ && _)%bool; cbn [negb].
  2:{ cbn. by rewrite app_nil_r. }
  unfold bind, send. cbn [fst snd].
  destruct (pokemon w (length (requests s)) (pretty id)) as [e|[] status [e|d]];
    cbn [negb ret modify get fst snd requests onPage]; try done.
  unfold startPreload, lookupCache, bind, get, send, modify, ret.
  cbn [pokemonDataCache requests nav_name fst snd onPage].
  rewrite toLowerCase_idem.
  destruct (pokemonDataCache s !! toLowerCase (pd_name d)) as [entry|] eqn:Hentry.
  - rewrite bool_decide_eq_true_2 by done. cbn [negb].
    by rewrite bool_decide_eq_false_2 by done.
  - rewrite bool_decide_eq_false_2 by (by intros [? ?]). cbn [negb].
    rewrite bool_decide_eq_true_2 by done. cbn. rewrite Hentry. cbn.
    by rewrite <- app_assoc.
Qed.

Lemma neighbourRequests_outside cache position id :
  ~ (1 <= id <= MAX_POKEMON_ID_FOR_NAV)%Z ->
  neighbourRequests w cache position id = [].
Proof.
  intros Hout. unfold neighbourRequests.
  destruct (Z.leb_spec 1 id), (Z.leb_spec id MAX_POKEMON_ID_FOR_NAV); cbn; try done.
  exfalso. apply Hout. lia.
Qed.

Lemma guarded_link (b : bool) id setLink s :
  (forall v p, sameButLinks p (setLink v p)) ->
  (b = false -> ~ (1 <= id <= MAX_POKEMON_ID_FOR_NAV)%Z) ->
  exists s',
    (if b then linkNeighbour w id setLink else ret tt) s = (Return tt, s')
    /\ pokemonDataCache s' = pokemonDataCache s
    /\ requests s'
       = (requests s
          ++ neighbourRequests w (pokemonDataCache s) (length (requests s)) id)%list.
Proof.
  intros Hset Hguard. destruct b.
  - pose proof (linkNeighbour_spec w id setLink s Hset) as (Hret & Hcache & _).
    pose proof (linkNeighbour_requests id setLink s) as Hreq.
    destruct (linkNeighbour w id setLink s) as [r s'] eqn:Hrun. cbn [fst snd] in *.
    exists s'. by subst r.
  - exists s. split; [done|]. split; [done|].
    by rewrite neighbourRequests_outside, app_nil_r by auto.
Qed.

Lemma linkNeighbours_requests d s :
  requests (snd (linkNeighbours w d s))
  = (requests s
     ++ neighbourRequests w (pokemonDataCache s) (length (requests s)) (pd_id d - 1)
     ++ neighbourRequests w (pokemonDataCache s)
          (length (requests s)
           + length (neighbourRequests w (pokemonDataCache s) (length (requests s))
                       (pd_id d - 1)))
          (pd_id d + 1))%list.
Proof.
  unfold linkNeighbours, bind, modify. cbn [fst snd].
  set (s0 := onPage (setNextPokemonLink None) (onPage (setPrevPokemonLink None) s)).
  destruct (guarded_link (pd_id d >? 1)%Z (pd_id d - 1) setPrevPokemonLink s0)
    as (s1 & -> & Hc1 & Hr1).
  { intros v p. by repeat split. }
  { intros Hb. rewrite Z.gtb_ltb in Hb. apply Z.ltb_ge in Hb. lia. }
  destruct (guarded_link (pd_id d <? MAX_POKEMON_ID_FOR_NAV)%Z (pd_id d + 1)
              setNextPokemonLink s1) as (s2 & -> & Hc2 & Hr2).
  { intros v p. by repeat split. }
  { intros Hb. apply Z.ltb_ge in Hb. lia. }
  cbn [snd requests setPreloadInitiated].
  rewrite Hr2, Hr1, Hc1, length_app, <- app_assoc. done.
Qed.

Lemma lookupCache_awaited cache now identifier :
  lookupCache cache now identifier false <> Skipped.
Proof.
  unfold lookupCache. destruct (cache !! _) as [entry|]; [|done].
  by destruct (_ <? _)%Z.
Qed.

Lemma storeResponse_none cache now key res cache' :
  storeResponse cache now key res = (None, cache') -> cache' = cache.
Proof.
  unfold storeResponse. destruct res as [e|[] status [e|d]]; cbn; congruence.
Qed.

(** Lines 210-242: the details, then the neighbours. *)
Lemma details_then_neighbours d s :
  wp (exec fetchPageSpecificDetails w d; linkNeighbours w d)
     (fun r s' =>
        r = Return tt
        /\ pokemonDataCache s' = pokemonDataCache s
        /\ pokemonData (page s') = pokemonData (page s)
        /\ exists urls,
             requests s'
             = (requests s ++ (GetUrl <$> urls)
                ++ neighbourRequests w (pokemonDataCache s)
                     (length (requests s) + length urls) (pd_id d - 1)
                ++ neighbourRequests w (pokemonDataCache s)
                     (length (requests s) + length urls
                      + length (neighbourRequests w (pokemonDataCache s)
                                  (length (requests s) + length urls) (pd_id d - 1)))
                     (pd_id d + 1))%list) s.
Proof.
  apply wp_bind. eapply wp_mono; [apply fetchPageSpecificDetails_spec|].
  intros r s3 (-> & Hdet & _). unfold andThen.
  destruct Hdet as (Hc3 & _ & _ & Hdata3 & _ & _ & _ & urls & Hreq3).
  pose proof (linkNeighbours_spec w d s3) as (Hret & Hc4 & Hlinks & _).
  pose proof (linkNeighbours_requests d s3) as Hreq4.
  unfold wp. split; [exact Hret|]. split; [by rewrite Hc4|].
  destruct Hlinks as (Hdata4 & _). split; [by rewrite Hdata4|].
  exists urls. rewrite Hreq4, Hreq3, Hc3, length_app, length_fmap, <- app_assoc. done.
Qed.

Lemma loadCurrent_outcome identifier s :
  identifier <> EmptyString ->
  fst (loadCurrentPokemonAndPreloadNeighbors w identifier s) = Return tt
  /\ loadOutcome w identifier s (snd (loadCurrentPokemonAndPreloadNeighbors w identifier s)).
Proof.
  intros Hne.
  change (wp (loadCurrentPokemonAndPreloadNeighbors w identifier)
             (fun r s' => r = Return tt /\ loadOutcome w identifier s s') s).
  unfold loadCurrentPokemonAndPreloadNeighbors. cbn [truthy_str].
  destruct (String.eqb_spec identifier EmptyString) as [?|_]; [done|]. cbn [negb].
  do 4 (apply wp_bind, wp_modify; unfold andThen).
  set (s0 := setPreloadInitiated false _).
  apply wp_bind. eapply wp_mono; [apply fetchPokemonDataByNameOrId_spec|].
  intros r s1 (fetched & -> & Hpage1 & _ & _ & Hlook). unfold andThen.
  unfold lookedUp in Hlook. rewrite toLowerCase_idem in Hlook.
  change (pokemonDataCache s0) with (pokemonDataCache s) in Hlook.
  change (requests s0) with (requests s) in Hlook.
  unfold loadOutcome. cbv zeta.
  pose proof (lookupCache_awaited (pokemonDataCache s) (clock w (length (requests s)))
                (toLowerCase identifier)) as Hawaited.
  destruct (lookupCache _ _ (toLowerCase identifier) false) as [d| |]; [|done|].
  - destruct Hlook as [-> ->].
    apply wp_bind. do 2 (apply wp_bind, wp_modify; unfold andThen).
    set (s2 := onPage (setAnimatedStats _) _).
    eapply wp_mono; [apply (details_then_neighbours d s2)|].
    intros r s4 (-> & Hc4 & Hdata4 & urls & Hreq4). unfold andThen.
    apply wp_modify. split; [done|]. cbn [pokemonDataCache onPage page requests].
    split; [exact Hc4|]. split; [cbn; by rewrite Hdata4|].
    exists urls. cbn [app length pokemonDataCache onPage requests]. rewrite Hreq4, Hc4.
    change (requests s2) with (requests s). change (pokemonDataCache s2) with (pokemonDataCache s).
    by rewrite Nat.add_0_r.
  - destruct Hlook as [Hreq1 Hstore].
    destruct (storeResponse _ _ _ _) as [result cache'] eqn:Hres.
    injection Hstore as -> Hc1.
    destruct result as [d|].
    + apply wp_bind. do 2 (apply wp_bind, wp_modify; unfold andThen).
      set (s2 := onPage (setAnimatedStats _) _).
      eapply wp_mono; [apply (details_then_neighbours d s2)|].
      intros r s4 (-> & Hc4 & Hdata4 & urls & Hreq4). unfold andThen.
      apply wp_modify. split; [done|]. cbn [pokemonDataCache onPage page requests].
      change (pokemonDataCache s2) with (pokemonDataCache s1) in *.
      change (requests s2) with (requests s1) in *.
      split; [by rewrite Hc4|]. split; [cbn; by rewrite Hdata4|].
      exists urls. cbn [pokemonDataCache onPage requests].
      rewrite Hreq4, Hc4, Hreq1, length_app, <- app_assoc. cbn [length app].
      done.
    + apply storeResponse_none in Hres. subst cache'.
      apply wp_bind, wp_modify. unfold andThen. apply wp_modify.
      split; [done|]. cbn. rewrite Hpage1. done.
Qed.
End Traces.

(** C7.  [loadCurrentPokemonAndPreloadNeighbors], for a name that is not
    empty, first obtains the record of the creature asked for: from the
    cache when the entry is fresh, and otherwise by a request that is
    sent before every other.  When that request fails nothing else is
    requested and the error names the creature.  When the record is
    there, the requests of the details follow, then those of the
    neighbour [n - 1] and those of the neighbour [n + 1]: for a neighbour
    the navigation record is requested exactly when its number lies
    between 1 and the maximum navigation id, and the preload of its
    record follows exactly when that request is answered with a record
    whose key the cache lacks.  Nothing of the neighbour phase is
    surfaced: it never throws and leaves the error of the page as it was,
    a preload that ends later touches no cell of the page, a request that
    fails yields [null], and a navigation request that fails is followed
    by no preload. *)
Theorem preloads_follow_the_current_record
    (w : Detail.World) (identifier : string) (s : Detail.Sys) :
  identifier <> EmptyString ->
  fst (Detail.loadCurrentPokemonAndPreloadNeighbors w identifier s) = Eff.Return tt
  /\ Frame.loadOutcome w identifier s
       (snd (Detail.loadCurrentPokemonAndPreloadNeighbors w identifier s))
  /\ (forall d s1,
        fst (Detail.linkNeighbours w d s1) = Eff.Return tt
        /\ Detail.error (Detail.page (snd (Detail.linkNeighbours w d s1)))
           = Detail.error (Detail.page s1))
  /\ (forall now p s1, Detail.page (Detail.settlePreload w now p s1) = Detail.page s1)
  /\ (forall cache now key res,
        Failure.unreachable res -> Detail.storeResponse cache now key res = (None, cache))
  /\ (forall id s1,
        Failure.unreachable (Detail.pokemon w (length (Detail.requests s1)) (pretty id)) ->
        fst (Detail.fetchPokemonNavInfoById w id s1) = Eff.Return None
        /\ forall cache,
             Frame.neighbourRequests w cache (length (Detail.requests s1)) id
             = if ((1 <=? id) && (id <=? Detail.MAX_POKEMON_ID_FOR_NAV))%Z
               then [Detail.GetNavInfo id] else []).
Proof.
  intros Hne.
  destruct (loadCurrent_outcome w identifier s Hne) as [Hret Hout].
  split; [exact Hret|]. split; [exact Hout|].
  split; [|split; [|split]].
  - intros d s1. destruct (linkNeighbours_spec w d s1) as (Hret1 & _ & Hlinks & _).
    split; [done|]. unfold Frame.sameButLinks in Hlinks. intuition.
  - apply settlePreload_page.
  - apply storeResponse_unreachable.
  - intros id s1 Hun. split; [by apply fetchPokemonNavInfoById_fails|].
    intros cache. unfold Frame.neighbourRequests.
    destruct (_ && _)%bool; [|done].
    destruct (Detail.pokemon w _ _) as [e|[] status [e|d]]; try done.
    cbn in Hun. by destruct Hun as [?|[? ?]].
Qed.

Lemma preloads_follow_the_current_record_witness :
  Frame.loadOutcome (Worlds.network true) "Pikachu" Worlds.freshSys
    (snd (Detail.loadCurrentPokemonAndPreloadNeighbors (Worlds.network true) "Pikachu"
            Worlds.freshSys)).
Proof.
  apply (proj1 (proj2 (preloads_follow_the_current_record
                         (Worlds.network true) "Pikachu" Worlds.freshSys
                         ltac:(discriminate)))).
Defined.

(** ** Preloads and the entries of the cache *)

Section PreloadFrame.
Import Js Eff Post Api Detail Frame.
Variable w : World.

Lemma lookupCache_preload_present cache now identifier entry :
  cache !! toLowerCase identifier = Some entry ->
  lookupCache cache now identifier true = Fresh (data entry)
  \/ lookupCache cache now identifier true = Skipped.
Proof.
  intros Hentry. unfold lookupCache. rewrite Hentry.
  destruct (_ <? _)%Z; [by left|by right].
Qed.

Lemma startPreload_present identifier s entry :
  pokemonDataCache s !! toLowerCase identifier = Some entry ->
  startPreload w identifier s = (Return tt, s).
Proof.
  intros Hentry. unfold startPreload, bind, get.
  by destruct (lookupCache_preload_present (pokemonDataCache s)
                 (clock w (length (requests s))) identifier entry Hentry) as [->| ->].
Qed.

Lemma awaited_preload_present identifier s entry :
  pokemonDataCache s !! toLowerCase identifier = Some entry ->
  exists result, fetchPokemonDataByNameOrId w identifier true s = (Return result, s).
Proof.
  intros Hentry. unfold fetchPokemonDataByNameOrId, bind, get.
  destruct (lookupCache_preload_present (pokemonDataCache s)
              (clock w (length (requests s))) identifier entry Hentry) as [->| ->];
    by eexists.
Qed.

Lemma settlePreload_stores now key n s d status :
  (key, n) ∈ inFlight s ->
  pokemon w n key = Responded true status (inr d) ->
  pokemonDataCache (settlePreload w now (key, n) s) !! key
  = Some {| data := d; timestamp := now |}.
Proof.
  intros Hin Hres. unfold settlePreload. rewrite bool_decide_eq_true_2 by done.
  unfold storeResponse. rewrite Hres. cbn. apply lookup_insert_eq.
Qed.
End PreloadFrame.

(** C9 (amended).  A preload call for a key that has a cache entry when
    the call is made, fresh or expired, returns without sending a request
    and leaves everything as it was, whether its caller awaits it or not;
    so among the lookups that find an entry only those that are not
    preloads overwrite it.  A preload that found no entry is in flight
    until its request is answered, and its continuation then stores the
    record under the key whatever the cache holds there by then. *)
Theorem preload_leaves_the_entries_it_finds
    (w : Detail.World) (identifier : string) (s : Detail.Sys)
    (entry : Detail.CachedPokemonData) :
  Detail.pokemonDataCache s !! Js.toLowerCase identifier = Some entry ->
  Detail.startPreload w identifier s = (Eff.Return tt, s)
  /\ (exists result,
        Detail.fetchPokemonDataByNameOrId w identifier true s = (Eff.Return result, s))
  /\ (forall isPreload,
        Detail.pokemonDataCache (snd (Detail.fetchPokemonDataByNameOrId w identifier isPreload s))
        <> Detail.pokemonDataCache s ->
        isPreload = false)
  /\ (forall now n s1 d status,
        (Js.toLowerCase identifier, n) ∈ Detail.inFlight s1 ->
        Detail.pokemon w n (Js.toLowerCase identifier) = Js.Responded true status (inr d) ->
        Detail.pokemonDataCache
          (Detail.settlePreload w now (Js.toLowerCase identifier, n) s1)
          !! Js.toLowerCase identifier
        = Some {| Detail.data := d; Detail.timestamp := now |}).
Proof.
  intros Hentry.
  split; [by eapply startPreload_present|].
  split; [by eapply awaited_preload_present|].
  split.
  - intros [] Hchanged; [|done]. exfalso. apply Hchanged.
    destruct (awaited_preload_present w identifier s entry Hentry) as [result ->]. done.
  - intros now n s1 d status. apply settlePreload_stores.
Qed.

(** C9 as it was stated fails when a preload is in flight: started
    while the cache had no entry for raichu, it is answered after a
    lookup that was not a preload has stored one, and its continuation
    replaces that entry with one of a later timestamp. *)
Lemma preload_in_flight_replaces_a_later_entry :
  Detail.pokemonDataCache Worlds.freshSys !! "raichu" = None
  /\ Detail.inFlight (snd (Detail.startPreload (Worlds.network true) "raichu" Worlds.freshSys))
     = [("raichu", 0%nat)]
  /\ Detail.pokemonDataCache
       (snd (Detail.fetchPokemonDataByNameOrId (Worlds.network true) "raichu" false
               (snd (Detail.startPreload (Worlds.network true) "raichu" Worlds.freshSys))))
       !! "raichu"
     = Some {| Detail.data := Worlds.creature 26 "raichu"; Detail.timestamp := 2000 |}
  /\ Detail.pokemonDataCache
       (Detail.settlePreload (Worlds.network true) 9000 ("raichu", 0%nat)
          (snd (Detail.fetchPokemonDataByNameOrId (Worlds.network true) "raichu" false
                  (snd (Detail.startPreload (Worlds.network true) "raichu" Worlds.freshSys)))))
       !! "raichu"
     = Some {| Detail.data := Worlds.creature 26 "raichu"; Detail.timestamp := 9000 |}.
Proof. repeat split; vm_compute; reflexivity. Qed.

Lemma preload_leaves_the_entries_it_finds_witness :
  Detail.startPreload (Worlds.network true) "Raichu"
    (Detail.setCache
       {[ "raichu" := {| Detail.data := Worlds.creature 26 "raichu"; Detail.timestamp := 0 |} ]}
       Worlds.freshSys)
  = (Eff.Return tt,
     Detail.setCache
       {[ "raichu" := {| Detail.data := Worlds.creature 26 "raichu"; Detail.timestamp := 0 |} ]}
       Worlds.freshSys).
Proof.
  refine (proj1 (preload_leaves_the_entries_it_finds (Worlds.network true) "Raichu"
                   (Detail.setCache
                      {[ "raichu" := {| Detail.data := Worlds.creature 26 "raichu";
                                         Detail.timestamp := 0 |} ]}
                      Worlds.freshSys)
                   {| Detail.data := Worlds.creature 26 "raichu"; Detail.timestamp := 0 |} _)).
  vm_compute. reflexivity.
Defined.

(** ** The two expiring caches *)

Section DetailCache.
Import Js Eff Post Api Detail Frame.

Lemma lookupCache_after_store cache t identifier status d t' isPreload :
  lookupCache
    (snd (storeResponse cache t (toLowerCase identifier) (Responded true status (inr d))))
    t' identifier isPreload
  = if (t' - t <? CACHE_EXPIRY_MS)%Z then Fresh d
    else if isPreload then Skipped else Absent.
Proof.
  unfold storeResponse, lookupCache. cbn. by rewrite lookup_insert_eq.
Qed.

Lemma fetch_on_absent w identifier isPreload s :
  lookupCache (pokemonDataCache s) (clock w (length (requests s))) identifier isPreload
    = Absent ->
  requests (snd (fetchPokemonDataByNameOrId w identifier isPreload s))
  = (requests s ++ [GetPokemon (toLowerCase identifier) isPreload])%list.
Proof.
  intros Hlook.
  destruct (fetchPokemonDataByNameOrId_spec w identifier isPreload s)
    as (result & _ & _ & _ & _ & Hl).
  unfold lookedUp in Hl. rewrite Hlook in Hl. by destruct Hl.
Qed.

Lemma no_fetch_on_fresh w identifier isPreload s d :
  lookupCache (pokemonDataCache s) (clock w (length (requests s))) identifier isPreload
    = Fresh d ->
  fetchPokemonDataByNameOrId w identifier isPreload s = (Return (Some d), s).
Proof.
  intros Hlook. unfold fetchPokemonDataByNameOrId, bind, get. by rewrite Hlook.
Qed.

(** A key that has no entry is a miss, and a preload of it sends the
    request. *)
Lemma startPreload_absent w identifier s :
  pokemonDataCache s !! toLowerCase identifier = None ->
  requests (snd (startPreload w identifier s))
  = (requests s ++ [GetPokemon (toLowerCase identifier) true])%list.
Proof.
  intros Hnone. unfold startPreload, lookupCache, bind, get. cbn [fst snd].
  by rewrite Hnone.
Qed.

(** The preloads that linking a neighbour starts are for keys that have
    no entry: the guard of lines 228 and 237. *)
Lemma linkNeighbour_preloads_absent w id setLink s key n :
  requests (snd (linkNeighbour w id setLink s)) !! n = Some (GetPokemon key true) ->
  (length (requests s) <= n)%nat ->
  pokemonDataCache s !! key = None.
Proof.
  rewrite linkNeighbour_requests. intros Hn Hlen.
  rewrite lookup_app_r in Hn by done.
  unfold neighbourRequests in Hn.
  destruct (_ && _)%bool; [|done].
  destruct (n - length (requests s))%nat as [|[|m]]; [done| |].
  - destruct (pokemon w _ _) as [e|[] status [e|d]]; try done.
    case_bool_decide as Hkey; [|done]. cbn in Hn. by injection Hn as <-.
  - destruct (pokemon w _ _) as [e|[] status [e|d]]; try done.
    by case_bool_decide.
Qed.
End DetailCache.

Section ListCache.
Import Js Eff Api Context.
Variable w : World.

Lemma list_fresh s stored :
  localStorage s !! CACHE_KEY_MINIMAL_LIST = Some stored ->
  (clock w (sent s) - sl_timestamp stored < CACHE_DURATION_MS)%Z ->
  fetchMinimalPokemonList w s
  = setIsLoadingMinimalList false
      (setMinimalPokemonList (sl_data stored)
         (setSearchError None (setIsLoadingMinimalList true s))).
Proof.
  intros Hstored Hfresh. unfold fetchMinimalPokemonList.
  cbn [localStorage setSearchError setIsLoadingMinimalList sent]. rewrite Hstored.
  by rewrite (proj2 (Z.ltb_lt _ _) Hfresh).
Qed.

(** After a request the item is either gone or the newly fetched list,
    stamped with the time of the answer. *)
Lemma refetch_spec s :
  sent (snd (refetch w s)) = S (sent s)
  /\ (localStorage (snd (refetch w s)) = localStorage s
      \/ exists status results,
           listing w (sent s) = Responded true status (inr results)
           /\ minimalPokemonList (snd (refetch w s)) = sortById (imap toMinimal results)
           /\ localStorage (snd (refetch w s))
              = <[CACHE_KEY_MINIMAL_LIST :=
                    {| sl_timestamp := clock w (S (sent s));
                       sl_data := sortById (imap toMinimal results) |}]> (localStorage s)).
Proof.
  unfold refetch, bind, get, modify. cbn.
  destruct (listing w (sent s)) as [e|ok status body]; cbn; [by split; [|left]|].
  destruct ok; cbn; [|by split; [|left]].
  destruct body as [e|results]; cbn; [by split; [|left]|].
  split; [done|]. right. by exists status, results.
Qed.

Lemma fetchAgain_spec s :
  let s' := setIsLoadingMinimalList false
              (snd (try_catch (refetch w)
                      (fun message => modify (setSearchError (Some message))) s)) in
  sent s' = S (sent s)
  /\ (localStorage s' = localStorage s
      \/ exists status results,
           listing w (sent s) = Responded true status (inr results)
           /\ minimalPokemonList s' = sortById (imap toMinimal results)
           /\ localStorage s'
              = <[CACHE_KEY_MINIMAL_LIST :=
                    {| sl_timestamp := clock w (S (sent s));
                       sl_data := sortById (imap toMinimal results) |}]> (localStorage s)).
Proof.
  cbn zeta. unfold try_catch. pose proof (refetch_spec s) as Hre.
  destruct (refetch w s) as [[[]|e] s1]; cbn [fst snd] in *; cbn; exact Hre.
Qed.

Lemma list_expired s stored :
  localStorage s !! CACHE_KEY_MINIMAL_LIST = Some stored ->
  (CACHE_DURATION_MS <= clock w (sent s) - sl_timestamp stored)%Z ->
  sent (fetchMinimalPokemonList w s) = S (sent s)
  /\ (localStorage (fetchMinimalPokemonList w s) !! CACHE_KEY_MINIMAL_LIST = None
      \/ exists list,
           minimalPokemonList (fetchMinimalPokemonList w s) = list
           /\ localStorage (fetchMinimalPokemonList w s) !! CACHE_KEY_MINIMAL_LIST
              = Some {| sl_timestamp := clock w (S (sent s)); sl_data := list |}).
Proof.
  intros Hstored Hold. unfold fetchMinimalPokemonList.
  cbn [localStorage setSearchError setIsLoadingMinimalList sent]. rewrite Hstored.
  rewrite (proj2 (Z.ltb_ge _ _) Hold).
  set (s0 := setLocalStorage _ _).
  destruct (try_catch _ _ s0) as [r s1] eqn:Hrun.
  pose proof (fetchAgain_spec s0) as Hspec. cbn zeta in Hspec. rewrite Hrun in Hspec.
  cbn [snd] in Hspec. destruct Hspec as [Hsent Hstore].
  split; [exact Hsent|].
  destruct Hstore as [Hsame|(status & results & _ & Hlist & Hnew)].
  - left. rewrite Hsame. subst s0. cbn. apply lookup_delete_eq.
  - right. eexists. split; [exact Hlist|]. rewrite Hnew. apply lookup_insert_eq.
Qed.

Lemma list_put s status results :
  localStorage s !! CACHE_KEY_MINIMAL_LIST = None ->
  listing w (sent s) = Responded true status (inr results) ->
  sent (fetchMinimalPokemonList w s) = S (sent s)
  /\ minimalPokemonList (fetchMinimalPokemonList w s) = sortById (imap toMinimal results)
  /\ localStorage (fetchMinimalPokemonList w s) !! CACHE_KEY_MINIMAL_LIST
     = Some {| sl_timestamp := clock w (S (sent s));
               sl_data := sortById (imap toMinimal results) |}.
Proof.
  intros Hnone Hres. unfold fetchMinimalPokemonList.
  cbn [localStorage setSearchError setIsLoadingMinimalList sent]. rewrite Hnone.
  unfold try_catch, refetch, bind, get, modify. cbn. rewrite Hres. cbn.
  split; [done|]. split; [done|]. apply lookup_insert_eq.
Qed.
End ListCache.

(** C6.  The freshness window is 5 minutes for the records of the
    detail page and 24 hours for the list of the search index.
    - Detail records: once a record is stored under a key, a lookup of
      that key at the same instant, and at any instant less than the
      window later, returns the stored record and sends no request; once
      the window has elapsed the lookup of the page (line 197) is a miss
      and the record is requested again.  The page makes no other lookup
      of a key that has an entry: a preload is started only for a key
      without one (lines 228 and 237), which is a miss as well and sends
      the request.
    - The list: once fetched it is stored with the time of the answer; a
      later load within the window takes the stored list and sends no
      request; once the window has elapsed the item is removed and the
      list is requested again. *)
Theorem cache_put_get_and_expiry :
  Detail.CACHE_EXPIRY_MS = (5 * 60 * 1000)%Z
  /\ Context.CACHE_DURATION_MS = (24 * 60 * 60 * 1000)%Z
  /\ (forall cache t identifier status d isPreload,
        Detail.lookupCache
          (snd (Detail.storeResponse cache t (Js.toLowerCase identifier)
                  (Js.Responded true status (inr d))))
          t identifier isPreload
        = Detail.Fresh d)
  /\ (forall cache t identifier status d t' isPreload,
        (t' - t < Detail.CACHE_EXPIRY_MS)%Z ->
        Detail.lookupCache
          (snd (Detail.storeResponse cache t (Js.toLowerCase identifier)
                  (Js.Responded true status (inr d))))
          t' identifier isPreload
        = Detail.Fresh d)
  /\ (forall cache t identifier status d t',
        (Detail.CACHE_EXPIRY_MS <= t' - t)%Z ->
        Detail.lookupCache
          (snd (Detail.storeResponse cache t (Js.toLowerCase identifier)
                  (Js.Responded true status (inr d))))
          t' identifier false
        = Detail.Absent)
  /\ (forall w identifier isPreload s d,
        Detail.lookupCache (Detail.pokemonDataCache s)
          (Detail.clock w (length (Detail.requests s))) identifier isPreload
        = Detail.Fresh d ->
        Detail.fetchPokemonDataByNameOrId w identifier isPreload s
        = (Eff.Return (Some d), s))
  /\ (forall w identifier s,
        Detail.lookupCache (Detail.pokemonDataCache s)
          (Detail.clock w (length (Detail.requests s))) identifier false
        = Detail.Absent ->
        Detail.requests (snd (Detail.fetchPokemonDataByNameOrId w identifier false s))
        = (Detail.requests s ++ [Detail.GetPokemon (Js.toLowerCase identifier) false])%list)
  /\ (forall w id setLink s key n,
        Detail.requests (snd (Detail.linkNeighbour w id setLink s)) !! n
        = Some (Detail.GetPokemon key true) ->
        (length (Detail.requests s) <= n)%nat ->
        Detail.pokemonDataCache s !! key = None)
  /\ (forall w identifier s,
        Detail.pokemonDataCache s !! Js.toLowerCase identifier = None ->
        Detail.requests (snd (Detail.startPreload w identifier s))
        = (Detail.requests s ++ [Detail.GetPokemon (Js.toLowerCase identifier) true])%list)
  /\ (forall w s status results,
        Context.localStorage s !! Context.CACHE_KEY_MINIMAL_LIST = None ->
        Context.listing w (Context.sent s) = Js.Responded true status (inr results) ->
        Context.sent (Context.fetchMinimalPokemonList w s) = S (Context.sent s)
        /\ Context.minimalPokemonList (Context.fetchMinimalPokemonList w s)
           = Context.sortById (imap Context.toMinimal results)
        /\ Context.localStorage (Context.fetchMinimalPokemonList w s)
             !! Context.CACHE_KEY_MINIMAL_LIST
           = Some {| Context.sl_timestamp := Context.clock w (S (Context.sent s));
                     Context.sl_data := Context.sortById (imap Context.toMinimal results) |})
  /\ (forall w s stored,
        Context.localStorage s !! Context.CACHE_KEY_MINIMAL_LIST = Some stored ->
        (Context.clock w (Context.sent s) - Context.sl_timestamp stored
           < Context.CACHE_DURATION_MS)%Z ->
        Context.minimalPokemonList (Context.fetchMinimalPokemonList w s)
          = Context.sl_data stored
        /\ Context.sent (Context.fetchMinimalPokemonList w s) = Context.sent s
        /\ Context.localStorage (Context.fetchMinimalPokemonList w s)
           = Context.localStorage s)
  /\ (forall w s stored,
        Context.localStorage s !! Context.CACHE_KEY_MINIMAL_LIST = Some stored ->
        (Context.CACHE_DURATION_MS
           <= Context.clock w (Context.sent s) - Context.sl_timestamp stored)%Z ->
        Context.sent (Context.fetchMinimalPokemonList w s) = S (Context.sent s)
        /\ (Context.localStorage (Context.fetchMinimalPokemonList w s)
              !! Context.CACHE_KEY_MINIMAL_LIST = None
            \/ exists list,
                 Context.minimalPokemonList (Context.fetchMinimalPokemonList w s) = list
                 /\ Context.localStorage (Context.fetchMinimalPokemonList w s)
                      !! Context.CACHE_KEY_MINIMAL_LIST
                    = Some {| Context.sl_timestamp := Context.clock w (S (Context.sent s));
                              Context.sl_data := list |})).
Proof.
  split; [reflexivity|]. split; [reflexivity|].
  split; [|split; [|split; [|split; [|split; [|split; [|split; [|split; [|split]]]]]]]].
  - intros cache t identifier status d isPreload.
    rewrite lookupCache_after_store. by rewrite Z.sub_diag.
  - intros cache t identifier status d t' isPreload Hfresh.
    rewrite lookupCache_after_store. by rewrite (proj2 (Z.ltb_lt _ _) Hfresh).
  - intros cache t identifier status d t' Hold.
    rewrite !lookupCache_after_store. by rewrite (proj2 (Z.ltb_ge _ _) Hold).
  - intros w identifier isPreload s d. apply no_fetch_on_fresh.
  - intros w identifier s. apply fetch_on_absent.
  - intros w id setLink s key n. apply linkNeighbour_preloads_absent.
  - intros w identifier s. apply startPreload_absent.
  - intros w s status results. apply list_put.
  - intros w s stored Hstored Hfresh. by rewrite (list_fresh w s stored Hstored Hfresh).
  - intros w s stored. apply list_expired.
Qed.

Lemma cache_put_get_and_expiry_witness :
  (Detail.lookupCache
     (snd (Detail.storeResponse ∅ 0 (Js.toLowerCase "Pikachu")
             (Js.Responded true 200 (inr Worlds.pikachu))))
     299999 "Pikachu" false
   = Detail.Fresh Worlds.pikachu)
  /\ Detail.lookupCache
       (snd (Detail.storeResponse ∅ 0 (Js.toLowerCase "Pikachu")
               (Js.Responded true 200 (inr Worlds.pikachu))))
       300000 "Pikachu" false
     = Detail.Absent
  /\ Detail.requests
       (snd (Detail.fetchPokemonDataByNameOrId Worlds.fiveMinutesOn "pikachu" false
               Worlds.pikachuCached))
     = (Detail.requests Worlds.pikachuCached ++ [Detail.GetPokemon "pikachu" false])%list
  /\ (Context.minimalPokemonList
        (Context.fetchMinimalPokemonList Worlds.listed
           (Context.fetchMinimalPokemonList Worlds.listed Worlds.freshContext))
      = Context.sl_data
          {| Context.sl_timestamp := 1000;
             Context.sl_data :=
               Context.minimalPokemonList
                 (Context.fetchMinimalPokemonList Worlds.listed Worlds.freshContext) |}
      /\ Context.sent
           (Context.fetchMinimalPokemonList Worlds.listed
              (Context.fetchMinimalPokemonList Worlds.listed Worlds.freshContext))
         = Context.sent (Context.fetchMinimalPokemonList Worlds.listed Worlds.freshContext)
      /\ Context.localStorage
           (Context.fetchMinimalPokemonList Worlds.listed
              (Context.fetchMinimalPokemonList Worlds.listed Worlds.freshContext))
         = Context.localStorage
             (Context.fetchMinimalPokemonList Worlds.listed Worlds.freshContext)).
Proof.
  split; [|split; [|split]].
  - apply (proj1 (proj2 (proj2 (proj2 cache_put_get_and_expiry)))).
    unfold Detail.CACHE_EXPIRY_MS. lia.
  - apply (proj1 (proj2 (proj2 (proj2 (proj2 cache_put_get_and_expiry))))).
    unfold Detail.CACHE_EXPIRY_MS. lia.
  - apply (proj1 (proj2 (proj2 (proj2 (proj2 (proj2 (proj2 cache_put_get_and_expiry)))))))
      with (w := Worlds.fiveMinutesOn) (identifier := "pikachu") (s := Worlds.pikachuCached).
    vm_compute. reflexivity.
  - apply (proj1 (proj2 (proj2 (proj2 (proj2 (proj2 (proj2 (proj2 (proj2 (proj2 (proj2
             cache_put_get_and_expiry))))))))))).
    + vm_compute. reflexivity.
    + vm_compute. reflexivity.
Defined.

(** * Further properties *)

(** ** Selecting types *)

(** X1.  A click on the button of a type changes nothing once the
    answers have been checked.  Before that it changes the selection and
    no other cell: the type clicked enters the selection if it was not in
    it and leaves it if it was, every other type stays as it was, and a
    second click on the same button undoes the first. *)
Theorem handleTypeClick_toggles (typeName : string) (st : Guesser.State) :
  (Guesser.showResults st = true -> Guesser.handleTypeClick typeName st = st)
  /\ (Guesser.showResults st = false ->
      (forall x, x ∈ Guesser.selectedTypes (Guesser.handleTypeClick typeName st)
                 <-> (x <> typeName /\ x ∈ Guesser.selectedTypes st)
                     \/ (x = typeName /\ typeName ∉ Guesser.selectedTypes st))
      /\ Guesser.handleTypeClick typeName st
         = Guesser.setSelectedTypes
             (Guesser.selectedTypes (Guesser.handleTypeClick typeName st)) st
      /\ Guesser.handleTypeClick typeName (Guesser.handleTypeClick typeName st) = st).
Proof.
  destruct st as [cp il er ce sel tcr sr tk stt gw].
  unfold Guesser.handleTypeClick, Guesser.setSelectedTypes. cbn.
  split; [by intros ->|]. intros ->. cbn. split; [|split].
  - intros x. case_bool_decide as Hin.
    + rewrite elem_of_difference, elem_of_singleton.
      destruct (decide (x = typeName)) as [->|]; tauto.
    + rewrite elem_of_union, elem_of_singleton.
      destruct (decide (x = typeName)) as [->|]; tauto.
  - reflexivity.
  - f_equal. apply set_eq. intros x.
    destruct (decide (typeName ∈ sel)) as [Hin|Hin].
    + rewrite (bool_decide_eq_true_2 _ Hin).
      rewrite bool_decide_eq_false_2
        by (rewrite elem_of_difference, elem_of_singleton; tauto).
      rewrite elem_of_union, elem_of_difference, elem_of_singleton.
      destruct (decide (x = typeName)) as [->|]; tauto.
    + rewrite (bool_decide_eq_false_2 _ Hin).
      rewrite bool_decide_eq_true_2
        by (rewrite elem_of_union, elem_of_singleton; tauto).
      rewrite elem_of_difference, elem_of_union, elem_of_singleton.
      destruct (decide (x = typeName)) as [->|]; tauto.
Qed.

Lemma handleTypeClick_toggles_witness :
  Guesser.handleTypeClick "Fire" (Guesser.handleTypeClick "Fire" Guesser.initialState)
  = Guesser.initialState.
Proof.
  apply (proj2 (handleTypeClick_toggles "Fire" Guesser.initialState)).
  reflexivity.
Defined.

(** ** Rounds of the quiz *)

Section Rounds.
Import Js Eff Registry Api Guesser Failure Round.
Variable w : World.

Lemma calculatedEffectivenessMap_table ds :
  Quiz.effectivenessTable (calculatedEffectivenessMap ds).
Proof.
  assert (dom (calculatedEffectivenessMap ds) = list_to_set Quiz.typeNames) as Hdom.
  { unfold calculatedEffectivenessMap.
    rewrite (fill_dom td_name (finalMultiplier ds)). set_solver. }
  split; [exact Hdom|].
  intros k v Hk.
  assert (k ∈ dom (calculatedEffectivenessMap ds)) as Hin by (apply elem_of_dom; eauto).
  rewrite Hdom in Hin. apply elem_of_list_to_set in Hin.
  unfold Quiz.typeNames in Hin. apply list_elem_of_fmap in Hin as (T & -> & HT).
  destruct (calculatedEffectivenessMap_lookup ds T HT) as (q & Hq & _).
  rewrite Hq in Hk. by injection Hk as <-.
Qed.

(** How an iteration of the loop of [startNewGame] leaves the state. *)
Lemma attempt_shape k s :
  (fst (attempt w k s) = Return Retries
   /\ (snd (attempt w k s) = s
       \/ exists p, snd (attempt w k s) = setCurrentPokemon (Some p) s))
  \/ (exists p ds,
        attempt w k s =
          (Return Returns,
           setIsLoading false
             (setCorrectEffectiveness (calculatedEffectivenessMap ds)
                (setCurrentPokemon (Some p) s)))
        /\ truthy_str (front_default (pk_sprites p)) = true
        /\ Forall2 (fun slot d => exists status,
                      fetchType w k (nr_url (ts_type slot)) = Responded true status (inr d))
                   (pk_types p) ds).
Proof.
  destruct (attempt w k s) as [r s'] eqn:Hrun.
  unfold attempt, try_catch in Hrun.
  destruct (fetchPokemon w k _) as [e|ok status body].
  { injection Hrun as <- <-. left. split; [done|by left]. }
  destruct ok; cbn [negb] in Hrun.
  2:{ destruct (status =? 404)%Z; injection Hrun as <- <-; left; (split; [done|by left]). }
  destruct body as [e|data].
  { injection Hrun as <- <-. left. split; [done|by left]. }
  destruct (truthy_str _) eqn:Hsprite; cbn [negb] in Hrun.
  2:{ injection Hrun as <- <-. left. split; [done|by left]. }
  unfold bind at 1 in Hrun. cbn [modify] in Hrun.
  set (p := {| pk_id := _ |}) in Hrun.
  set (s1 := setCurrentPokemon (Some p) s) in Hrun.
  unfold bind at 1 in Hrun.
  destruct (calculateEffectiveness_cases w k p s1) as [[e He]|(ds & Hall & He)];
    rewrite He in Hrun; cbn in Hrun; injection Hrun as <- <-.
  - left. split; [done|]. right. by exists p.
  - right. exists p, ds. split; [reflexivity|]. split; [exact Hsprite|exact Hall].
Qed.

Lemma sameRound_refl st : sameRound st st.
Proof. by repeat split. Qed.

Lemma sameRound_trans st1 st2 st3 :
  sameRound st1 st2 -> sameRound st2 st3 -> sameRound st1 st3.
Proof. unfold sameRound. intuition congruence. Qed.

Lemma attemptLoop_round fuel : forall k st a st',
  (k <= 5)%nat ->
  attemptLoop fuel w k st = Some (a, st') ->
  sameRound st st'
  /\ isLoading st' = false
  /\ (a = 5%nat ->
      correctEffectiveness st' = correctEffectiveness st
      /\ error st' = Some exhausted)
  /\ ((a < 5)%nat ->
      error st' = error st
      /\ exists p ds,
           currentPokemon st' = Some p
           /\ truthy_str (front_default (pk_sprites p)) = true
           /\ correctEffectiveness st' = calculatedEffectivenessMap ds
           /\ Forall2 (fun slot d => exists status,
                         fetchType w a (nr_url (ts_type slot))
                         = Responded true status (inr d))
                      (pk_types p) ds).
Proof.
  induction fuel as [|fuel IH]; intros k st a st' Hk Hrun.
  - cbn [attemptLoop] in Hrun. destruct (Nat.ltb_spec k 5); [done|].
    injection Hrun as <- <-. assert (k = 5%nat) as -> by lia.
    split; [by repeat split|]. split; [done|]. split; [done|lia].
  - cbn [attemptLoop] in Hrun. destruct (Nat.ltb_spec k 5) as [Hlt|Hge].
    + destruct (attempt_shape k st) as [[Hret Hst]|(p & ds & Hatt & Hsprite & Hall)].
      * destruct (attempt w k st) as [r s1]. cbn in Hret, Hst. subst r.
        cbv beta iota in Hrun.
        destruct (IH (S k) s1 a st') as (Hround & Hload & Hex & Hok); [lia|done|].
        assert (sameRound st s1 /\ correctEffectiveness s1 = correctEffectiveness st
                /\ error s1 = error st) as (Hr1 & Hc1 & He1).
        { destruct Hst as [->|[p ->]]; by repeat split. }
        split; [by eapply sameRound_trans|]. split; [done|]. split.
        -- intros Ha. destruct (Hex Ha) as [Hc He]. split; [congruence|done].
        -- intros Ha. destruct (Hok Ha) as [He Hp]. split; [congruence|done].
      * rewrite Hatt in Hrun. injection Hrun as <- <-.
        split; [by repeat split|]. split; [done|]. split; [lia|].
        intros _. split; [done|]. exists p, ds. by repeat split.
    + injection Hrun as <- <-. assert (k = 5%nat) as -> by lia.
      split; [by repeat split|]. split; [done|]. split; [done|lia].
Qed.

Lemma clicked_table clicks : forall st,
  correctEffectiveness (clicked clicks st) = correctEffectiveness st.
Proof.
  unfold clicked. induction clicks as [|n clicks IH]; intros st; [done|].
  cbn [foldl]. rewrite IH. unfold handleTypeClick. by destruct (showResults st).
Qed.

Lemma clicked_selection clicks : forall st,
  Forall (fun n => n ∈ Quiz.typeNames) clicks ->
  Quiz.selection (selectedTypes st) ->
  Quiz.selection (selectedTypes (clicked clicks st)).
Proof.
  unfold clicked, Quiz.selection.
  induction clicks as [|n clicks IH]; intros st Hall Hsel; [done|].
  apply Forall_cons in Hall as [Hn Hall]. cbn [foldl]. apply IH; [done|].
  unfold handleTypeClick. destruct (showResults st); [done|].
  cbn [selectedTypes setSelectedTypes]. case_bool_decide.
  - intros x Hx. apply elem_of_difference in Hx as [Hx _]. by apply Hsel.
  - intros x Hx. apply elem_of_union in Hx as [Hx|Hx]; [by apply Hsel|].
    apply elem_of_singleton in Hx as ->. by apply elem_of_list_to_set.
Qed.
End Rounds.

(** X2.  [startNewGame] starts a new round whatever the network
    answers: when it ends, no type is selected, no result is kept or
    shown, the game is not won and the timer runs from the time of the
    call; the time of the previous round stays where it was.  When all
    five attempts have failed the table of the previous creature is still
    in place and the page shows the terminal error. *)
Theorem startNewGame_resets_the_round
    (fuel : nat) (w : Guesser.World) (now : Z) (st : Guesser.State) :
  (5 <= fuel)%nat ->
  exists attempts st',
    Guesser.startNewGame fuel w now st = Some (attempts, st')
    /\ Guesser.selectedTypes st' = ∅
    /\ Guesser.typeCheckResults st' = ∅
    /\ Guesser.showResults st' = false
    /\ Guesser.gameWon st' = false
    /\ Guesser.startTime st' = Some now
    /\ Guesser.timeTaken st' = Guesser.timeTaken st
    /\ (attempts = 5%nat ->
        Guesser.correctEffectiveness st' = Guesser.correctEffectiveness st
        /\ GuesserView.screen st' = GuesserView.ErrorScreen Failure.exhausted).
Proof.
  intros Hfuel. unfold Guesser.startNewGame.
  set (st0 := Guesser.setStartTime _ _).
  destruct (attemptLoop_spec w fuel 0 st0) as (a & st' & Hloop & _); [lia|lia|].
  destruct (attemptLoop_round w fuel 0 st0 a st') as (Hround & Hload & Hex & _); [lia|done|].
  destruct Hround as (Hsel & Hres & Hshow & Hwon & Htime & Hstart).
  exists a, st'. split; [done|]. repeat split; try done.
  - by apply Hex.
  - unfold GuesserView.screen. rewrite Hload. destruct (Hex H) as [_ ->]. reflexivity.
Qed.

Lemma startNewGame_resets_the_round_witness :
  exists attempts st',
    Guesser.startNewGame 5 Worlds.offlineQuiz 7 Guesser.initialState = Some (attempts, st')
    /\ Guesser.selectedTypes st' = ∅
    /\ Guesser.startTime st' = Some 7%Z.
Proof.
  destruct (startNewGame_resets_the_round 5 Worlds.offlineQuiz 7 Guesser.initialState)
    as (attempts & st' & Hrun & Hsel & _ & _ & _ & Hstart & _); [lia|].
  by exists attempts, st'.
Defined.

(** X3.  A game that [startNewGame] has started can be scored.  When an
    attempt succeeds the page leaves the loading screen for the game: a
    creature with a sprite is shown, and the table holds a number for
    each of the 18 types and for nothing else, computed from the records
    that the attempt received for the types of that creature.  Clicks on
    the buttons of the registry's types keep the selection among the 18
    types and leave the table alone. *)
Theorem started_game_can_be_scored
    (fuel : nat) (w : Guesser.World) (now : Z) (st : Guesser.State)
    (clicks : list string) :
  (5 <= fuel)%nat ->
  Forall (fun n => n ∈ Quiz.typeNames) clicks ->
  exists attempts st',
    Guesser.startNewGame fuel w now st = Some (attempts, st')
    /\ ((attempts < 5)%nat ->
        GuesserView.screen st' = GuesserView.GameScreen
        /\ (exists p ds,
              Guesser.currentPokemon st' = Some p
              /\ Js.truthy_str (Guesser.front_default (Guesser.pk_sprites p)) = true
              /\ Guesser.correctEffectiveness st' = Guesser.calculatedEffectivenessMap ds
              /\ Forall2 (fun slot d => exists status,
                            Guesser.fetchType w attempts (Api.nr_url (Api.ts_type slot))
                            = Js.Responded true status (inr d))
                         (Guesser.pk_types p) ds)
        /\ Quiz.effectivenessTable (Guesser.correctEffectiveness (Round.clicked clicks st'))
        /\ Quiz.selection (Guesser.selectedTypes (Round.clicked clicks st'))).
Proof.
  intros Hfuel Hclicks. unfold Guesser.startNewGame.
  set (st0 := Guesser.setStartTime _ _).
  destruct (attemptLoop_spec w fuel 0 st0) as (a & st' & Hloop & _); [lia|lia|].
  destruct (attemptLoop_round w fuel 0 st0 a st') as (Hround & Hload & _ & Hok); [lia|done|].
  exists a, st'. split; [done|]. intros Ha.
  destruct (Hok Ha) as (Herr & p & ds & Hp & Hsprite & Htable & Hall).
  split; [|split; [|split]].
  - unfold GuesserView.screen. rewrite Hload, Herr. reflexivity.
  - by exists p, ds.
  - rewrite clicked_table, Htable. apply calculatedEffectivenessMap_table.
  - apply clicked_selection; [done|].
    destruct Hround as (-> & _). unfold Quiz.selection. cbn. set_solver.
Qed.

Lemma started_game_can_be_scored_witness :
  exists attempts st',
    Guesser.startNewGame 5 Worlds.flaky 0 Guesser.initialState = Some (attempts, st')
    /\ ((attempts < 5)%nat ->
        Quiz.effectivenessTable
          (Guesser.correctEffectiveness (Round.clicked ["Fire"; "Ice"] st'))).
Proof.
  destruct (started_game_can_be_scored 5 Worlds.flaky 0 Guesser.initialState ["Fire"; "Ice"])
    as (attempts & st' & Hrun & Hok).
  - lia.
  - repeat constructor; apply (bool_decide_unpack _); vm_compute; exact I.
  - exists attempts, st'. split; [exact Hrun|]. intros Ha. apply (Hok Ha).
Defined.

(** ** Doubles *)

Section Doubles.
Import Js.
Local Open Scope Q_scope.

Lemma two_pow_pos e : 0 < 2 ^ e.
Proof. apply Qpower_0_lt. reflexivity. Qed.

Lemma two_pow_nat e : (0 <= e)%Z -> 2 ^ e == inject_Z (2 ^ e).
Proof. intros He. symmetry. apply (Zpower_Qpower 2 e He). Qed.

Lemma ratio_lt (n A B d : Z) :
  (0 < B)%Z -> (0 < d)%Z -> (n * B < A * d)%Z ->
  inject_Z n / inject_Z d < inject_Z A / inject_Z B.
Proof.
  intros HB Hd Hlt.
  assert (0 < inject_Z B) as HB' by (unfold Qlt; cbn; lia).
  assert (0 < inject_Z d) as Hd' by (unfold Qlt; cbn; lia).
  apply Qlt_shift_div_r; [exact Hd'|].
  setoid_replace (inject_Z A / inject_Z B * inject_Z d)
    with (inject_Z A * inject_Z d / inject_Z B) using relation Qeq by (field; lra).
  apply Qlt_shift_div_l; [exact HB'|].
  rewrite <- !inject_Z_mult. rewrite <- Zlt_Qlt. exact Hlt.
Qed.

Lemma two_pow_diff a b :
  (0 <= a)%Z -> (0 <= b)%Z -> 2 ^ (a - b) == inject_Z (2 ^ a) / inject_Z (2 ^ b).
Proof.
  intros Ha Hb. rewrite Qpower_minus by discriminate.
  rewrite (two_pow_nat a Ha), (two_pow_nat b Hb). reflexivity.
Qed.

(** [exponent] is the binary exponent. *)
Lemma exponent_spec x : 0 < x -> 2 ^ exponent x <= x /\ x < 2 ^ (exponent x + 1).
Proof.
  intros Hx. destruct x as [n d].
  assert (0 < n)%Z as Hn by (unfold Qlt in Hx; cbn in Hx; lia).
  unfold exponent. cbn [Qnum Qden].
  pose proof (Z.log2_spec n Hn) as [Hn1 Hn2].
  pose proof (Z.log2_spec (Zpos d) eq_refl) as [Hd1 Hd2].
  pose proof (Z.log2_nonneg n) as Hln.
  pose proof (Z.log2_nonneg (Zpos d)) as Hld.
  set (ln := Z.log2 n) in *. set (ld := Z.log2 (Zpos d)) in *.
  assert (0 < 2 ^ ln)%Z as Hpn by (apply Z.pow_pos_nonneg; lia).
  assert (0 < 2 ^ ld)%Z as Hpd by (apply Z.pow_pos_nonneg; lia).
  assert (0 < 2 ^ (ld + 1))%Z as Hpd' by (apply Z.pow_pos_nonneg; lia).
  assert (n # d == inject_Z n / inject_Z (Zpos d)) as Hq by apply Qmake_Qdiv.
  assert (n # d < 2 ^ (ln - ld + 1)) as Hup.
  { replace (ln - ld + 1)%Z with ((ln + 1) - ld)%Z by lia.
    rewrite two_pow_diff by lia. rewrite Hq. apply ratio_lt; [lia|lia|nia]. }
  assert (2 ^ (ln - ld - 1) < n # d) as Hlow.
  { replace (ln - ld - 1)%Z with (ln - (ld + 1))%Z by lia.
    rewrite two_pow_diff by lia. rewrite Hq. apply ratio_lt; [lia|lia|nia]. }
  destruct (Qle_bool (2 ^ (ln - ld)) (n # d)) eqn:Hb.
  - apply Qle_bool_iff in Hb. split; assumption.
  - split; [apply Qlt_le_weak; exact Hlow|].
    replace (ln - ld - 1 + 1)%Z with (ln - ld)%Z by lia.
    apply Qnot_le_lt. intros H. apply Qle_bool_iff in H. congruence.
Qed.

Lemma exponent_below x k : 0 < x -> x < 2 ^ k -> (exponent x < k)%Z.
Proof.
  intros Hx Hk. destruct (exponent_spec x Hx) as [Hlo _].
  apply (Qpower_lt_compat_l_inv 2); [|reflexivity].
  eapply Qle_lt_trans; eassumption.
Qed.

Lemma exponent_above x k : 0 < x -> 2 ^ k <= x -> (k <= exponent x)%Z.
Proof.
  intros Hx Hk. destruct (exponent_spec x Hx) as [_ Hhi].
  assert (k < exponent x + 1)%Z; [|lia].
  apply (Qpower_lt_compat_l_inv 2); [|reflexivity].
  eapply Qle_lt_trans; eassumption.
Qed.

(** Rounding to an integer moves a number by a half at most. *)
Lemma roundHalfEven_near y :
  y - (1 # 2) <= inject_Z (roundHalfEven y) <= y + (1 # 2).
Proof.
  unfold roundHalfEven.
  pose proof (Qfloor_le y) as Hlo. pose proof (Qlt_floor y) as Hhi.
  rewrite inject_Z_plus in Hhi. change (inject_Z 1) with 1 in Hhi.
  destruct (Qcompare (y - inject_Z (Qfloor y)) (1 # 2)) eqn:Hc.
  - apply Qeq_alt in Hc. destruct (Z.even (Qfloor y));
      rewrite ?inject_Z_plus; change (inject_Z 1) with 1; lra.
  - apply Qlt_alt in Hc. lra.
  - apply Qgt_alt in Hc. rewrite inject_Z_plus. change (inject_Z 1) with 1. lra.
Qed.

Lemma roundHalfEven_integer y k : y == inject_Z k -> roundHalfEven y = k.
Proof.
  intros Hy. unfold roundHalfEven.
  rewrite (Qfloor_comp _ _ Hy), Qfloor_Z.
  assert (Qcompare (y - inject_Z k) (1 # 2) = Lt) as ->; [|reflexivity].
  apply (proj1 (Qlt_alt _ _)). lra.
Qed.

Lemma below_integer (m z : Z) y :
  inject_Z m <= y + (1 # 2) -> y + (1 # 2) < inject_Z z -> (m <= z - 1)%Z.
Proof.
  intros Hm Hz. assert (inject_Z m < inject_Z z) as Hlt by lra.
  rewrite <- Zlt_Qlt in Hlt. lia.
Qed.

Lemma double_positive x : 0 < x -> double x = roundPositive x.
Proof. intros Hx. unfold double. apply Qgt_alt in Hx. rewrite Hx. reflexivity. Qed.

Lemma double_zero x : x == 0 -> double x = 0.
Proof. intros Hx. unfold double. apply Qeq_alt in Hx. rewrite Hx. reflexivity. Qed.

(** A double below 1 is at most 1 - 2^-53. *)
Lemma double_below_one r :
  double r == r -> 0 <= r -> r < 1 -> r <= 1 - (1 # 9007199254740992).
Proof.
  intros Hrep H0 H1.
  destruct (Qlt_le_dec r (1 # 2)) as [Hsmall|Hbig]; [lra|].
  assert (0 < r) as Hpos by lra.
  assert (exponent r = (-1)%Z) as He.
  { assert (exponent r < 0)%Z by (apply exponent_below; [exact Hpos|exact H1]).
    assert (-1 <= exponent r)%Z by (apply exponent_above; [exact Hpos|exact Hbig]).
    lia. }
  rewrite (double_positive r Hpos) in Hrep. unfold roundPositive in Hrep.
  rewrite He in Hrep. change (Z.max (-1) (-1022) - 52)%Z with (-53)%Z in Hrep.
  assert (2 ^ (-53) = 1 # 9007199254740992) as Hp by reflexivity.
  rewrite Hp in Hrep.
  set (m := roundHalfEven (r / (1 # 9007199254740992))) in *.
  assert (inject_Z m < inject_Z 9007199254740992) as Hm.
  { change (inject_Z 9007199254740992) with (9007199254740992 # 1). lra. }
  rewrite <- Zlt_Qlt in Hm.
  assert (inject_Z m <= inject_Z 9007199254740991) as Hm'
    by (rewrite <- Zle_Qle; lia).
  change (inject_Z 9007199254740991) with (9007199254740991 # 1) in Hm'. lra.
Qed.

Lemma floor_below y (z : Z) : y < inject_Z z -> (Qfloor y < z)%Z.
Proof.
  intros Hy. pose proof (Qfloor_le y) as Hf.
  assert (inject_Z (Qfloor y) < inject_Z z) as Hlt by lra.
  rewrite <- Zlt_Qlt in Hlt. exact Hlt.
Qed.

Lemma floor_nonneg y : 0 <= y -> (0 <= Qfloor y)%Z.
Proof.
  intros Hy. pose proof (Qlt_floor y) as Hf.
  assert (inject_Z 0 < inject_Z (Qfloor y + 1)) as Hlt
    by (change (inject_Z 0) with 0; lra).
  rewrite <- Zlt_Qlt in Hlt. lia.
Qed.

(** The product of a double below 1 and 905, rounded, stays below
    905. *)
Lemma rounded_product_below r :
  double r == r -> 0 <= r -> r < 1 ->
  0 <= double (r * 905) /\ double (r * 905) < 905.
Proof.
  intros Hrep H0 H1.
  pose proof (double_below_one r Hrep H0 H1) as Hr.
  destruct (Qeq_dec r 0) as [Hz|Hnz].
  { rewrite (double_zero (r * 905)) by (rewrite Hz; reflexivity). lra. }
  assert (0 < r * 905) as Hx by lra.
  rewrite (double_positive _ Hx).
  assert (r * 905 <= 905 - 905 * (1 # 9007199254740992)) as Hx905 by lra.
  clear Hrep H0 H1 Hr Hnz.
  set (x := r * 905) in *.
  assert (exponent x <= 9)%Z as He9.
  { assert (exponent x < 10)%Z; [|lia]. apply exponent_below; [exact Hx|].
    change (2 ^ 10) with 1024. lra. }
  unfold roundPositive.
  set (q := (Z.max (exponent x) (-1022) - 52)%Z) in *.
  pose proof (two_pow_pos q) as Hq.
  assert (2 ^ q <= 2 ^ (-43)) as Hq43.
  { apply Qpower_le_compat_l; [lia|]. discriminate. }
  assert (2 ^ (-43) = 1 # 8796093022208) as Hp by reflexivity.
  rewrite Hp in Hq43.
  pose proof (roundHalfEven_near (x / 2 ^ q)) as [Hlo Hhi].
  assert (x == x / 2 ^ q * 2 ^ q) as Hxq by (field; lra).
  split.
  - assert (0 <= x / 2 ^ q) as Hy.
    { apply Qle_shift_div_l; [exact Hq|]. lra. }
    assert (inject_Z (-1) < inject_Z (roundHalfEven (x / 2 ^ q))) as Hm.
    { change (inject_Z (-1)) with (-1 # 1). lra. }
    rewrite <- Zlt_Qlt in Hm.
    apply Qmult_le_0_compat; [|lra].
    change 0 with (inject_Z 0). rewrite <- Zle_Qle. lia.
  - destruct (Qlt_le_dec 904 x) as [Hbig|Hsmall].
    + assert (exponent x = 9%Z) as He.
      { assert (9 <= exponent x)%Z; [|lia]. apply exponent_above; [exact Hx|].
        change (2 ^ 9) with 512. lra. }
      assert (q = (-43)%Z) as Hq' by (unfold q; rewrite He; reflexivity).
      clear Hlo Hhi Hxq. revert Hq Hq43. rewrite Hq'. intros _ _. rewrite Hp.
      pose proof (roundHalfEven_near (x / (1 # 8796093022208))) as [_ Hhi].
      set (m := roundHalfEven (x / (1 # 8796093022208))) in *.
      assert (x / (1 # 8796093022208) == x * 8796093022208) as Hy by field.
      rewrite Hy in Hhi.
      assert (m <= 905 * 8796093022208 - 1)%Z as Hm.
      { apply (below_integer m _ (x * 8796093022208)); [exact Hhi|].
        change (inject_Z (905 * 8796093022208)) with (7960464185098240 # 1). lra. }
      rewrite Zle_Qle in Hm.
      change (inject_Z (905 * 8796093022208 - 1)) with (7960464185098239 # 1) in Hm.
      lra.
    + apply (Qmult_le_compat_r _ _ (2 ^ q)) in Hhi; [|lra].
      assert ((x / 2 ^ q + (1 # 2)) * 2 ^ q == x + (1 # 2) * 2 ^ q) as Hsum
        by (field; lra).
      rewrite Hsum in Hhi. lra.
Qed.

(** The integers up to 2^53 are doubles. *)
Lemma double_safe_integer n :
  (0 <= n < 9007199254740992)%Z -> double (inject_Z n) == inject_Z n.
Proof.
  intros [H0 H53].
  destruct (Z.eq_dec n 0%Z) as [->|Hne]; [reflexivity|].
  assert (0 < inject_Z n) as Hx by (change 0 with (inject_Z 0); rewrite <- Zlt_Qlt; lia).
  rewrite (double_positive _ Hx). unfold roundPositive.
  assert (0 <= exponent (inject_Z n))%Z as He0.
  { apply exponent_above; [exact Hx|]. change (2 ^ 0) with (inject_Z 1).
    rewrite <- Zle_Qle. lia. }
  assert (exponent (inject_Z n) < 53)%Z as He53.
  { apply exponent_below; [exact Hx|].
    change (2 ^ 53) with (inject_Z 9007199254740992). rewrite <- Zlt_Qlt. exact H53. }
  set (e := exponent (inject_Z n)) in *.
  replace (Z.max e (-1022) - 52)%Z with (- (52 - e))%Z by lia.
  set (a := 2 ^ (- (52 - e))).
  assert (a == / inject_Z (2 ^ (52 - e))) as Ha.
  { unfold a. rewrite Qpower_opp, (two_pow_nat (52 - e)) by lia. reflexivity. }
  assert (0 < 2 ^ (52 - e))%Z as Hp by (apply Z.pow_pos_nonneg; lia).
  assert (0 < inject_Z (2 ^ (52 - e))) as Hp'
    by (change 0 with (inject_Z 0); rewrite <- Zlt_Qlt; exact Hp).
  rewrite (roundHalfEven_integer (inject_Z n / a) (n * 2 ^ (52 - e))).
  - rewrite Ha, inject_Z_mult. field. lra.
  - rewrite Ha, inject_Z_mult. field. lra.
Qed.

Lemma nearest_safe n : (0 <= n < 9007199254740992)%Z -> nearest n = n.
Proof.
  intros Hn. unfold nearest.
  rewrite (Qfloor_comp _ _ (double_safe_integer n Hn)). apply Qfloor_Z.
Qed.
End Doubles.

(** X4.  The number of the creature that an attempt asks for lies
    between 1 and [MAX_POKEMON_ID] for every double that [Math.random()]
    can return, that is every double from 0 up to but not including 1:
    the product with 905, once rounded to a double, never reaches
    905. *)
Theorem randomId_in_range (w : Guesser.World) (attempts : nat) :
  (Js.double (Guesser.random w attempts) == Guesser.random w attempts)%Q ->
  (0 <= Guesser.random w attempts)%Q ->
  (Guesser.random w attempts < 1)%Q ->
  (1 <= Guesser.randomId w attempts <= Guesser.MAX_POKEMON_ID)%Z.
Proof.
  intros Hrep H0 H1. unfold Guesser.randomId, Guesser.MAX_POKEMON_ID.
  change (inject_Z 905) with 905%Q.
  destruct (rounded_product_below _ Hrep H0 H1) as [Hlo Hhi].
  pose proof (floor_nonneg _ Hlo) as Hfloor.
  pose proof (floor_below _ 905 Hhi) as Hbelow.
  lia.
Qed.

Lemma randomId_in_range_witness :
  (1 <= Guesser.randomId Worlds.nearFive 0 <= Guesser.MAX_POKEMON_ID)%Z.
Proof.
  apply (randomId_in_range Worlds.nearFive 0).
  - vm_compute. reflexivity.
  - unfold Qle. simpl. lia.
  - unfold Qlt. simpl. lia.
Defined.

(** ** Type chips *)

Section Chips.
Import Js JsText Registry.

Lemma find_by_key {A} (key : A -> string) (l : list A) (k : string) :
  NoDup (key <$> l) ->
  forall x, x ∈ l -> key x = k ->
  List.find (fun t => String.eqb (key t) k) l = Some x.
Proof.
  induction l as [|y l IH]; intros Hnd x Hin Hk; [by apply elem_of_nil in Hin|].
  rewrite fmap_cons in Hnd. apply NoDup_cons in Hnd as [Hy Hnd]. cbn [List.find].
  apply elem_of_cons in Hin as [->|Hin].
  - rewrite Hk, String.eqb_refl. reflexivity.
  - destruct (String.eqb_spec (key y) k) as [Heq|Hne]; [|by apply IH].
    exfalso. apply Hy. rewrite Heq, <- Hk. apply list_elem_of_fmap. by exists x.
Qed.

Lemma find_by_key_none {A} (key : A -> string) (l : list A) (k : string) :
  (forall x, x ∈ l -> key x <> k) ->
  List.find (fun t => String.eqb (key t) k) l = None.
Proof.
  induction l as [|y l IH]; intros Hall; [done|]. cbn [List.find].
  destruct (String.eqb_spec (key y) k) as [Heq|Hne].
  - exfalso. apply (Hall y); [by left|done].
  - apply IH. intros x Hx. apply Hall. by right.
Qed.

Lemma registry_textColor T :
  T ∈ POKEMON_TYPES ->
  exists textColor, td_textColor T = Some textColor
                    /\ or_default (td_textColor T) "#000" = textColor.
Proof.
  intros HT.
  assert (Forall (fun T => exists textColor,
                    td_textColor T = Some textColor
                    /\ or_default (td_textColor T) "#000" = textColor) POKEMON_TYPES) as Hall.
  { repeat constructor; eexists; (split; [reflexivity|reflexivity]). }
  by apply (proj1 (Forall_forall _ _) Hall).
Qed.
End Chips.

(** X5.  The chips of the types are looked up without regard to letter
    case.  For a name that is, up to case, the name of a type of the
    registry, [getPokemonTypeChip] of the quiz and [getTypeChipStyle] of
    the detail page give the two colours of that type, the text colour
    being the one of the registry and never the fallback, and the chip of
    the quiz shows the name as the registry spells it.  For any other
    name written in ASCII the quiz gives no chip and the detail page the
    grey style. *)
Theorem type_chips_ignore_case (typeName : string) :
  (forall T, T ∈ Registry.POKEMON_TYPES ->
     Js.toLowerCase typeName = Js.toLowerCase (Registry.td_name T) ->
     exists textColor,
       Registry.td_textColor T = Some textColor
       /\ GuesserView.getPokemonTypeChip typeName
          = Some {| GuesserView.chip_key := typeName;
                    GuesserView.chip_backgroundColor := Registry.td_color T;
                    GuesserView.chip_color := textColor;
                    GuesserView.chip_text := Registry.td_name T |}
       /\ DetailView.getTypeChipStyle typeName
          = {| DetailView.backgroundColor := Registry.td_color T;
               DetailView.color := textColor |})
  /\ (Text.every Text.isAscii typeName = true ->
      (forall T, T ∈ Registry.POKEMON_TYPES ->
         Js.toLowerCase typeName <> Js.toLowerCase (Registry.td_name T)) ->
      GuesserView.getPokemonTypeChip typeName = None
      /\ DetailView.getTypeChipStyle typeName
         = {| DetailView.backgroundColor := "#777"; DetailView.color := "#fff" |}).
Proof.
  split.
  - intros T HT Hname.
    destruct (registry_textColor T HT) as (textColor & Htext & Hcolor).
    exists textColor. split; [done|].
    unfold GuesserView.getPokemonTypeChip, DetailView.getTypeChipStyle.
    rewrite (find_by_key (fun t => Js.toLowerCase (Registry.td_name t))
               Registry.POKEMON_TYPES (Js.toLowerCase typeName)
               lower_keys_NoDup T HT (eq_sym Hname)).
    by rewrite Hcolor.
  - intros _ Hnone.
    unfold GuesserView.getPokemonTypeChip, DetailView.getTypeChipStyle.
    rewrite (find_by_key_none (fun t => Js.toLowerCase (Registry.td_name t))
               Registry.POKEMON_TYPES (Js.toLowerCase typeName)); [done|].
    intros T HT Heq. by apply (Hnone T HT).
Qed.

Lemma type_chips_ignore_case_witness :
  (exists textColor,
      GuesserView.getPokemonTypeChip "fIRE"
      = Some {| GuesserView.chip_key := "fIRE";
                GuesserView.chip_backgroundColor := "#EE8130";
                GuesserView.chip_color := textColor;
                GuesserView.chip_text := "Fire" |})
  /\ DetailView.getTypeChipStyle "Shadow"
     = {| DetailView.backgroundColor := "#777"; DetailView.color := "#fff" |}.
Proof.
  split.
  - destruct (proj1 (type_chips_ignore_case "fIRE") Samples.Fire Fire_in_registry eq_refl)
      as (textColor & _ & Hchip & _).
    by exists textColor.
  - apply (proj2 (type_chips_ignore_case "Shadow")); [reflexivity|].
    intros T HT Heq. unfold Registry.POKEMON_TYPES in HT.
    repeat (apply elem_of_cons in HT as [->|HT]; [vm_compute in Heq; discriminate|]).
    by apply elem_of_nil in HT.
Defined.

(** ** Borders after checking *)

(** X6.  After [handleCheckAnswers] the border of the button of each
    type of the registry tells how the type was judged: green when it was
    selected and is super effective, red when it was selected and is not,
    pulsing yellow when it is super effective and was not selected, and
    no border otherwise; the buttons are disabled exactly when the game
    is not won.  Before the check a button has the yellow border exactly
    when its type is selected, and no button is disabled. *)
Theorem borders_show_the_judgement
    (now : Z) (st : Guesser.State) (T : Registry.TypeData) :
  T ∈ Registry.POKEMON_TYPES ->
  (GuesserView.borderColor (Guesser.handleCheckAnswers now st) T = "border-green-500"
   <-> Registry.td_name T ∈ Guesser.selectedTypes st
       /\ Quiz.superEffective (Guesser.correctEffectiveness st) T)
  /\ (GuesserView.borderColor (Guesser.handleCheckAnswers now st) T = "border-red-500"
      <-> Registry.td_name T ∈ Guesser.selectedTypes st
          /\ ~ Quiz.superEffective (Guesser.correctEffectiveness st) T)
  /\ (GuesserView.borderColor (Guesser.handleCheckAnswers now st) T
      = "border-yellow-500 animate-pulse"
      <-> Registry.td_name T ∉ Guesser.selectedTypes st
          /\ Quiz.superEffective (Guesser.correctEffectiveness st) T)
  /\ (GuesserView.borderColor (Guesser.handleCheckAnswers now st) T = "border-transparent"
      <-> Registry.td_name T ∉ Guesser.selectedTypes st
          /\ ~ Quiz.superEffective (Guesser.correctEffectiveness st) T)
  /\ GuesserView.disabled (Guesser.handleCheckAnswers now st)
     = negb (Guesser.gameWon (Guesser.handleCheckAnswers now st))
  /\ (Guesser.showResults st = false ->
      (GuesserView.borderColor st T = "border-yellow-500"
       <-> Registry.td_name T ∈ Guesser.selectedTypes st)
      /\ GuesserView.disabled st = false).
Proof.
  intros HT.
  pose proof (results_lookup (Guesser.correctEffectiveness st) (Guesser.selectedTypes st)
                now st T eq_refl eq_refl HT) as Hlabel.
  assert (Guesser.showResults (Guesser.handleCheckAnswers now st) = true) as Hshown.
  { unfold Guesser.handleCheckAnswers.
    by destruct (foldl _ _ _) as [[results a] b]. }
  unfold GuesserView.borderColor, GuesserView.disabled. rewrite Hshown, Hlabel.
  unfold Quiz.labelOf, Quiz.picked.
  rewrite <- !(super_iff (Guesser.correctEffectiveness st)).
  split; [|split; [|split; [|split; [|split]]]].
  - case_bool_decide; destruct (Quiz.super _ _); intuition congruence.
  - case_bool_decide; destruct (Quiz.super _ _); intuition congruence.
  - case_bool_decide; destruct (Quiz.super _ _); intuition congruence.
  - case_bool_decide; destruct (Quiz.super _ _); intuition congruence.
  - reflexivity.
  - intros ->. split; [|reflexivity]. case_bool_decide; intuition congruence.
Qed.

Lemma borders_show_the_judgement_witness :
  GuesserView.borderColor
    (Guesser.handleCheckAnswers 0
       (Samples.quizState Samples.grassPoisonTable Samples.grassPoisonAnswer))
    Samples.Fire = "border-green-500"
  <-> Registry.td_name Samples.Fire
        ∈ Guesser.selectedTypes
            (Samples.quizState Samples.grassPoisonTable Samples.grassPoisonAnswer)
      /\ Quiz.superEffective
           (Guesser.correctEffectiveness
              (Samples.quizState Samples.grassPoisonTable Samples.grassPoisonAnswer))
           Samples.Fire.
Proof.
  apply (borders_show_the_judgement 0
           (Samples.quizState Samples.grassPoisonTable Samples.grassPoisonAnswer)
           Samples.Fire Fire_in_registry).
Defined.

(** ** The order of the effectiveness table *)

Section TableOrder.
Import Js Registry Api Detail Shown.
Local Open Scope Q_scope.

Lemma lt_Num_iff (x y : Q) : lt (Num x) (Num y) = true <-> x < y.
Proof.
  cbn. rewrite negb_true_iff. split.
  - intros H. apply Qnot_le_lt. intros Hle. apply Qle_bool_iff in Hle. congruence.
  - intros H. destruct (Qle_bool y x) eqn:Hle; [|done].
    apply Qle_bool_iff in Hle. exfalso. by apply (Qlt_not_le x y).
Qed.

Lemma lt_Num_false_iff (x y : Q) : lt (Num x) (Num y) = false <-> y <= x.
Proof.
  cbn. rewrite negb_false_iff. apply Qle_bool_iff.
Qed.

Variable unsorted : list TypeEffectivenessEntry.

Lemma precedes_le a b qa qb :
  precedes unsorted a b -> te_multiplier a = Num qa -> te_multiplier b = Num qb -> qb <= qa.
Proof.
  intros (qa' & qb' & Ha & Hb & Hcase) Ha' Hb'.
  rewrite Ha in Ha'. rewrite Hb in Hb'. injection Ha' as ->. injection Hb' as ->.
  destruct Hcase as [Hlt|[Heq _]]; [by apply Qlt_le_weak|]. rewrite Heq. apply Qle_refl.
Qed.

Lemma insertEntry_sorted x l :
  StronglySorted (precedes unsorted) l ->
  finiteEntry x -> Forall finiteEntry l ->
  Forall (fun z => exists i j, (i < j)%nat /\ unsorted !! i = Some x /\ unsorted !! j = Some z) l ->
  StronglySorted (precedes unsorted) (insertEntry x l).
Proof.
  intros Hsorted [qx Hx] Hfin Hbefore.
  induction l as [|y l IH]; [repeat constructor|].
  apply StronglySorted_inv in Hsorted as [Hsorted Hy].
  apply Forall_cons in Hfin as [[qy Hqy] Hfin].
  apply Forall_cons in Hbefore as [Hxy Hbefore].
  cbn [insertEntry]. rewrite Hx, Hqy.
  destruct (lt (Num qx) (Num qy)) eqn:Hlt.
  - apply lt_Num_iff in Hlt. constructor; [by apply IH|].
    rewrite (insertEntry_perm x l). constructor; [|done].
    exists qy, qx. split; [done|]. split; [done|]. by left.
  - apply lt_Num_false_iff in Hlt. constructor; [by constructor|].
    assert (forall z qz, te_multiplier z = Num qz -> qz <= qx ->
              (exists i j, (i < j)%nat /\ unsorted !! i = Some x /\ unsorted !! j = Some z) ->
              precedes unsorted x z) as Hstep.
    { intros z qz Hz Hle Hpos. exists qx, qz. split; [done|]. split; [done|].
      destruct (Qlt_le_dec qz qx) as [?|Hge]; [by left|].
      right. split; [by apply Qle_antisym|done]. }
    constructor; [by apply (Hstep y qy)|].
    apply Forall_forall. intros z Hz.
    destruct (proj1 (Forall_forall _ _) Hfin z Hz) as [qz Hqz].
    apply (Hstep z qz); [done| |by apply (proj1 (Forall_forall _ _) Hbefore)].
    apply Qle_trans with qy; [|done].
    by apply (precedes_le y z); [apply (proj1 (Forall_forall _ _) Hy)| |].
Qed.

Lemma sortDescending_sorted l : forall pre,
  unsorted = (pre ++ l)%list -> Forall finiteEntry l ->
  StronglySorted (precedes unsorted) (sortDescending l).
Proof.
  induction l as [|x l IH]; intros pre Hu Hfin; [constructor|].
  apply Forall_cons in Hfin as [Hx Hfin].
  change (sortDescending (x :: l)) with (insertEntry x (sortDescending l)).
  apply insertEntry_sorted.
  - apply (IH (pre ++ [x])%list); [by rewrite <- app_assoc|done].
  - done.
  - by rewrite (sortDescending_perm l).
  - rewrite (sortDescending_perm l). apply Forall_forall. intros z Hz.
    apply list_elem_of_lookup in Hz as [k Hk].
    exists (length pre), (length pre + S k)%nat. split; [lia|]. rewrite Hu. split.
    + by rewrite lookup_app_r, Nat.sub_diag by lia.
    + rewrite lookup_app_r by lia.
      by replace (length pre + S k - length pre)%nat with (S k) by lia.
Qed.

Lemma StronglySorted_lookup {A} (R : A -> A -> Prop) (l : list A) :
  StronglySorted R l ->
  forall i j a b, (i < j)%nat -> l !! i = Some a -> l !! j = Some b -> R a b.
Proof.
  induction 1 as [|x l Hsorted IH Hx]; intros i j a b Hij Ha Hb; [done|].
  destruct j as [|j]; [lia|]. cbn in Hb. destruct i as [|i].
  - cbn in Ha. injection Ha as <-.
    apply (proj1 (Forall_forall _ _) Hx). by eapply list_elem_of_lookup_2.
  - cbn in Ha. apply (IH i j); [lia|done|done].
Qed.
End TableOrder.

Section TableEntries.
Import Js Registry Api Detail Shown.

Lemma registryEntries_names m : te_name <$> registryEntries m = Quiz.typeNames.
Proof. unfold registryEntries. by rewrite <- list_fmap_compose. Qed.

Lemma overridden_finite abilities typesData T :
  T ∈ POKEMON_TYPES ->
  exists q, fst (overrideGround abilities (effectivenessMap typesData))
              !! toLowerCase (td_name T) = Some (Num q).
Proof.
  intros HT. destruct (effectivenessMap_finite typesData T HT) as [q Hq].
  destruct (ground_base typesData) as [base Hbase].
  destruct (overrideGround_cases abilities _ base Hbase) as [(_ & _ & ->)|(_ & ->)];
    cbn [fst]; [|by exists q].
  destruct (decide (toLowerCase (td_name T) = "ground")) as [->|Hne].
  - exists 0%Q. apply lookup_insert_eq.
  - exists q. by rewrite lookup_insert_ne.
Qed.

Lemma registryEntries_finite abilities typesData :
  Forall finiteEntry
    (registryEntries (fst (overrideGround abilities (effectivenessMap typesData)))).
Proof.
  unfold registryEntries. apply Forall_fmap, Forall_forall. intros T HT.
  destruct (overridden_finite abilities typesData T HT) as [q Hq].
  exists q. cbn. by rewrite Hq.
Qed.

Lemma computeEffectiveness_table abilities typesData :
  fst (computeEffectiveness abilities typesData)
  = sortDescending
      (registryEntries (fst (overrideGround abilities (effectivenessMap typesData)))).
Proof.
  unfold computeEffectiveness. by destruct (overrideGround _ _) as [m note].
Qed.

Lemma computeEffectiveness_note abilities typesData :
  snd (computeEffectiveness abilities typesData)
  = snd (overrideGround abilities (effectivenessMap typesData)).
Proof.
  unfold computeEffectiveness. by destruct (overrideGround _ _) as [m note].
Qed.
End TableEntries.

(** X7.  The effectiveness table of the detail page lists each of the
    18 types of the registry once, by decreasing multiplier; types with
    the same multiplier keep the order of the registry.  All multipliers
    are numbers. *)
Theorem effectiveness_table_is_sorted
    (abilities : list Detail.AbilityInfo) (typesData : list Api.TypeDetail) :
  exists unsorted,
    Detail.te_name <$> unsorted = Quiz.typeNames
    /\ fst (Detail.computeEffectiveness abilities typesData) ≡ₚ unsorted
    /\ length (fst (Detail.computeEffectiveness abilities typesData)) = 18%nat
    /\ forall i j a b,
         (i < j)%nat ->
         fst (Detail.computeEffectiveness abilities typesData) !! i = Some a ->
         fst (Detail.computeEffectiveness abilities typesData) !! j = Some b ->
         Shown.precedes unsorted a b.
Proof.
  rewrite computeEffectiveness_table.
  set (m := fst (Detail.overrideGround abilities (Detail.effectivenessMap typesData))).
  exists (Shown.registryEntries m).
  split; [apply registryEntries_names|].
  split; [apply sortDescending_perm|].
  split; [by rewrite sortDescending_length; unfold Shown.registryEntries; rewrite length_fmap|].
  apply StronglySorted_lookup.
  apply (sortDescending_sorted (Shown.registryEntries m) (Shown.registryEntries m) []); [done|].
  apply registryEntries_finite.
Qed.

(** ** The groups of the effectiveness section *)

Section Groups.
Import Js JsText Registry Api Detail DetailView Shown.
Local Open Scope Q_scope.

Lemma strict_eq_Num_iff (x y : Q) : strict_eq (Num x) (Num y) = true <-> x == y.
Proof. cbn. apply Qeq_bool_iff. Qed.






Lemma renderGroup_chips table note group :
  from_option (fun g => gc_name <$> g_chips g) [] (renderGroup table note group)
  = te_name <$> typesInGroup (groupMultiplier group) table.
Proof.
  unfold renderGroup, typesInGroup.
  set (l := List.filter _ table).
  destruct ((length l =? 0)%nat && _)%bool eqn:Hc; cbn.
  - apply andb_true_iff in Hc as [Hlen _]. apply Nat.eqb_eq in Hlen.
    by destruct l.
  - by rewrite <- list_fmap_compose.
Qed.




End Groups.

Section GroundChip.
Import Js JsText Registry Api Detail DetailView Shown.
Local Open Scope Q_scope.
Variables (abilities : list AbilityInfo) (typesData : list TypeDetail).

Local Notation table := (fst (computeEffectiveness abilities typesData)).
Local Notation note := (snd (computeEffectiveness abilities typesData)).

Lemma note_cases :
  (note = None)
  \/ (note = Some "Immune to Ground due to Levitate."
      /\ fst (overrideGround abilities (effectivenessMap typesData))
         = <["ground" := Num 0]> (effectivenessMap typesData)).
Proof.
  rewrite computeEffectiveness_note.
  destruct (ground_base typesData) as [base Hbase].
  destruct (overrideGround_cases abilities _ base Hbase) as [(_ & _ & ->)|(_ & ->)];
    [by right|by left].
Qed.

Lemma table_elem e :
  e ∈ table ->
  exists T, T ∈ POKEMON_TYPES /\ te_name e = td_name T
            /\ te_multiplier e
               = nullish (fst (overrideGround abilities (effectivenessMap typesData))
                            !! toLowerCase (td_name T)) (Num 1).
Proof.
  rewrite computeEffectiveness_table, (sortDescending_perm _).
  unfold registryEntries. intros He. apply list_elem_of_fmap in He as (T & -> & HT).
  by exists T.
Qed.

(** When the annotation is there, the entry of Ground has multiplier 0. *)
Lemma annotated_ground e :
  truthy_str note = true -> e ∈ table -> toLowerCase (te_name e) = "ground" ->
  te_multiplier e = Num 0.
Proof.
  intros Hnote He Hname. destruct note_cases as [Hn|[_ Hm]].
  { rewrite Hn in Hnote. done. }
  destruct (table_elem e He) as (T & HT & HeT & ->). rewrite Hm.
  rewrite HeT in Hname. rewrite Hname. by rewrite lookup_insert_eq.
Qed.

Lemma annotated_ground_listed :
  truthy_str note = true ->
  existsb (fun t => String.eqb (toLowerCase (te_name t)) "ground"
                    && strict_eq (te_multiplier t) (Num 0)) table = true.
Proof.
  intros Hnote. apply existsb_exists.
  assert (exists e, e ∈ table /\ te_name e = "Ground") as (e & He & Hname).
  { rewrite computeEffectiveness_table.
    exact (sortedEffectiveness_has _ Samples.Ground Ground_in_registry). }
  exists e. split; [by apply list_elem_of_In|].
  rewrite (annotated_ground e Hnote He) by (by rewrite Hname).
  by rewrite Hname.
Qed.

Lemma renderGroup_marks group g :
  renderGroup table note group = Some g ->
  g_heading g = group
  /\ g_chips g <> []
  /\ g_groundLevitate g = false
  /\ Forall (fun c => gc_asterisk c = false
                      /\ exists e, e ∈ table /\ te_name e = gc_name c
                                   /\ strict_eq (te_multiplier e) (groupMultiplier group) = true)
            (g_chips g).
Proof.
  unfold renderGroup.
  set (l := List.filter _ table).
  assert (forall e, e ∈ l -> e ∈ table
                    /\ strict_eq (te_multiplier e) (groupMultiplier group) = true) as Hl.
  { intros e He. apply list_elem_of_In, filter_In in He as [He Hm].
    split; [by apply list_elem_of_In|done]. }
  destruct (truthy_str note) eqn:Hnote.
  - rewrite (annotated_ground_listed Hnote). rewrite andb_false_r. cbn [negb].
    rewrite andb_true_r.
    destruct (length l =? 0)%nat eqn:Hlen; [done|]. intros [= <-]. cbn.
    split; [done|]. split; [by destruct l|]. split.
    + destruct (String.eqb group "0x") eqn:Hgroup; [|done]. cbn.
      apply String.eqb_eq in Hgroup. subst group.
      apply negb_false_iff, existsb_exists.
      pose proof (annotated_ground_listed Hnote) as Hex.
      apply existsb_exists in Hex as (e & He & Hcond).
      apply andb_true_iff in Hcond as [Hname Hzero].
      exists e. split; [|done]. apply filter_In. split; [done|].
      by change (groupMultiplier "0x") with (Num 0).
    + apply Forall_fmap, Forall_forall. intros e He. cbn.
      destruct (Hl e He) as [Hin Hm]. split; [|by exists e].
      destruct (String.eqb_spec (toLowerCase (te_name e)) "ground") as [Hname|]; [|done].
      cbn. rewrite (annotated_ground e Hnote Hin Hname) in Hm.
      destruct (groupMultiplier group) as [q|]; [|done].
      apply strict_eq_Num_iff in Hm. cbn. apply negb_false_iff, Qeq_bool_iff. by symmetry.
  - rewrite !andb_false_r. cbn [negb]. rewrite andb_true_r.
    destruct (length l =? 0)%nat eqn:Hlen; [done|]. intros [= <-]. cbn.
    split; [done|]. split; [by destruct l|].
    split; [by destruct (String.eqb group "0x")|].
    apply Forall_fmap, Forall_forall. intros e He. cbn.
    destruct (Hl e He) as [Hin Hm].
    split; [by destruct (String.eqb (toLowerCase (te_name e)) "ground")|by exists e].
Qed.
End GroundChip.



(** X9.  The footnote on Levitate has no chip that refers to it.  The
    footnote is displayed exactly when the annotation was produced; in
    that case the chip of Ground stands in the group [0x], and no chip of
    any group carries the asterisk, nor is the separate chip keyed
    [ground-levitate] ever added. *)
Theorem levitate_footnote_has_no_marked_chip
    (abilities : list Detail.AbilityInfo) (typesData : list Api.TypeDetail) :
  snd (DetailView.renderEffectiveness
         (fst (Detail.computeEffectiveness abilities typesData))
         (snd (Detail.computeEffectiveness abilities typesData)))
  = snd (Detail.computeEffectiveness abilities typesData)
  /\ Forall (fun g =>
               DetailView.g_groundLevitate g = false
               /\ Forall (fun c => DetailView.gc_asterisk c = false) (DetailView.g_chips g))
            (fst (DetailView.renderEffectiveness
                    (fst (Detail.computeEffectiveness abilities typesData))
                    (snd (Detail.computeEffectiveness abilities typesData))))
  /\ (snd (Detail.computeEffectiveness abilities typesData) <> None ->
      exists g c,
        g ∈ fst (DetailView.renderEffectiveness
                   (fst (Detail.computeEffectiveness abilities typesData))
                   (snd (Detail.computeEffectiveness abilities typesData)))
        /\ DetailView.g_heading g = "0x"
        /\ c ∈ DetailView.g_chips g
        /\ DetailView.gc_name c = "Ground").
Proof.
  split; [|split].
  - unfold DetailView.renderEffectiveness. cbn [snd].
    destruct (note_cases abilities typesData) as [->|[-> _]]; reflexivity.
  - unfold DetailView.renderEffectiveness. cbn [fst].
    apply Forall_forall. intros g Hg.
    apply list_elem_of_omap in Hg as (group & Hgroup & Hrender).
    destruct (renderGroup_marks abilities typesData group g Hrender)
      as (_ & _ & Hextra & Hchips).
    split; [done|]. eapply Forall_impl; [exact Hchips|]. by intros c [? _].
  - intros Hnote.
    assert (Js.truthy_str (snd (Detail.computeEffectiveness abilities typesData)) = true)
      as Htruthy.
    { destruct (note_cases abilities typesData) as [Hn|[-> _]]; [done|reflexivity]. }
    pose proof (annotated_ground_listed abilities typesData Htruthy) as Hex.
    apply existsb_exists in Hex as (e & He & Hcond).
    apply andb_true_iff in Hcond as [Hname Hzero]. apply String.eqb_eq in Hname.
    destruct (DetailView.renderGroup
                (fst (Detail.computeEffectiveness abilities typesData))
                (snd (Detail.computeEffectiveness abilities typesData)) "0x")
      as [g|] eqn:Hrender.
    + exists g.
      assert (Detail.te_name e
                ∈ DetailView.gc_name <$> DetailView.g_chips g) as Hchip.
      { pose proof (renderGroup_chips
                      (fst (Detail.computeEffectiveness abilities typesData))
                      (snd (Detail.computeEffectiveness abilities typesData)) "0x") as Hc.
        rewrite Hrender in Hc. cbn in Hc. rewrite Hc.
        apply list_elem_of_fmap. exists e. split; [done|].
        apply list_elem_of_In, filter_In. split; [done|exact Hzero]. }
      apply list_elem_of_fmap in Hchip as (c & Hc & Hin). exists c.
      split.
      { unfold DetailView.renderEffectiveness. cbn [fst].
        apply list_elem_of_omap. exists "0x". split; [|done].
        unfold DetailView.groups. repeat first [apply list_elem_of_here|apply list_elem_of_further]. }
      destruct (renderGroup_marks abilities typesData "0x" g Hrender) as (Hhead & _).
      split; [done|]. split; [done|].
      rewrite <- Hc.
      apply list_elem_of_In in He.
      destruct (table_elem abilities typesData e He) as (T & HT & HeT & _).
      rewrite HeT. apply ground_key; [done|]. by rewrite <- HeT.
    + exfalso.
      pose proof (renderGroup_chips
                    (fst (Detail.computeEffectiveness abilities typesData))
                    (snd (Detail.computeEffectiveness abilities typesData)) "0x") as Hc.
      rewrite Hrender in Hc. cbn in Hc.
      assert (e ∈ Shown.typesInGroup (DetailView.groupMultiplier "0x")
                     (fst (Detail.computeEffectiveness abilities typesData))) as Hin.
      { apply list_elem_of_In, filter_In. split; [done|exact Hzero]. }
      destruct (Shown.typesInGroup _ _); [by apply elem_of_nil in Hin|done].
Qed.

Lemma levitate_footnote_has_no_marked_chip_witness :
  exists g c,
    g ∈ fst (DetailView.renderEffectiveness
               (fst (Detail.computeEffectiveness [Samples.levitate] [Samples.ground]))
               (snd (Detail.computeEffectiveness [Samples.levitate] [Samples.ground])))
    /\ DetailView.g_heading g = "0x"
    /\ c ∈ DetailView.g_chips g
    /\ DetailView.gc_name c = "Ground".
Proof.
  apply (proj2 (proj2 (levitate_footnote_has_no_marked_chip
                         [Samples.levitate] [Samples.ground]))).
  vm_compute. discriminate.
Defined.

(** ** The evolution chain *)

Section Evolution.
Import Js Api Detail DetailView Shown.

Lemma link_induction (P : EvolutionChainLink -> Prop) :
  (forall species evolves_to, Forall P evolves_to -> P (Link species evolves_to)) ->
  forall link, P link.
Proof.
  intros H. fix IH 1. intros [species evolves_to]. apply H.
  exact ((fix go (ls : list EvolutionChainLink) : Forall P ls :=
            match ls with
            | [] => List.Forall_nil P
            | l :: ls' => @List.Forall_cons _ P l ls' (IH l) (go ls')
            end) evolves_to).
Qed.

Lemma cardKeys_render species evolves_to :
  cardKeys (renderEvolutionChain (Link species evolves_to))
  = nr_name species
    :: match evolves_to with
       | [] => []
       | first :: _ => cardKeys (renderEvolutionChain first)
       end.
Proof. by destruct evolves_to. Qed.

Lemma arrowKeys_render species evolves_to :
  arrowKeys (renderEvolutionChain (Link species evolves_to))
  = match evolves_to with
    | [] => []
    | first :: _ =>
        (nr_name species ++ "-arrow") :: arrowKeys (renderEvolutionChain first)
    end.
Proof. by destruct evolves_to. Qed.

Lemma cards_prefix link :
  cardKeys (renderEvolutionChain link) `prefix_of` speciesOf link.
Proof.
  induction link as [species evolves_to IH] using link_induction.
  rewrite cardKeys_render. cbn [speciesOf]. apply prefix_cons.
  destruct evolves_to as [|first rest]; [apply prefix_nil|].
  apply Forall_cons in IH as [IH _]. cbn.
  by apply prefix_app_r.
Qed.

Lemma speciesOf_length link : (1 <= length (speciesOf link))%nat.
Proof. destruct link. cbn. lia. Qed.

Lemma cards_all link :
  branches link = false -> cardKeys (renderEvolutionChain link) = speciesOf link.
Proof.
  induction link as [species evolves_to IH] using link_induction. intros Hb.
  rewrite cardKeys_render. cbn [speciesOf]. f_equal.
  destruct evolves_to as [|first [|second rest]]; [done| |done].
  apply Forall_cons in IH as [IH _]. cbn. rewrite app_nil_r. by apply IH.
Qed.

Lemma cards_fewer link :
  branches link = true ->
  (length (cardKeys (renderEvolutionChain link)) < length (speciesOf link))%nat.
Proof.
  induction link as [species evolves_to IH] using link_induction. intros Hb.
  rewrite cardKeys_render. cbn [speciesOf length].
  destruct evolves_to as [|first [|second rest]]; [done| |].
  - apply Forall_cons in IH as [IH _]. cbn. rewrite app_nil_r.
    specialize (IH Hb). lia.
  - cbn. rewrite !length_app.
    pose proof (prefix_length _ _ (cards_prefix first)).
    pose proof (speciesOf_length second). lia.
Qed.

Lemma arrows_between link :
  length (cardKeys (renderEvolutionChain link))
  = S (length (arrowKeys (renderEvolutionChain link))).
Proof.
  induction link as [species evolves_to IH] using link_induction.
  rewrite cardKeys_render, arrowKeys_render.
  destruct evolves_to as [|first rest]; [done|].
  apply Forall_cons in IH as [IH _]. cbn. by rewrite IH.
Qed.
End Evolution.

(** X10.  The evolution chain that is displayed follows the first
    continuation of every link: its cards are the first species of the
    chain in the order in which the chain lists them, one arrow stands
    between two cards, and a card links to the page of its species under
    the name in lower case.  The asterisk for several evolution paths is
    set exactly when a species of the chain is missing from the display:
    when [branches] finds no link with several continuations the cards
    are all the species of the chain, and when it finds one the cards are
    fewer than the species. *)
Theorem evolution_chain_shows_the_first_path (link : Detail.EvolutionChainLink) :
  Shown.cardKeys (DetailView.renderEvolutionChain link) `prefix_of` Shown.speciesOf link
  /\ length (Shown.cardKeys (DetailView.renderEvolutionChain link))
     = S (length (Shown.arrowKeys (DetailView.renderEvolutionChain link)))
  /\ (Detail.branches link = false ->
      Shown.cardKeys (DetailView.renderEvolutionChain link) = Shown.speciesOf link)
  /\ (Detail.branches link = true ->
      (length (Shown.cardKeys (DetailView.renderEvolutionChain link))
       < length (Shown.speciesOf link))%nat)
  /\ Forall (fun e =>
               match e with
               | DetailView.SpeciesCard key href _ text =>
                   href = "/pokedex/" ++ Js.toLowerCase key
                   /\ text = Js.replace_hyphen key
               | DetailView.Arrow _ => True
               end)
            (DetailView.renderEvolutionChain link).
Proof.
  split; [apply cards_prefix|]. split; [apply arrows_between|].
  split; [apply cards_all|]. split; [apply cards_fewer|].
  induction link as [species evolves_to IH] using link_induction.
  cbn [DetailView.renderEvolutionChain]. constructor; [done|].
  destruct evolves_to as [|first rest]; [constructor|].
  apply Forall_cons in IH as [IH _]. by constructor.
Qed.

Lemma evolution_chain_shows_the_first_path_witness :
  (length (Shown.cardKeys
             (DetailView.renderEvolutionChain
                (Detail.Link (Samples.typeRef "eevee")
                   [Detail.Link (Samples.typeRef "vaporeon") [];
                    Detail.Link (Samples.typeRef "jolteon") []])))
   < length (Shown.speciesOf
               (Detail.Link (Samples.typeRef "eevee")
                  [Detail.Link (Samples.typeRef "vaporeon") [];
                   Detail.Link (Samples.typeRef "jolteon") []])))%nat.
Proof.
  apply (proj1 (proj2 (proj2 (proj2 (evolution_chain_shows_the_first_path
           (Detail.Link (Samples.typeRef "eevee")
              [Detail.Link (Samples.typeRef "vaporeon") [];
               Detail.Link (Samples.typeRef "jolteon") []])))))).
  reflexivity.
Defined.

(** ** The page after a load *)

Section AfterLoad.
Import Js JsText Eff Eff.Notations Post Api Detail DetailView Frame.
Variable w : World.

Lemma loadCurrent_page identifier s :
  identifier <> EmptyString ->
  wp (loadCurrentPokemonAndPreloadNeighbors w identifier)
     (fun _ s' =>
        isLoading (page s') = false
        /\ ((pokemonData (page s') = pokemonData (page s)
             /\ error (page s')
                = Some ("Pokémon " ++ quoted identifier ++ " not found or failed to load."))
            \/ (exists d,
                  pokemonData (page s') = Some d
                  /\ (error (page s') = None
                      \/ exists e, error (page s')
                                   = Some ("Failed to load some details: " ++ e))))) s.
Proof.
  intros Hid. unfold loadCurrentPokemonAndPreloadNeighbors.
  assert (truthy_str (Some identifier) = true) as ->.
  { cbn. by destruct (String.eqb_spec identifier EmptyString). }
  cbn [negb].
  do 4 (apply wp_bind, wp_modify; unfold andThen).
  set (s0 := setPreloadInitiated false _).
  assert (error (page s0) = None /\ pokemonData (page s0) = pokemonData (page s))
    as [Herr0 Hdata0] by done.
  apply wp_bind. eapply wp_mono; [apply fetchPokemonDataByNameOrId_spec|].
  intros r s1 (fetched & -> & Hpage1 & _). unfold andThen.
  destruct fetched as [d|].
  - apply wp_bind. do 2 (apply wp_bind, wp_modify; unfold andThen).
    set (s2 := onPage (setAnimatedStats _) _).
    assert (pokemonData (page s2) = Some d) as Hdata2 by done.
    assert (error (page s2) = None) as Herr2 by (cbn; by rewrite Hpage1).
    apply wp_bind. eapply wp_mono; [apply fetchPageSpecificDetails_spec|].
    intros r s3 (-> & Hdet & Hcase). unfold andThen.
    destruct Hdet as (_ & _ & _ & Hdata3 & _).
    eapply wp_mono; [apply linkNeighbours_spec|].
    intros r s4 (-> & _ & Hlinks & _). unfold andThen. apply wp_modify.
    destruct Hlinks as (Hdata4 & _ & _ & _ & _ & _ & Herr4 & _).
    split; [done|]. right. exists d. cbn. split; [congruence|].
    rewrite Herr4. destruct Hcase as [[[e He] _]|(_ & _ & _ & _ & He)].
    + right. by exists e.
    + left. congruence.
  - apply wp_bind, wp_modify. unfold andThen. apply wp_modify.
    split; [done|]. left. cbn. split; [|done]. by rewrite Hpage1.
Qed.
End AfterLoad.

(** X11.  What the detail page shows once
    [loadCurrentPokemonAndPreloadNeighbors] has run for a name that is
    not empty: never the loading screen and never the screen "not found".
    When the record of the creature could not be obtained, the error
    screen names the creature.  When it was obtained, the creature is in
    place, and the page is displayed if the details loaded as well; when
    the details failed, the error screen replaces the page although the
    record is there.  For the empty name nothing happens at all. *)
Theorem detail_page_after_load
    (w : Detail.World) (identifier : string) (s : Detail.Sys) :
  (identifier = EmptyString ->
   Detail.loadCurrentPokemonAndPreloadNeighbors w identifier s = (Eff.Return tt, s))
  /\ (identifier <> EmptyString ->
      Detail.isLoading
        (Detail.page (snd (Detail.loadCurrentPokemonAndPreloadNeighbors w identifier s)))
      = false
      /\ ((Detail.pokemonData
             (Detail.page (snd (Detail.loadCurrentPokemonAndPreloadNeighbors w identifier s)))
           = Detail.pokemonData (Detail.page s)
           /\ DetailView.view
                (Detail.page (snd (Detail.loadCurrentPokemonAndPreloadNeighbors w identifier s)))
              = DetailView.ErrorView
                  ("Pokémon " ++ Js.quoted identifier ++ " not found or failed to load."))
          \/ (exists d,
                Detail.pokemonData
                  (Detail.page (snd (Detail.loadCurrentPokemonAndPreloadNeighbors w identifier s)))
                = Some d
                /\ ((Detail.error
                       (Detail.page
                          (snd (Detail.loadCurrentPokemonAndPreloadNeighbors w identifier s)))
                     = None
                     /\ DetailView.view
                          (Detail.page
                             (snd (Detail.loadCurrentPokemonAndPreloadNeighbors w identifier s)))
                        = DetailView.MainView)
                    \/ exists e,
                         DetailView.view
                           (Detail.page
                              (snd (Detail.loadCurrentPokemonAndPreloadNeighbors w identifier s)))
                         = DetailView.ErrorView ("Failed to load some details: " ++ e))))).
Proof.
  split; [by intros ->|]. intros Hid.
  destruct (loadCurrent_page w identifier s Hid) as (Hload & Hcase).
  split; [exact Hload|]. unfold DetailView.view. rewrite Hload. cbn [andb].
  destruct Hcase as [[Hdata Herr]|(d & Hdata & Herr)].
  - left. split; [done|]. rewrite Herr. reflexivity.
  - right. exists d. split; [done|]. rewrite Hdata.
    destruct Herr as [Herr|[e Herr]]; rewrite Herr.
    + left. split; [done|]. reflexivity.
    + right. exists e. reflexivity.
Qed.

Lemma detail_page_after_load_witness :
  Detail.isLoading
    (Detail.page (snd (Detail.loadCurrentPokemonAndPreloadNeighbors
                         (Worlds.network false) "pikachu" Worlds.freshSys)))
  = false.
Proof.
  apply (proj2 (detail_page_after_load (Worlds.network false) "pikachu" Worlds.freshSys)).
  discriminate.
Defined.

(** ** Numbers in decimal notation *)

Section Decimal.
Import Js JsText Context Text.

Lemma append_cons c (s t : string) : String c s ++ t = String c (s ++ t).
Proof. reflexivity. Qed.

Lemma append_nil_l (t : string) : EmptyString ++ t = t.
Proof. reflexivity. Qed.

Lemma length_append (s t : string) :
  String.length (s ++ t) = (String.length s + String.length t)%nat.
Proof.
  induction s as [|c s IH]; [done|]. rewrite append_cons. cbn. by rewrite IH.
Qed.

Lemma append_assoc (s t u : string) : (s ++ t) ++ u = s ++ (t ++ u).
Proof.
  induction s as [|c s IH]; [done|]. by rewrite !append_cons, IH.
Qed.

Lemma append_nil_r (s : string) : s ++ EmptyString = s.
Proof.
  induction s as [|c s IH]; [done|]. by rewrite append_cons, IH.
Qed.

Lemma every_append p s t : every p (s ++ t) = (every p s && every p t)%bool.
Proof.
  induction s as [|c s IH]; [done|]. rewrite append_cons. cbn.
  by rewrite IH, andb_assoc.
Qed.

Lemma digit_pretty_N_char d :
  (d < 10)%N -> digit (pretty_N_char d) = Some (Z.of_N d).
Proof.
  intros Hd.
  assert (d = 0 \/ d = 1 \/ d = 2 \/ d = 3 \/ d = 4 \/ d = 5 \/ d = 6 \/ d = 7
          \/ d = 8 \/ d = 9)%N as Hcases by lia.
  destruct Hcases as [->|[->|[->|[->|[->|[->|[->|[->|[->| ->]]]]]]]]]; reflexivity.
Qed.

Lemma pretty_N_go_append x : forall s t,
  pretty_N_go x s ++ t = pretty_N_go x (s ++ t).
Proof.
  induction (N.lt_wf_0 x) as [x _ IH]. intros s t.
  destruct (decide (0 < x)%N) as [Hx|Hx].
  - rewrite !(pretty_N_go_step x) by done.
    rewrite IH by (by apply N.div_lt). reflexivity.
  - assert (x = 0%N) as -> by lia. by rewrite !pretty_N_go_0.
Qed.

Lemma pretty_N_go_digits x : forall s,
  every isDigit s = true -> every isDigit (pretty_N_go x s) = true.
Proof.
  induction (N.lt_wf_0 x) as [x _ IH]. intros s Hs.
  destruct (decide (0 < x)%N) as [Hx|Hx].
  - rewrite (pretty_N_go_step x) by done. apply IH; [by apply N.div_lt|].
    cbn [every]. rewrite Hs, andb_true_r. unfold isDigit.
    rewrite digit_pretty_N_char by (by apply N.mod_lt). done.
  - assert (x = 0%N) as -> by lia. by rewrite pretty_N_go_0.
Qed.

Lemma pretty_N_go_nonempty x s : (0 < x)%N -> pretty_N_go x s <> EmptyString.
Proof.
  revert s. induction (N.lt_wf_0 x) as [x _ IH]. intros s Hx.
  rewrite (pretty_N_go_step x) by done.
  destruct (decide (0 < x `div` 10)%N) as [Hd|Hd].
  - apply IH; [by apply N.div_lt|done].
  - apply N.nlt_ge, N.le_0_r in Hd. by rewrite Hd, pretty_N_go_0.
Qed.

Lemma digits_pretty_N_go x : forall s acc,
  (0 < x)%N -> default 0%Z acc = 0%Z ->
  digits acc (pretty_N_go x s) = digits (Some (Z.of_N x)) s.
Proof.
  induction (N.lt_wf_0 x) as [x _ IH]. intros s acc Hx Hacc.
  rewrite (pretty_N_go_step x) by done.
  assert (x = 10 * x `div` 10 + x `mod` 10)%N as Hdm by (by apply N.div_mod).
  assert (x `mod` 10 < 10)%N as Hm by (by apply N.mod_lt).
  assert (x `div` 10 < x)%N as Hlt by (by apply N.div_lt).
  destruct (decide (0 < x `div` 10)%N) as [Hd|Hd].
  - rewrite IH by done.
    cbn [digits]. rewrite digit_pretty_N_char by done. cbn [default].
    f_equal. f_equal. unfold id. revert Hdm.
    generalize (x `div` 10)%N (x `mod` 10)%N. lia.
  - apply N.nlt_ge, N.le_0_r in Hd. rewrite Hd in Hdm |- *. rewrite pretty_N_go_0.
    cbn [digits]. rewrite digit_pretty_N_char by done. rewrite Hacc.
    f_equal. f_equal. unfold id. revert Hdm. generalize (x `mod` 10)%N. lia.
Qed.

(** The decimal notation of a number that is not negative: digits, at
    least one, which [digits] reads back. *)
Lemma pretty_nonneg n :
  (0 <= n)%Z ->
  every isDigit (pretty n) = true
  /\ pretty n <> EmptyString
  /\ forall acc, default 0%Z acc = 0%Z -> digits acc (pretty n) = Some n.
Proof.
  intros Hn. destruct n as [|p|p]; [| |lia].
  - split; [done|]. split; [done|]. intros acc Hacc. cbn. by rewrite Hacc.
  - change (pretty (Z.pos p)) with (pretty_N_go (N.pos p) EmptyString).
    split; [by apply pretty_N_go_digits|]. split; [by apply pretty_N_go_nonempty|].
    intros acc Hacc. by rewrite digits_pretty_N_go.
Qed.

Lemma digits_zeros k : forall acc s,
  default 0%Z acc = 0%Z ->
  exists acc', default 0%Z acc' = 0%Z
               /\ digits acc (repeatChar k "0"%char ++ s) = digits acc' s.
Proof.
  induction k as [|k IH]; intros acc s Hacc; [by exists acc|].
  cbn [repeatChar]. rewrite append_cons. cbn. rewrite Hacc. apply IH. reflexivity.
Qed.

Lemma isDigit_range c :
  isDigit c = true ->
  (48 <= Ascii.nat_of_ascii c <= 57)%nat.
Proof.
  unfold isDigit, digit. intros H. apply bool_decide_eq_true in H.
  destruct (_ && _)%bool eqn:Hr; [|by destruct H].
  apply andb_true_iff in Hr as [H1 H2].
  apply Nat.leb_le in H1. apply Nat.leb_le in H2. lia.
Qed.

(** Nothing is taken off a string that begins with an ASCII character
    that is not white space. *)
Lemma strip_plain a r :
  (Ascii.nat_of_ascii a < 128)%nat -> white1 a = false ->
  strip false (String a r) = String a r.
Proof.
  intros Ha Hw. cbn [strip]. rewrite Hw.
  assert (forall k, (128 <= k)%nat -> (Ascii.nat_of_ascii a =? k)%nat = false) as Hk.
  { intros k Hk. apply Nat.eqb_neq. lia. }
  destruct r as [|b r2]; [done|].
  assert (white2 a b = false) as -> by (unfold white2; by rewrite Hk by lia).
  destruct r2 as [|c r3]; [done|].
  assert (white3 a b c = false) as ->; [|done].
  unfold white3. by rewrite !Hk by lia.
Qed.

(** [parseInt] of a string of digits reads the digits and rounds. *)
Lemma parseInt_digits s :
  s <> EmptyString -> every isDigit s = true ->
  parseInt (Some s) = nearest <$> digits None s.
Proof.
  intros Hne Hs. destruct s as [|c r]; [done|].
  cbn [every] in Hs. apply andb_true_iff in Hs as [Hc _].
  apply isDigit_range in Hc.
  unfold parseInt, skipWhitespace. rewrite strip_plain.
  - destruct (Ascii.eqb_spec c "-"%char) as [->|_]; [vm_compute in Hc; lia|].
    destruct (Ascii.eqb_spec c "+"%char) as [->|_]; [vm_compute in Hc; lia|].
    reflexivity.
  - lia.
  - unfold white1.
    destruct (Nat.eqb_spec (Ascii.nat_of_ascii c) 32) as [?|_]; [lia|].
    destruct (Nat.leb_spec (Ascii.nat_of_ascii c) 13) as [?|_]; [lia|].
    by rewrite andb_false_r.
Qed.

Lemma length_pretty_N_go k : forall x s,
  (x < 10 ^ N.of_nat k)%N ->
  (String.length (pretty_N_go x s) <= k + String.length s)%nat.
Proof.
  induction k as [|k IH]; intros x s Hx.
  - assert (x = 0%N) as -> by (cbn in Hx; lia). rewrite pretty_N_go_0. lia.
  - destruct (decide (0 < x)%N) as [Hpos|Hz].
    + rewrite (pretty_N_go_step x) by done.
      etrans; [apply IH|cbn; lia].
      apply N.div_lt_upper_bound; [done|].
      rewrite Nat2N.inj_succ, N.pow_succ_r' in Hx. lia.
    + assert (x = 0%N) as -> by lia. rewrite pretty_N_go_0. lia.
Qed.

Lemma length_pretty_small n :
  (0 <= n < 10000)%Z -> (String.length (pretty n) <= 4)%nat.
Proof.
  intros Hn. destruct n as [|p|p]; [cbn; lia| |lia].
  change (pretty (Z.pos p)) with (pretty_N_go (N.pos p) EmptyString).
  etrans; [apply (length_pretty_N_go 4)|cbn; lia].
  change (10 ^ N.of_nat 4)%N with 10000%N. lia.
Qed.

Lemma length_repeatChar k c : String.length (repeatChar k c) = k.
Proof. induction k as [|k IH]; simpl; [done|by rewrite IH]. Qed.
End Decimal.

(** X12.  The number that the pages print for a creature reads back as
    the number of the creature.  For a number from 0 up to but not
    including 2^53, the range in which [String] prints an integer digit
    by digit and [parseInt] reads one without rounding,
    [formatPokemonId] gives a number sign followed by digits, at least
    four of them and exactly four below 10000, and [parseInt] of these
    digits is the number. *)
Theorem formatPokemonId_reads_back (id : Z) :
  (0 <= id < 9007199254740992)%Z ->
  exists digits,
    DetailView.formatPokemonId id = String "#"%char digits
    /\ Text.every Text.isDigit digits = true
    /\ Context.parseInt (Some digits) = Some id
    /\ (4 <= String.length digits)%nat
    /\ ((id < 10000)%Z -> String.length digits = 4%nat).
Proof.
  intros Hsafe. assert (0 <= id)%Z as Hid by lia.
  unfold DetailView.formatPokemonId, JsText.padStart.
  destruct (pretty_nonneg id Hid) as (Hdigits & Hne & Hread).
  eexists. split; [reflexivity|].
  assert (Text.every Text.isDigit
            (JsText.repeatChar (4 - String.length (pretty id)) "0" ++ pretty id) = true)
    as Hall.
  { rewrite every_append, Hdigits, andb_true_r.
    generalize (4 - String.length (pretty id))%nat. intros k.
    induction k as [|k IH]; [done|]. cbn. exact IH. }
  split; [exact Hall|]. split; [|split].
  - rewrite parseInt_digits; [| |exact Hall].
    + destruct (digits_zeros (4 - String.length (pretty id)) None (pretty id) eq_refl)
        as (acc' & Hacc' & ->).
      rewrite (Hread acc' Hacc'). cbn [fmap option_fmap option_map].
      by rewrite nearest_safe.
    + intros Hempty. apply (f_equal String.length) in Hempty.
      rewrite length_append in Hempty. cbn in Hempty.
      destruct (pretty id); [done|]. cbn in Hempty. lia.
  - rewrite length_append, length_repeatChar. lia.
  - intros Hsmall. rewrite length_append, length_repeatChar.
    pose proof (length_pretty_small id (conj Hid Hsmall)). lia.
Qed.

Lemma formatPokemonId_reads_back_witness :
  exists digits,
    DetailView.formatPokemonId 25 = String "#"%char digits
    /\ Context.parseInt (Some digits) = Some 25%Z.
Proof.
  destruct (formatPokemonId_reads_back 25) as (digits & Hformat & _ & Hparse & _); [lia|].
  by exists digits.
Defined.

(** ** The entries of the search index *)

Section UrlParts.
Import Js JsText Api Context Text.

Lemma splitSlash_app s : forall acc t,
  splitSlash acc (s ++ String "/"%char t) = (splitSlash acc s ++ splitSlash EmptyString t)%list.
Proof.
  induction s as [|c s IH]; intros acc t; [done|].
  rewrite append_cons. cbn [splitSlash].
  destruct (Ascii.eqb c "/"%char); [by rewrite IH|apply IH].
Qed.

Lemma splitSlash_whole s : forall acc,
  every notSlash s = true -> splitSlash acc s = [acc ++ s].
Proof.
  induction s as [|c s IH]; intros acc Hs; [by rewrite append_nil_r|].
  cbn [every] in Hs. apply andb_true_iff in Hs as [Hc Hs].
  cbn [splitSlash]. unfold notSlash in Hc. apply negb_true_iff in Hc. rewrite Hc.
  rewrite IH by done. by rewrite append_assoc.
Qed.

Lemma digits_notSlash s : every isDigit s = true -> every notSlash s = true.
Proof.
  induction s as [|c s IH]; [done|]. cbn [every]. intros H.
  apply andb_true_iff in H as [Hc Hs]. rewrite IH by done. rewrite andb_true_r.
  apply isDigit_range in Hc. unfold notSlash.
  destruct (Ascii.eqb_spec c "/"%char) as [->|_]; [vm_compute in Hc; lia|done].
Qed.

Lemma splitSlash_nonempty s : forall acc, splitSlash acc s <> [].
Proof.
  induction s as [|c s IH]; intros acc; [done|]. cbn [splitSlash].
  destruct (Ascii.eqb c "/"%char); [done|apply IH].
Qed.
End UrlParts.

(** X13.  An entry of the search index takes its number from the URL
    of the creature: when the URL ends with a slash, the decimal notation
    of a number from 0 up to but not including 2^53 and one more slash,
    that number is the [id] of the entry, wherever the creature stands in
    the response.  (From 2^53 on [parseInt] rounds what it reads.)  For a
    URL without any slash the [id] is the position in the response,
    counted from 1. *)
Theorem toMinimal_takes_the_id_from_the_url
    (index : nat) (name : string) :
  (forall (base : string) (n : Z),
      (0 <= n < 9007199254740992)%Z ->
      Context.mp_id
        (Context.toMinimal index
           {| Api.nr_name := name; Api.nr_url := base ++ "/" ++ pretty n ++ "/" |})
      = n)
  /\ (forall url,
        Text.every Text.notSlash url = true ->
        Context.mp_id
          (Context.toMinimal index {| Api.nr_name := name; Api.nr_url := url |})
        = (Z.of_nat index + 1)%Z).
Proof.
  split.
  - intros base n Hsafe. assert (0 <= n)%Z as Hn by lia.
    destruct (pretty_nonneg n Hn) as (Hdigits & Hne & Hread).
    unfold Context.toMinimal. cbn [Api.nr_url Context.mp_id].
    change (base ++ "/" ++ pretty n ++ "/")
      with (base ++ String "/"%char (pretty n ++ String "/"%char EmptyString)).
    rewrite !splitSlash_app.
    rewrite (splitSlash_whole (pretty n)) by (by apply digits_notSlash).
    rewrite append_nil_l. cbn [Context.splitSlash].
    set (parts := Context.splitSlash EmptyString base).
    rewrite !length_app. cbn [length].
    replace (2 <=? length parts + (1 + 1))%nat with true
      by (symmetry; apply Nat.leb_le; lia).
    replace (length parts + (1 + 1) - 2)%nat with (length parts + 0)%nat by lia.
    rewrite lookup_app_r by lia.
    replace (length parts + 0 - length parts)%nat with 0%nat by lia.
    cbn [lookup list_lookup app].
    rewrite parseInt_digits by done. rewrite Hread by done.
    cbn [fmap option_fmap option_map default]. by apply nearest_safe.
  - intros url Hurl. unfold Context.toMinimal. cbn [Api.nr_url Context.mp_id].
    by rewrite splitSlash_whole.
Qed.

Lemma toMinimal_takes_the_id_from_the_url_witness :
  Context.mp_id
    (Context.toMinimal 0
       {| Api.nr_name := "pikachu";
          Api.nr_url := "https://pokeapi.co/api/v2/pokemon" ++ "/" ++ pretty 25%Z ++ "/" |})
  = 25%Z.
Proof.
  apply (proj1 (toMinimal_takes_the_id_from_the_url 0 "pikachu")). lia.
Defined.

(** ** The order of the search index *)

Section IndexOrder.
Import Js Api Context Index.
Variable unsorted : list MinimalPokemonInfo.

Lemma insertById_perm x l : insertById x l ≡ₚ x :: l.
Proof.
  induction l as [|y l IH]; [done|]. cbn [insertById].
  destruct (mp_id y <? mp_id x)%Z; [|done].
  rewrite IH. apply Permutation_swap.
Qed.

Lemma sortById_perm l : sortById l ≡ₚ l.
Proof.
  induction l as [|x l IH]; [done|].
  change (sortById (x :: l)) with (insertById x (sortById l)).
  by rewrite insertById_perm, IH.
Qed.

Lemma index_precedes_le a b : precedes unsorted a b -> (mp_id a <= mp_id b)%Z.
Proof. intros [?|[? _]]; lia. Qed.

Lemma insertById_sorted x l :
  StronglySorted (precedes unsorted) l ->
  Forall (fun z => exists i j, (i < j)%nat /\ unsorted !! i = Some x /\ unsorted !! j = Some z) l ->
  StronglySorted (precedes unsorted) (insertById x l).
Proof.
  intros Hsorted Hbefore. induction l as [|y l IH]; [repeat constructor|].
  apply StronglySorted_inv in Hsorted as [Hsorted Hy].
  apply Forall_cons in Hbefore as [Hxy Hbefore].
  cbn [insertById]. destruct (Z.ltb_spec (mp_id y) (mp_id x)) as [Hlt|Hge].
  - constructor; [by apply IH|].
    rewrite (insertById_perm x l). constructor; [by left|done].
  - constructor; [by constructor|].
    assert (forall z, (mp_id y <= mp_id z)%Z ->
              (exists i j, (i < j)%nat /\ unsorted !! i = Some x /\ unsorted !! j = Some z) ->
              precedes unsorted x z) as Hstep.
    { intros z Hle Hpos. destruct (decide (mp_id x = mp_id z)) as [Heq|Hne].
      - right. by split.
      - left. lia. }
    constructor; [by apply Hstep|].
    apply Forall_forall. intros z Hz. apply Hstep.
    + apply index_precedes_le. by apply (proj1 (Forall_forall _ _) Hy).
    + by apply (proj1 (Forall_forall _ _) Hbefore).
Qed.

Lemma sortById_sorted l : forall pre,
  unsorted = (pre ++ l)%list -> StronglySorted (precedes unsorted) (sortById l).
Proof.
  induction l as [|x l IH]; intros pre Hu; [constructor|].
  change (sortById (x :: l)) with (insertById x (sortById l)).
  apply insertById_sorted.
  - apply (IH (pre ++ [x])%list). by rewrite <- app_assoc.
  - rewrite (sortById_perm l). apply Forall_forall. intros z Hz.
    apply list_elem_of_lookup in Hz as [k Hk].
    exists (length pre), (length pre + S k)%nat. split; [lia|]. rewrite Hu. split.
    + by rewrite lookup_app_r, Nat.sub_diag by lia.
    + rewrite lookup_app_r by lia.
      by replace (length pre + S k - length pre)%nat with (S k) by lia.
Qed.
End IndexOrder.

Section ListOutcome.
Import Js Eff Api Context Index.
Variable w : World.

Lemma fetchMinimalPokemonList_requested s :
  requested w s ->
  fetchMinimalPokemonList w s
  = setIsLoadingMinimalList false
      (snd (try_catch (refetch w)
              (fun message => modify (setSearchError (Some message)))
              (setLocalStorage (delete CACHE_KEY_MINIMAL_LIST (localStorage s))
                 (setSearchError None (setIsLoadingMinimalList true s))))).
Proof.
  unfold requested, fetchMinimalPokemonList.
  cbn [localStorage setSearchError setIsLoadingMinimalList sent].
  destruct (localStorage s !! CACHE_KEY_MINIMAL_LIST) as [stored|] eqn:Hstored.
  - intros Hold. rewrite (proj2 (Z.ltb_ge _ _) Hold).
    by destruct (try_catch _ _ _).
  - intros _. rewrite (delete_id _ _ Hstored).
    assert (setLocalStorage (localStorage s)
              (setSearchError None (setIsLoadingMinimalList true s))
            = setSearchError None (setIsLoadingMinimalList true s)) as ->
      by (by destruct s).
    by destruct (try_catch _ _ _).
Qed.
End ListOutcome.

(** X14.  The search index that [fetchMinimalPokemonList] fetches is
    sorted by number.  When the list is requested and the response is
    read, the index holds one entry for each creature of the response,
    by increasing [id], entries with the same [id] in the order of the
    response; no error is set and loading has ended. *)
Theorem search_index_is_sorted_by_id
    (w : Context.World) (s : Context.Sys) (status : Z)
    (results : list Api.NamedResource) :
  Index.requested w s ->
  Context.listing w (Context.sent s) = Js.Responded true status (inr results) ->
  Context.minimalPokemonList (Context.fetchMinimalPokemonList w s)
    ≡ₚ imap Context.toMinimal results
  /\ length (Context.minimalPokemonList (Context.fetchMinimalPokemonList w s))
     = length results
  /\ (forall i j a b,
        (i < j)%nat ->
        Context.minimalPokemonList (Context.fetchMinimalPokemonList w s) !! i = Some a ->
        Context.minimalPokemonList (Context.fetchMinimalPokemonList w s) !! j = Some b ->
        Index.precedes (imap Context.toMinimal results) a b)
  /\ Context.searchError (Context.fetchMinimalPokemonList w s) = None
  /\ Context.isLoadingMinimalList (Context.fetchMinimalPokemonList w s) = false.
Proof.
  intros Hreq Hres.
  rewrite (fetchMinimalPokemonList_requested w s Hreq).
  unfold Eff.try_catch, Context.refetch, Eff.bind, Eff.get, Eff.modify. cbn.
  rewrite Hres. cbn.
  split; [apply sortById_perm|].
  split; [by rewrite (sortById_perm _), length_imap|].
  split; [|done].
  apply StronglySorted_lookup.
  by apply (sortById_sorted (imap Context.toMinimal results) _ []).
Qed.

Lemma search_index_is_sorted_by_id_witness :
  length (Context.minimalPokemonList
            (Context.fetchMinimalPokemonList Worlds.listed Worlds.freshContext))
  = length
      [ {| Api.nr_name := "ivysaur"; Api.nr_url := "https://pokeapi.co/api/v2/pokemon/2/" |};
        {| Api.nr_name := "bulbasaur"; Api.nr_url := "https://pokeapi.co/api/v2/pokemon/1/" |} ].
Proof.
  refine (proj1 (proj2 (search_index_is_sorted_by_id Worlds.listed Worlds.freshContext 200
                          _ _ _))).
  - exact I.
  - reflexivity.
Defined.

(** X15.  A list request that fails leaves the search without a list.
    When the list is requested and the request is rejected, answered
    with a status that is not a success, or answered with a body that
    cannot be read, the error of the search is set, to the fixed message
    in the second case and to the message of the failure in the others;
    the index is the one that was there; nothing is stored, and a stored
    list that had expired is gone.  However the call ends, loading has
    ended. *)
Theorem failed_list_request_sets_the_error (w : Context.World) (s : Context.Sys) :
  Context.isLoadingMinimalList (Context.fetchMinimalPokemonList w s) = false
  /\ (Index.requested w s ->
      Failure.unreachable (Context.listing w (Context.sent s)) ->
      (exists message,
          Context.searchError (Context.fetchMinimalPokemonList w s) = Some message
          /\ match Context.listing w (Context.sent s) with
             | Js.Rejected e => message = e
             | Js.Responded false _ _ =>
                 message = "Failed to fetch minimal Pokémon list for search."
             | Js.Responded true _ body => body = inl message
             end)
      /\ Context.minimalPokemonList (Context.fetchMinimalPokemonList w s)
         = Context.minimalPokemonList s
      /\ Context.localStorage (Context.fetchMinimalPokemonList w s)
           !! Context.CACHE_KEY_MINIMAL_LIST = None).
Proof.
  split.
  - unfold Context.fetchMinimalPokemonList.
    destruct (_ !! _) as [stored|]; [destruct (_ <? _)%Z|]; try done;
      by destruct (Eff.try_catch _ _ _).
  - intros Hreq Hfail. rewrite (fetchMinimalPokemonList_requested w s Hreq).
    unfold Eff.try_catch, Context.refetch, Eff.bind, Eff.get, Eff.modify. cbn.
    destruct (Context.listing w (Context.sent s)) as [e|[] status [e|results]]; cbn in *.
    + split; [by exists e|]. split; [done|]. apply lookup_delete_eq.
    + split; [by exists e|]. split; [done|]. apply lookup_delete_eq.
    + destruct Hfail as [?|[? ?]]; done.
    + split; [by eexists|]. split; [done|]. apply lookup_delete_eq.
    + split; [by eexists|]. split; [done|]. apply lookup_delete_eq.
Qed.

Lemma failed_list_request_sets_the_error_witness :
  Context.localStorage
    (Context.fetchMinimalPokemonList
       {| Context.listing := fun _ => Js.Rejected "Failed to fetch";
          Context.clock := fun _ => 0%Z |}
       Worlds.freshContext)
    !! Context.CACHE_KEY_MINIMAL_LIST = None.
Proof.
  refine (proj2 (proj2 (proj2 (failed_list_request_sets_the_error
            {| Context.listing := fun _ => Js.Rejected "Failed to fetch";
               Context.clock := fun _ => 0%Z |}
            Worlds.freshContext) _ _))).
  - exact I.
  - exact I.
Defined.

(** ** Names with hyphens *)

Section Hyphens.
Import Js Text.

Lemma replace_hyphen_free s : every notHyphen s = true -> replace_hyphen s = s.
Proof.
  induction s as [|c s IH]; [done|]. cbn [every replace_hyphen]. intros H.
  apply andb_true_iff in H as [Hc Hs]. unfold notHyphen in Hc.
  apply negb_true_iff in Hc. rewrite Hc. by rewrite IH.
Qed.

Lemma replace_hyphen_first a b :
  every notHyphen a = true ->
  replace_hyphen (a ++ String "-"%char b) = a ++ String " "%char b.
Proof.
  induction a as [|c a IH]; [done|]. cbn [every]. intros H.
  apply andb_true_iff in H as [Hc Ha]. unfold notHyphen in Hc.
  apply negb_true_iff in Hc. rewrite !append_cons. cbn [replace_hyphen].
  rewrite Hc. by rewrite IH.
Qed.

Lemma replace_hyphen_length s : String.length (replace_hyphen s) = String.length s.
Proof.
  induction s as [|c s IH]; [done|]. cbn [replace_hyphen].
  destruct (Ascii.eqb c "-"%char); cbn; [done|by rewrite IH].
Qed.
End Hyphens.

(** X16.  Where the pages show a name with [replace('-', ' ')], only
    the first hyphen becomes a space: what follows it is shown as it is,
    hyphens included, and a name without hyphen is shown unchanged.  The
    display name of the search index is the name with its first letter in
    upper case and, after that letter, its first hyphen replaced; the
    first character itself is never replaced.  The length of a name does
    not change. *)
Theorem only_the_first_hyphen_is_replaced (a b : string) :
  Text.every Text.notHyphen a = true ->
  Js.replace_hyphen (a ++ String "-"%char b) = a ++ String " "%char b
  /\ Js.replace_hyphen a = a
  /\ String.length (Js.replace_hyphen (a ++ String "-"%char b))
     = String.length (a ++ String "-"%char b)
  /\ (forall c,
        Context.displayNameOf (String c (a ++ String "-"%char b))
        = String (Context.upper_ascii c) (a ++ String " "%char b)).
Proof.
  intros Ha. split; [by apply replace_hyphen_first|].
  split; [by apply replace_hyphen_free|].
  split; [apply replace_hyphen_length|].
  intros c. cbn [Context.displayNameOf]. by rewrite replace_hyphen_first.
Qed.

Lemma only_the_first_hyphen_is_replaced_witness :
  Js.replace_hyphen ("mr" ++ String "-"%char "mime-galar") = "mr" ++ String " "%char "mime-galar".
Proof.
  apply (proj1 (only_the_first_hyphen_is_replaced "mr" "mime-galar" eq_refl)).
Defined.

(** ** The search box *)

Section SearchBox.
Import Js JsText Context Header Box.
Variable px : Context.Sys.

Lemma reset_consistent s : consistent (reset s).
Proof. unfold consistent. cbn. split; [lia|]. split; [lia|done]. Qed.

Lemma updateSuggestions_consistent s : consistent (updateSuggestions px s).
Proof.
  unfold updateSuggestions.
  destruct (String.eqb_spec (trim (searchTerm s)) EmptyString) as [Hblank|Hterm].
  - unfold consistent. cbn. split; [lia|]. split; [lia|done].
  - unfold consistent. cbn [activeIndex suggestions searchTerm setActiveIndex setSuggestions].
    split; [lia|]. split; [|done]. rewrite length_take. lia.
Qed.

Lemma handleSuggestionClick_consistent path s : consistent (handleSuggestionClick path s).
Proof. apply reset_consistent. Qed.

Lemma navigateToSearchPage_consistent term s : consistent (navigateToSearchPage term s).
Proof. apply reset_consistent. Qed.

Lemma handleSearchSubmit_consistent s : consistent s -> consistent (handleSearchSubmit s).
Proof.
  intros Hs. unfold handleSearchSubmit.
  destruct (String.eqb _ _); [done|].
  destruct (activeSuggestion s); [apply reset_consistent|].
  destruct (suggestions s) as [|first rest]; [apply reset_consistent|].
  destruct (String.eqb _ _); apply reset_consistent.
Qed.

Lemma rem_down i n :
  (-1 <= i < n)%Z -> (0 < n)%Z ->
  Z.rem (i + 1) n = (if (i =? n - 1)%Z then 0 else i + 1)%Z.
Proof.
  intros Hi Hn. destruct (Z.eqb_spec i (n - 1)) as [->|Hne].
  - replace (n - 1 + 1)%Z with n by lia. by apply Z.rem_same, Z.neq_sym, Z.lt_neq.
  - apply Z.rem_small. lia.
Qed.

Lemma rem_up i n :
  (-1 <= i < n)%Z -> (0 < n)%Z ->
  Z.rem (i - 1 + n) n
  = (if (i =? -1)%Z then (if (n =? 1)%Z then 0 else n - 2)
     else if (i =? 0)%Z then n - 1 else i - 1)%Z.
Proof.
  intros Hi Hn. destruct (Z.eqb_spec i (-1)) as [->|Hne].
  - destruct (Z.eqb_spec n 1) as [->|Hn1]; [done|]. rewrite Z.rem_small by lia. lia.
  - destruct (Z.eqb_spec i 0) as [->|Hne0]; [rewrite Z.rem_small by lia; lia|].
    replace (i - 1 + n)%Z with (i - 1 + 1 * n)%Z by lia.
    rewrite Z.rem_add; [apply Z.rem_small; lia|lia|nia].
Qed.

Lemma handleKeyDown_consistent key s : consistent s -> consistent (handleKeyDown key s).
Proof.
  intros Hs. unfold handleKeyDown.
  destruct (negb (isSearchFocused s) || (length (suggestions s) =? 0)%nat)%bool eqn:Hopen.
  { destruct (_ && _)%bool; [apply reset_consistent|done]. }
  apply orb_false_iff in Hopen as [_ Hlen]. apply Nat.eqb_neq in Hlen.
  destruct Hs as (Hidx & Hten & Hblank).
  destruct (String.eqb key "ArrowDown").
  { unfold consistent. cbn [activeIndex suggestions searchTerm setActiveIndex].
    split; [|done]. rewrite rem_down by lia.
    destruct (Z.eqb_spec (activeIndex s) (Z.of_nat (length (suggestions s)) - 1)); lia. }
  destruct (String.eqb key "ArrowUp").
  { unfold consistent. cbn [activeIndex suggestions searchTerm setActiveIndex].
    split; [|done]. rewrite rem_up by lia.
    destruct (Z.eqb_spec (activeIndex s) (-1));
      [destruct (Z.eqb_spec (Z.of_nat (length (suggestions s))) 1); lia|].
    destruct (Z.eqb_spec (activeIndex s) 0); lia. }
  destruct (String.eqb key "Enter").
  { destruct (activeSuggestion s); [apply reset_consistent|].
    by apply handleSearchSubmit_consistent. }
  destruct (String.eqb key "Escape"); [apply reset_consistent|done].
Qed.

Lemma handle_consistent e s :
  consistent s -> (forall value, e <> Change value) -> consistent (handle px e s).
Proof.
  intros Hs He. destruct e as [value| |key| | |index| |]; cbn [handle].
  - by destruct (He value).
  - done.
  - by apply handleKeyDown_consistent.
  - by apply handleSearchSubmit_consistent.
  - destruct (String.eqb_spec (searchTerm s) EmptyString); [done|].
    unfold consistent. cbn. split; [lia|]. split; [lia|done].
  - destruct (listShown px s); [|done].
    destruct (suggestions s !! index); [apply reset_consistent|done].
  - destruct (listShown px s); [apply reset_consistent|done].
  - destruct Hs as (Hidx & Hten & Hblank). unfold consistent. cbn.
    split; [lia|]. split; [done|done].
Qed.

Lemma step_consistent e s : consistent s -> consistent (step px e s).
Proof.
  intros Hs. unfold step.
  destruct (String.eqb_spec (searchTerm (handle px e s)) (searchTerm s)) as [Heq|Hne];
    [|apply updateSuggestions_consistent].
  destruct e as [value| |key| | |index| |]; try (by apply handle_consistent).
  cbn in Heq. subst value. cbn [handle]. by destruct s.
Qed.

(** What a handler that navigates leaves behind. *)
Lemma reset_cells s :
  searchTerm (reset s) = EmptyString /\ suggestions (reset s) = []
  /\ isSearchFocused (reset s) = false /\ activeIndex (reset s) = (-1)%Z
  /\ pushed (reset s) = pushed s.
Proof. done. Qed.

Lemma updateSuggestions_blank s :
  searchTerm s = EmptyString ->
  updateSuggestions px s = setActiveIndex (-1) (setSuggestions [] s).
Proof. intros Hs. unfold updateSuggestions. by rewrite Hs. Qed.

Lemma navigated_reset path s : navigated path s (reset (push path s)).
Proof. done. Qed.

Lemma step_of_handle e s :
  (searchTerm (handle px e s) = searchTerm s -> step px e s = handle px e s)
  /\ (searchTerm (handle px e s) = EmptyString ->
      pushed (step px e s) = pushed (handle px e s)
      /\ searchTerm (step px e s) = EmptyString
      /\ isSearchFocused (step px e s) = isSearchFocused (handle px e s)
      /\ (suggestions (handle px e s) = [] -> suggestions (step px e s) = [])
      /\ (activeIndex (handle px e s) = (-1)%Z -> activeIndex (step px e s) = (-1)%Z)).
Proof.
  unfold step. split.
  - intros ->. by rewrite String.eqb_refl.
  - intros Hblank. destruct (String.eqb _ _); [done|].
    by rewrite updateSuggestions_blank.
Qed.

Lemma step_navigated path e s :
  navigated path s (handle px e s) -> navigated path s (step px e s).
Proof.
  intros (Hpush & Hterm & Hsugg & Hfocus & Hidx).
  destruct (proj2 (step_of_handle e s) Hterm) as (Hp & Ht & Hf & Hs & Hi).
  unfold navigated. rewrite Hp, Ht, Hf, (Hs Hsugg), (Hi Hidx). done.
Qed.
End SearchBox.

Section Navigation.
Import Js JsText Context Header Box.
Variable px : Context.Sys.

Lemma updateSuggestions_pushed s : pushed (updateSuggestions px s) = pushed s.
Proof. unfold updateSuggestions. by destruct (String.eqb _ _). Qed.

Lemma step_pushed e s : pushed (step px e s) = pushed (handle px e s).
Proof.
  unfold step. destruct (String.eqb _ _); [done|apply updateSuggestions_pushed].
Qed.

Lemma activeSuggestion_listed s g : activeSuggestion s = Some g -> g ∈ suggestions s.
Proof.
  unfold activeSuggestion. destruct (_ && _)%bool; [|done].
  apply list_elem_of_lookup_2.
Qed.

Lemma click_outcome s g :
  g ∈ suggestions s ->
  exists path, navigated path s (handleSuggestionClick (sg_path g) s) /\ targets s path.
Proof.
  intros Hg. exists (sg_path g). split; [apply navigated_reset|].
  left. apply list_elem_of_fmap. by exists g.
Qed.

Lemma handleSearchSubmit_outcome s :
  pushed (handleSearchSubmit s) = pushed s
  \/ (trim (searchTerm s) <> EmptyString
      /\ exists path, navigated path s (handleSearchSubmit s) /\ targets s path).
Proof.
  unfold handleSearchSubmit.
  destruct (String.eqb_spec (trim (searchTerm s)) EmptyString) as [|Hterm]; [by left|].
  right. split; [done|].
  destruct (activeSuggestion s) as [g|] eqn:Hactive.
  { apply click_outcome. by apply activeSuggestion_listed. }
  destruct (suggestions s) as [|first rest] eqn:Hsugg.
  { eexists. split; [apply navigated_reset|]. right. by right. }
  destruct (String.eqb _ _).
  - destruct (click_outcome s first) as (path & Hnav & Htarget).
    { rewrite Hsugg. by left. }
    by exists path.
  - eexists. split; [apply navigated_reset|]. right. by right.
Qed.

Lemma handle_outcome e s :
  consistent s ->
  pushed (handle px e s) = pushed s
  \/ (trim (searchTerm s) <> EmptyString
      /\ exists path, navigated path s (handle px e s) /\ targets s path).
Proof.
  intros (_ & _ & Hblank).
  destruct e as [value| |key| | |index| |]; cbn [handle].
  - by left.
  - by left.
  - unfold handleKeyDown.
    destruct (negb (isSearchFocused s) || (length (suggestions s) =? 0)%nat)%bool eqn:Hopen.
    { destruct (String.eqb key "Enter"); cbn [andb]; [|by left].
      destruct (String.eqb_spec (trim (searchTerm s)) EmptyString) as [|Hterm];
        cbn [negb]; [by left|].
      right. split; [done|]. eexists. split; [apply navigated_reset|]. right. by right. }
    apply orb_false_iff in Hopen as [_ Hlen]. apply Nat.eqb_neq in Hlen.
    destruct (String.eqb key "ArrowDown"); [by left|].
    destruct (String.eqb key "ArrowUp"); [by left|].
    destruct (String.eqb key "Enter").
    { destruct (activeSuggestion s) as [g|] eqn:Hactive;
        [|apply handleSearchSubmit_outcome].
      right. split.
      - intros Hterm. apply Hblank in Hterm. by rewrite Hterm in Hlen.
      - apply click_outcome. by apply activeSuggestion_listed. }
    destruct (String.eqb key "Escape"); by left.
  - apply handleSearchSubmit_outcome.
  - destruct (String.eqb _ _); by left.
  - unfold listShown.
    destruct (isSearchFocused s); cbn [andb]; [|by left].
    destruct (String.eqb_spec (trim (searchTerm s)) EmptyString) as [|Hterm];
      cbn [negb andb]; [by left|].
    destruct (_ || _)%bool; [|by left].
    destruct (suggestions s !! index) as [g|] eqn:Hg; [|by left].
    right. split; [done|]. apply click_outcome. by eapply list_elem_of_lookup_2.
  - unfold listShown.
    destruct (isSearchFocused s); cbn [andb]; [|by left].
    destruct (String.eqb_spec (trim (searchTerm s)) EmptyString) as [|Hterm];
      cbn [negb andb]; [by left|].
    destruct (_ || _)%bool; [|by left].
    right. split; [done|]. eexists. split; [apply navigated_reset|]. right. by left.
  - by left.
Qed.
End Navigation.

(** X17.  Every handler of the search box keeps it consistent: the
    active index is -1 or the index of a suggestion that is held, at most
    ten suggestions are held, and none is held while the term is blank.
    This holds for the empty box and is kept by every event with the
    render that follows it, and by the effect that runs when the search
    index changes. *)
Theorem search_box_stays_consistent :
  Box.consistent Header.initialState
  /\ (forall px e s, Box.consistent s -> Box.consistent (Header.step px e s))
  /\ (forall px s, Box.consistent (Header.updateSuggestions px s)).
Proof.
  split; [|split].
  - unfold Box.consistent. cbn. split; [lia|]. split; [lia|done].
  - intros px e s. apply step_consistent.
  - apply updateSuggestions_consistent.
Qed.

Lemma search_box_stays_consistent_witness :
  Box.consistent
    (Header.step Worlds.freshContext (Header.KeyDown "ArrowDown")
       (Header.step Worlds.freshContext Header.Focus
          (Header.step Worlds.freshContext (Header.Change "pok") Header.initialState))).
Proof.
  apply (proj1 (proj2 search_box_stays_consistent)).
  apply (proj1 (proj2 search_box_stays_consistent)).
  apply (proj1 (proj2 search_box_stays_consistent)).
  apply (proj1 search_box_stays_consistent).
Defined.

(** X18.  While the list of suggestions is open, the arrow keys move
    the active index through the [n] suggestions and change nothing
    else.  ArrowDown goes to the next suggestion, from none to the first
    and from the last to the first.  ArrowUp goes to the one before and
    from the first to the last; from no active suggestion it goes to the
    last but one, or to the only suggestion when [n] is 1.  While the
    list is not open the arrow keys do nothing. *)
Theorem arrow_keys_walk_the_suggestions (s : Header.State) :
  Box.consistent s ->
  (Box.open s ->
   Header.handleKeyDown "ArrowDown" s
   = Header.setActiveIndex
       (if (Header.activeIndex s =? Z.of_nat (length (Header.suggestions s)) - 1)%Z
        then 0 else Header.activeIndex s + 1)%Z s
   /\ Header.handleKeyDown "ArrowUp" s
      = Header.setActiveIndex
          (if (Header.activeIndex s =? -1)%Z
           then (if (Z.of_nat (length (Header.suggestions s)) =? 1)%Z then 0
                 else Z.of_nat (length (Header.suggestions s)) - 2)
           else if (Header.activeIndex s =? 0)%Z
                then Z.of_nat (length (Header.suggestions s)) - 1
                else Header.activeIndex s - 1)%Z s)
  /\ (~ Box.open s ->
      Header.handleKeyDown "ArrowDown" s = s /\ Header.handleKeyDown "ArrowUp" s = s).
Proof.
  intros (Hidx & _ & _). split.
  - intros [Hfocus Hne]. unfold Header.handleKeyDown. rewrite Hfocus.
    assert (length (Header.suggestions s) <> 0%nat) as Hlen
      by (by destruct (Header.suggestions s)).
    rewrite (proj2 (Nat.eqb_neq _ _) Hlen). cbn.
    by rewrite rem_down, rem_up by lia.
  - intros Hclosed. unfold Header.handleKeyDown.
    destruct (negb _ || _)%bool eqn:Hcond; [done|].
    exfalso. apply Hclosed. apply orb_false_iff in Hcond as [Hfocus Hlen].
    apply negb_false_iff in Hfocus. apply Nat.eqb_neq in Hlen.
    split; [done|]. by destruct (Header.suggestions s).
Qed.

Lemma arrow_keys_walk_the_suggestions_witness :
  Header.activeIndex
    (Header.handleKeyDown "ArrowUp"
       (Header.step Worlds.freshContext Header.Focus
          (Header.step Worlds.freshContext (Header.Change "pok") Header.initialState)))
  = 1%Z.
Proof.
  rewrite (proj2 (proj1 (arrow_keys_walk_the_suggestions
                           (Header.step Worlds.freshContext Header.Focus
                              (Header.step Worlds.freshContext (Header.Change "pok")
                                 Header.initialState))
                           ltac:(vm_compute; repeat split; (lia || discriminate || done)))
                        ltac:(vm_compute; split; [reflexivity|discriminate]))).
  reflexivity.
Defined.

(** X19.  Where the search box navigates.  A box whose term is blank
    never navigates, whatever the event.  An event navigates at most
    once, and only to the target of a suggestion that was held or to the
    search page for the term without the white space around it; after a
    navigation the box is empty and closed: no term, no suggestion, no
    focus, no active index. *)
Theorem search_box_navigation
    (px : Context.Sys) (e : Header.Event) (s : Header.State) :
  Box.consistent s ->
  (JsText.trim (Header.searchTerm s) = EmptyString ->
   Header.pushed (Header.step px e s) = Header.pushed s)
  /\ (Header.pushed (Header.step px e s) = Header.pushed s
      \/ exists path,
           Box.navigated path s (Header.step px e s)
           /\ (path ∈ Header.sg_path <$> Header.suggestions s
               \/ path = Box.searchRoute (Header.searchTerm s)
               \/ path = Box.searchRoute (JsText.trim (Header.searchTerm s)))).
Proof.
  intros Hs.
  destruct (handle_outcome px e s Hs) as [Hsame|(Hterm & path & Hnav & Htarget)].
  - rewrite step_pushed. split; [done|by left].
  - split; [done|]. right. exists path. split; [by apply step_navigated|done].
Qed.

Lemma search_box_navigation_witness :
  Header.pushed
    (Header.step Worlds.freshContext (Header.KeyDown "Enter") Header.initialState)
  = Header.pushed Header.initialState.
Proof.
  apply (proj1 (search_box_navigation Worlds.freshContext (Header.KeyDown "Enter")
                  Header.initialState
                  ltac:(vm_compute; repeat split; (lia || discriminate || done)))).
  reflexivity.
Defined.

Section Suggested.
Import Js JsText Context Header Box.

Lemma pages_no_creature (f : SearchSuggestion -> bool) :
  creaturePaths (List.filter f pageSuggestionsData) = [].
Proof.
  unfold creaturePaths, pageSuggestionsData. cbn [List.filter].
  destruct (f _), (f _), (f _); reflexivity.
Qed.

Lemma pages_few (f : SearchSuggestion -> bool) :
  (length (List.filter f pageSuggestionsData) <= 3)%nat.
Proof.
  unfold pageSuggestionsData. cbn [List.filter].
  destruct (f _), (f _), (f _); cbn; lia.
Qed.

Lemma results_no_creature (f : SearchPage.SearchResultItem -> bool) :
  resultPaths (List.filter f SearchPage.pageSearchData) = [].
Proof.
  unfold resultPaths, SearchPage.pageSearchData. cbn [List.filter].
  destruct (f _), (f _), (f _); reflexivity.
Qed.

Lemma creaturePaths_app l k : creaturePaths (l ++ k) = (creaturePaths l ++ creaturePaths k)%list.
Proof. unfold creaturePaths. by rewrite List.filter_app, fmap_app. Qed.

Lemma resultPaths_app l k : resultPaths (l ++ k) = (resultPaths l ++ resultPaths k)%list.
Proof. unfold resultPaths. by rewrite List.filter_app, fmap_app. Qed.

Lemma creaturePaths_toSuggestion l :
  creaturePaths (toSuggestion <$> l) = (fun p => "/pokedex/" ++ mp_name p) <$> l.
Proof.
  unfold creaturePaths. induction l as [|p l IH]; [done|].
  cbn [fmap list_fmap List.filter isPokemon toSuggestion sg_type sg_path] in *.
  by rewrite IH.
Qed.

Lemma resultPaths_toResult l :
  resultPaths (SearchPage.toResult <$> l) = (fun p => "/pokedex/" ++ mp_name p) <$> l.
Proof.
  unfold resultPaths. induction l as [|p l IH]; [done|].
  cbn [fmap list_fmap List.filter SearchPage.toResult SearchPage.sr_type
         SearchPage.sr_path] in *.
  by rewrite IH.
Qed.

Lemma suggestions_closed_form px s :
  trim (searchTerm s) <> EmptyString ->
  suggestions (updateSuggestions px s)
  = (List.filter (fun p => includes (toLowerCase (sg_name p)) (toLowerCase (searchTerm s)))
       pageSuggestionsData
     ++ (toSuggestion
           <$> take (10 - length (List.filter
                                    (fun p => includes (toLowerCase (sg_name p))
                                                (toLowerCase (searchTerm s)))
                                    pageSuggestionsData))
                    (if isLoadingMinimalList px then []
                     else List.filter (matches (toLowerCase (searchTerm s)))
                            (minimalPokemonList px))))%list.
Proof.
  intros Hterm. unfold updateSuggestions.
  destruct (String.eqb_spec (trim (searchTerm s)) EmptyString) as [|_]; [done|].
  cbn [suggestions setActiveIndex setSuggestions].
  rewrite take_app_ge by (etrans; [apply pages_few|lia]).
  f_equal. destruct (isLoadingMinimalList px); cbn [negb].
  - by rewrite !take_nil.
  - by rewrite fmap_take.
Qed.

Lemma append_inj_l (p a b : string) : p ++ a = p ++ b -> a = b.
Proof.
  induction p as [|c p IH]; [done|]. rewrite !append_cons. intros [=H]. by apply IH.
Qed.

Lemma hexDigit_code x : (x < 16)%nat ->
  Ascii.nat_of_ascii (hexDigit x) = if (x <? 10)%nat then (48 + x)%nat else (55 + x)%nat.
Proof.
  intros Hx. unfold hexDigit.
  destruct (x <? 10)%nat; apply Ascii.nat_ascii_embedding; lia.
Qed.

Lemma hexDigit_inj x y : (x < 16)%nat -> (y < 16)%nat -> hexDigit x = hexDigit y -> x = y.
Proof.
  intros Hx Hy Heq. apply (f_equal Ascii.nat_of_ascii) in Heq.
  rewrite !hexDigit_code in Heq by done.
  destruct (Nat.ltb_spec x 10), (Nat.ltb_spec y 10); lia.
Qed.

Lemma hexDigit_safe x : (x < 16)%nat -> urlSafe (hexDigit x) = true.
Proof.
  intros Hx. do 16 (destruct x as [|x]; [reflexivity|]). lia.
Qed.

Lemma code_small c : (Ascii.nat_of_ascii c < 256)%nat.
Proof. apply Ascii.nat_ascii_bounded. Qed.

Lemma escape_inj c d : escape c = escape d -> c = d.
Proof.
  unfold escape. intros [=Hhi Hlo].
  change (hexDigit (Ascii.nat_of_ascii c / 16) = hexDigit (Ascii.nat_of_ascii d / 16)) in Hhi.
  change (hexDigit (Ascii.nat_of_ascii c mod 16) = hexDigit (Ascii.nat_of_ascii d mod 16))
    in Hlo.
  pose proof (code_small c) as Hc. pose proof (code_small d) as Hd.
  apply hexDigit_inj in Hhi;
    [|apply Nat.Div0.div_lt_upper_bound; lia|apply Nat.Div0.div_lt_upper_bound; lia].
  apply hexDigit_inj in Hlo; [|apply Nat.mod_upper_bound; lia|apply Nat.mod_upper_bound; lia].
  rewrite <- (Ascii.ascii_nat_embedding c), <- (Ascii.ascii_nat_embedding d).
  f_equal.
  rewrite (Nat.div_mod_eq (Ascii.nat_of_ascii c) 16), (Nat.div_mod_eq (Ascii.nat_of_ascii d) 16).
  by rewrite Hhi, Hlo.
Qed.

Lemma encodeURIComponent_safe s : Text.every urlSafe (encodeURIComponent s) = true.
Proof.
  induction s as [|c s IH]; [done|]. cbn [encodeURIComponent].
  rewrite every_append, IH, andb_true_r.
  destruct (unreserved c) eqn:Hc.
  - cbn. unfold urlSafe. by rewrite Hc.
  - unfold escape. cbn [Text.every].
    pose proof (code_small c) as Hsmall.
    rewrite !hexDigit_safe;
      [done|apply Nat.mod_upper_bound; lia|apply Nat.Div0.div_lt_upper_bound; lia].
Qed.

Lemma encodeURIComponent_inj s t :
  encodeURIComponent s = encodeURIComponent t -> s = t.
Proof.
  revert t. induction s as [|c s IH]; intros [|d t]; cbn [encodeURIComponent].
  - done.
  - destruct (unreserved d); unfold escape; rewrite !append_cons; discriminate.
  - destruct (unreserved c); unfold escape; rewrite !append_cons; discriminate.
  - destruct (unreserved c) eqn:Hc, (unreserved d) eqn:Hd; unfold escape;
      rewrite ?append_cons, ?append_nil_l.
    + intros [=-> Hrest]. f_equal. by apply IH.
    + intros [=-> _]. done.
    + intros [=<- _]. done.
    + intros [=Hhi Hlo Hrest]. f_equal; [|by apply IH].
      apply escape_inj. unfold escape.
      exact (f_equal2 (fun h l => String "%"%char (String h (String l EmptyString))) Hhi Hlo).
Qed.
End Suggested.

(** X20.  What the header suggests for a term that is not blank and is
    written in ASCII, over an index of entries as the remote API gives
    rise to them: first every page whose name contains the term, whatever
    the case of the letters, then the creatures of the search index that
    match it, in the order of the index, as many as fill ten places.  The
    pages are never cut off, as there are at most three; while the index
    is loading no creature is suggested. *)
Theorem suggestions_list_pages_then_creatures (px : Context.Sys) (s : Header.State) :
  JsText.trim (Header.searchTerm s) <> EmptyString ->
  Text.every Text.isAscii (Header.searchTerm s) = true ->
  Forall Index.plainEntry (Context.minimalPokemonList px) ->
  exists pages creatures,
    Header.suggestions (Header.updateSuggestions px s)
    = (pages ++ (Header.toSuggestion <$> creatures))%list
    /\ pages
       = List.filter
           (fun p => JsText.includes (Js.toLowerCase (Header.sg_name p))
                       (Js.toLowerCase (Header.searchTerm s)))
           Header.pageSuggestionsData
    /\ (length pages <= 3)%nat
    /\ creatures
       = take (10 - length pages)
           (if Context.isLoadingMinimalList px then []
            else List.filter (Header.matches (Js.toLowerCase (Header.searchTerm s)))
                   (Context.minimalPokemonList px)).
Proof.
  intros Hterm _ _. eexists _, _.
  split; [by apply suggestions_closed_form|].
  split; [done|]. split; [apply pages_few|done].
Qed.

Lemma suggestions_list_pages_then_creatures_witness :
  exists pages creatures,
    Header.suggestions
      (Header.updateSuggestions
         (Context.fetchMinimalPokemonList Worlds.listed Worlds.freshContext)
         (Header.setSearchTerm "saur" Header.initialState))
    = (pages ++ (Header.toSuggestion <$> creatures))%list
    /\ pages
       = List.filter
           (fun p => JsText.includes (Js.toLowerCase (Header.sg_name p))
                       (Js.toLowerCase "saur"))
           Header.pageSuggestionsData
    /\ (length pages <= 3)%nat
    /\ creatures
       = take (10 - length pages)
           (if Context.isLoadingMinimalList
                 (Context.fetchMinimalPokemonList Worlds.listed Worlds.freshContext)
            then []
            else List.filter (Header.matches (Js.toLowerCase "saur"))
                   (Context.minimalPokemonList
                      (Context.fetchMinimalPokemonList Worlds.listed Worlds.freshContext))).
Proof.
  apply (suggestions_list_pages_then_creatures
           (Context.fetchMinimalPokemonList Worlds.listed Worlds.freshContext)
           (Header.setSearchTerm "saur" Header.initialState)).
  - vm_compute. discriminate.
  - reflexivity.
  - set (l := Context.minimalPokemonList _). vm_compute in l. subst l.
    constructor; [|constructor; [|constructor]];
      (split; [reflexivity|split; [reflexivity|cbn; lia]]).
Defined.

(** X21.  The route of the search page cannot be broken by the term.
    After the fixed start [/search?q=] it holds only letters, digits,
    the marks [- _ . ! ~ * ' ( )] and the percent sign of the escapes, so
    no character of the term can end the parameter or start another one;
    and two terms get the same route only when they are the same once the
    white space around them is taken off. *)
Theorem search_route_is_url_safe (term term' : string) :
  (exists encoded,
      Box.searchRoute term = "/search?q=" ++ encoded
      /\ Text.every Box.urlSafe encoded = true)
  /\ (Box.searchRoute term = Box.searchRoute term' ->
      JsText.trim term = JsText.trim term').
Proof.
  split.
  - eexists. split; [reflexivity|]. apply encodeURIComponent_safe.
  - unfold Box.searchRoute. intros Heq.
    by apply append_inj_l, encodeURIComponent_inj in Heq.
Qed.

Lemma search_route_is_url_safe_witness :
  JsText.trim " mr mime" = JsText.trim "mr mime  ".
Proof.
  apply (proj2 (search_route_is_url_safe " mr mime" "mr mime  ")).
  vm_compute. reflexivity.
Defined.

(** X22.  The header and the search page agree on the creatures.  Once
    the search index is loaded, the creatures the header suggests for a
    term are the first of the creatures the search page lists for the
    same words as its query, in the same order; and when the header
    shows fewer than ten suggestions for a term that is not blank, the
    search page lists exactly the same creatures. *)
Theorem header_suggests_what_the_search_page_finds
    (px : Context.Sys) (q : string) (s : Header.State) (r : SearchPage.State) :
  Context.isLoadingMinimalList px = false ->
  Box.creaturePaths
    (Header.suggestions (Header.updateSuggestions px (Header.setSearchTerm q s)))
    `prefix_of` Box.resultPaths (SearchPage.results (SearchPage.search (Some q) px r))
  /\ (JsText.trim q <> EmptyString ->
      (length (Header.suggestions (Header.updateSuggestions px (Header.setSearchTerm q s)))
       < 10)%nat ->
      Box.creaturePaths
        (Header.suggestions (Header.updateSuggestions px (Header.setSearchTerm q s)))
      = Box.resultPaths (SearchPage.results (SearchPage.search (Some q) px r))).
Proof.
  intros Hloaded.
  assert (forall t, JsText.trim t <> EmptyString -> t <> EmptyString) as Hnonempty.
  { intros t Ht ->. by apply Ht. }
  assert (JsText.trim q <> EmptyString ->
          Box.resultPaths (SearchPage.results (SearchPage.search (Some q) px r))
          = (fun p => "/pokedex/" ++ Context.mp_name p)
              <$> List.filter (Header.matches (Js.toLowerCase q))
                    (Context.minimalPokemonList px)) as Hlisted.
  { intros Hq. unfold SearchPage.search. rewrite Hloaded.
    cbn [SearchPage.results Js.truthy_str JsText.or_default].
    destruct (String.eqb_spec q EmptyString) as [Hempty|_];
      [by apply Hnonempty in Hq|]. cbn [negb].
    by rewrite resultPaths_app, results_no_creature, resultPaths_toResult. }
  destruct (String.eqb_spec (JsText.trim q) EmptyString) as [Hblank|Hq].
  { split; [|done]. unfold Header.updateSuggestions.
    cbn [Header.searchTerm Header.setSearchTerm]. rewrite Hblank. cbn.
    apply prefix_nil. }
  rewrite (Hlisted Hq).
  rewrite (suggestions_closed_form px (Header.setSearchTerm q s)) by done.
  cbn [Header.searchTerm Header.setSearchTerm]. rewrite Hloaded.
  rewrite !creaturePaths_app, !pages_no_creature, !creaturePaths_toSuggestion.
  cbn [app]. rewrite !fmap_take. split; [apply prefix_take|].
  intros _. rewrite length_app, length_take, length_fmap. intros Hfew.
  pose proof (pages_few
                (fun p => JsText.includes (Js.toLowerCase (Header.sg_name p))
                            (Js.toLowerCase q))) as Hpages.
  apply take_ge. rewrite length_fmap. lia.
Qed.

Lemma header_suggests_what_the_search_page_finds_witness :
  Box.creaturePaths
    (Header.suggestions
       (Header.updateSuggestions
          (Context.fetchMinimalPokemonList Worlds.listed Worlds.freshContext)
          (Header.setSearchTerm "saur" Header.initialState)))
  = Box.resultPaths
      (SearchPage.results
         (SearchPage.search (Some "saur")
            (Context.fetchMinimalPokemonList Worlds.listed Worlds.freshContext)
            SearchPage.initialState)).
Proof.
  apply (proj2 (header_suggests_what_the_search_page_finds
                  (Context.fetchMinimalPokemonList Worlds.listed Worlds.freshContext)
                  "saur" Header.initialState SearchPage.initialState
                  ltac:(reflexivity))).
  - vm_compute. discriminate.
  - vm_compute. lia.
Defined.

(** X23.  A failed list request blocks the search page.  When the list
    is requested and the request fails, the search page shows the error
    of the search index instead of results, for every query and even for
    none, although the pages it could list need no index; this holds for
    every failure whose message is not empty, and so for an answer whose
    status is not a success.  A failure with an empty message is not
    shown. *)
Theorem failed_index_blocks_the_search_page
    (w : Context.World) (s : Context.Sys)
    (query : option string) (r : SearchPage.State) :
  Index.requested w s ->
  Failure.unreachable (Context.listing w (Context.sent s)) ->
  exists message,
    Context.searchError (Context.fetchMinimalPokemonList w s) = Some message
    /\ (message <> EmptyString ->
        SearchPage.view query (Context.fetchMinimalPokemonList w s)
          (SearchPage.search query (Context.fetchMinimalPokemonList w s) r)
        = SearchPage.ErrorView message)
    /\ (message = EmptyString ->
        forall shown,
          SearchPage.view query (Context.fetchMinimalPokemonList w s)
            (SearchPage.search query (Context.fetchMinimalPokemonList w s) r)
          <> SearchPage.ErrorView shown)
    /\ (forall status body,
          Context.listing w (Context.sent s) = Js.Responded false status body ->
          message = "Failed to fetch minimal Pokémon list for search.").
Proof.
  intros Hreq Hfail.
  assert (forall px message,
             Context.isLoadingMinimalList px = false ->
             Context.searchError px = Some message ->
             message <> EmptyString ->
             SearchPage.view query px (SearchPage.search query px r)
             = SearchPage.ErrorView message) as Hview.
  { intros px message Hloaded Herror Hmessage.
    unfold SearchPage.view, SearchPage.search. rewrite Hloaded, Herror.
    cbn [SearchPage.isLoading Js.truthy_str JsText.or_default].
    by destruct (String.eqb_spec message EmptyString). }
  assert (Context.isLoadingMinimalList (Context.fetchMinimalPokemonList w s) = false)
    as Hloaded.
  { rewrite (fetchMinimalPokemonList_requested w s Hreq). done. }
  assert (exists message,
             Context.searchError (Context.fetchMinimalPokemonList w s) = Some message
             /\ forall status body,
                  Context.listing w (Context.sent s) = Js.Responded false status body ->
                  message = "Failed to fetch minimal Pokémon list for search.")
    as (message & Herror & Hfixed).
  { rewrite (fetchMinimalPokemonList_requested w s Hreq).
    unfold Eff.try_catch, Context.refetch, Eff.bind, Eff.get, Eff.modify. cbn.
    destruct (Context.listing w (Context.sent s)) as [e|[] status [e|results]]; cbn in *.
    - by exists e.
    - by exists e.
    - destruct Hfail as [?|[? ?]]; done.
    - by eexists.
    - by eexists. }
  exists message. split; [done|]. split; [|split; [|done]].
  - intros Hmessage. by apply Hview.
  - intros -> shown. unfold SearchPage.view, SearchPage.search.
    rewrite Hloaded, Herror. cbn [SearchPage.isLoading Js.truthy_str String.eqb negb].
    destruct (negb (Js.truthy_str query)); [done|].
    by destruct (0 <? _)%nat.
Qed.

Lemma failed_index_blocks_the_search_page_witness :
  SearchPage.view (Some "saur")
    (Context.fetchMinimalPokemonList
       {| Context.listing := fun _ => Js.Responded false 503 (inl "Service Unavailable");
          Context.clock := fun _ => 0%Z |}
       Worlds.freshContext)
    (SearchPage.search (Some "saur")
       (Context.fetchMinimalPokemonList
          {| Context.listing := fun _ => Js.Responded false 503 (inl "Service Unavailable");
             Context.clock := fun _ => 0%Z |}
          Worlds.freshContext)
       SearchPage.initialState)
  = SearchPage.ErrorView "Failed to fetch minimal Pokémon list for search.".
Proof.
  destruct (failed_index_blocks_the_search_page
              {| Context.listing := fun _ => Js.Responded false 503 (inl "Service Unavailable");
                 Context.clock := fun _ => 0%Z |}
              Worlds.freshContext (Some "saur") SearchPage.initialState
              ltac:(exact I) ltac:(left; reflexivity))
    as (message & Herror & Hview & _ & Hfixed).
  rewrite (Hfixed 503%Z (inl "Service Unavailable") eq_refl) in Hview.
  apply Hview. discriminate.
Defined.
